(** * Dynamic hash tables of the MIT 6.006 exercises

    A shallow embedding of the hash-table engine:
    - the hash functions (division, multiplication, universal) and the
      probing hash functions (linear probing, double hashing);
    - hashing with chaining and table doubling
      (09_table_doubling_karp_rabin/m6006_09_01_table_doubling.cpp);
    - hashing with open addressing (the open-addressing source file).

    Conventions.  A [uint32_t] is a [Z] in [0, 2^32); every arithmetic
    operation of the source that can leave that range is followed by
    [wrap32].  Arrays are lists read and written by index.  A loop of
    the source whose termination is not structural takes a [fuel] and
    returns [None] when the fuel runs out; [None] never stands for a
    result of the program.  Where the source is undefined (a remainder
    by zero, a shift by the word size, an index outside an array) the
    definitions have the value of the Rocq operation; the statements
    are made under the conditions that keep the source defined. *)

From Stdlib Require Import ZArith Znumtheory Lia.
From stdpp Require Import base tactics option list numbers.

Local Open Scope Z_scope.

(** ** 32-bit unsigned arithmetic *)

Definition UINT32_MAX : Z := 4294967295.

Definition wrap32 (x : Z) : Z := x mod 2 ^ 32.

(** ** Hash functions *)

(** The interface [HashFunction]: the constructor from a table size, the
    function-call operator and [UpdateHashSize].  Construction and
    resizing take fuel because the universal hash function searches for
    a prime number. *)
Class HashFunctionBase (H : Type) := {
  UpdateHashSize : nat → Z → H → option H;
}.

Class HashFunction (H : Type) `{HashFunctionBase H} := {
  new_hash : nat → Z → option H;
  hash : H → Z → Z;
}.

(** The interface [ProbingHashFunction]: the function-call operator
    takes the key and the trial number. *)
Class ProbingHashFunction (P : Type) `{HashFunctionBase P} := {
  probing_hash : P → Z → Z → Z;
}.

Module DivisionHashFunction.

Record t := mk { M : Z }.

Definition new (m : Z) : t := mk m.

(** [operator()]: [key % M]. *)
Definition call (h : t) (key : Z) : Z := key mod M h.

(** [UpdateHashSize]: [M = m]; [OnHashSizeChange] is the empty default. *)
Definition UpdateHashSize (m : Z) (h : t) : t := mk m.

End DivisionHashFunction.

Module MultiplicationHashFunction.

(** Word size. *)
Definition W : Z := 32.

(** [(static_cast<uint64_t>(1) << W) / 1.6180339], truncated to
    [uint32_t]. *)
Definition A : Z := 2654435915.

Record t := mk { M : Z; R : Z }.

(** [for (R = 0; (m = (m >> 1)); ++R);] on a positive [m]: one more
    for every bit above the lowest. *)
Fixpoint bit_width (m : positive) (r : Z) : Z :=
  match m with
  | xH => r
  | xO m' | xI m' => bit_width m' (r + 1)
  end.

Definition OnHashSizeChange (h : t) : t :=
  mk (M h) (match M h with Zpos m => bit_width m 0 | _ => 0 end).

Definition new (m : Z) : t := OnHashSizeChange (mk m 0).

(** [operator()]: [(A * key) >> (W - R)]. *)
Definition call (h : t) (key : Z) : Z :=
  Z.shiftr (wrap32 (A * key)) (W - R h).

Definition UpdateHashSize (m : Z) (h : t) : t :=
  OnHashSizeChange (mk m (R h)).

End MultiplicationHashFunction.

Module UniversalHashFunction.

Record t := mk { M : Z; P : Z; A : Z; B : Z; draws : nat }.

(** The loop of [is_prime]: [i = 5, 11, 17, ...] with [i_sq = i * i]
    kept by additions. *)
Fixpoint is_prime_loop (fuel : nat) (n i i_sq i_sq_step : Z) : option bool :=
  if i_sq <=? n then
    if (n mod i =? 0) || (n mod wrap32 (i + 2) =? 0) then Some false
    else
      match fuel with
      | O => None
      | S fuel' =>
          is_prime_loop fuel' n (wrap32 (i + 6)) (wrap32 (i_sq + i_sq_step))
            (wrap32 (i_sq_step + 72))
      end
  else Some true.

Definition is_prime (fuel : nat) (n : Z) : option bool :=
  if (n mod 2 =? 0) || (n mod 3 =? 0) then Some false
  else is_prime_loop fuel n 5 25 96.

(** [while (!is_prime(++n));  return n;] *)
Fixpoint least_prime_loop (pfuel fuel : nat) (n : Z) : option Z :=
  match fuel with
  | O => None
  | S fuel' =>
      let n' := wrap32 (n + 1) in
      match is_prime pfuel n' with
      | None => None
      | Some true => Some n'
      | Some false => least_prime_loop pfuel fuel' n'
      end
  end.

Definition least_prime_larger_than (fuel : nat) (n : Z) : option Z :=
  least_prime_loop fuel fuel n.

Section WithRand.

(** [rand i] is the value of the [i]-th call of the C library's
    [rand()] after [srand(A_BIG_PRIME_NUMBER)].  A hash function counts
    its own calls in [draws]; the statements hold for every [rand] and
    every count, so they do not depend on how several hash functions
    share the generator. *)
Variable rand : nat → Z.

Definition OnHashSizeChange (fuel : nat) (h : t) : option t :=
  p ← least_prime_larger_than fuel (M h);
  Some (mk (M h) p (wrap32 (rand (draws h)) mod p)
           (wrap32 (rand (S (draws h))) mod p) (S (S (draws h)))).

(** The constructor reseeds the generator: the draws restart. *)
Definition new (fuel : nat) (m : Z) : option t :=
  OnHashSizeChange fuel (mk m 0 0 0 0%nat).

Definition UpdateHashSize (fuel : nat) (m : Z) (h : t) : option t :=
  OnHashSizeChange fuel (mk m (P h) (A h) (B h) (draws h)).

End WithRand.

(** [operator()]: [((A * key + B) % P) % M]. *)
Definition call (h : t) (key : Z) : Z :=
  (wrap32 (wrap32 (A h * key) + B h) mod P h) mod M h.

End UniversalHashFunction.

#[export] Instance division_base : HashFunctionBase DivisionHashFunction.t := {
  UpdateHashSize _ m h := Some (DivisionHashFunction.UpdateHashSize m h);
}.

#[export] Instance division_hash : HashFunction DivisionHashFunction.t := {
  new_hash _ m := Some (DivisionHashFunction.new m);
  hash := DivisionHashFunction.call;
}.

#[export] Instance multiplication_base : HashFunctionBase MultiplicationHashFunction.t := {
  UpdateHashSize _ m h := Some (MultiplicationHashFunction.UpdateHashSize m h);
}.

#[export] Instance multiplication_hash : HashFunction MultiplicationHashFunction.t := {
  new_hash _ m := Some (MultiplicationHashFunction.new m);
  hash := MultiplicationHashFunction.call;
}.

Definition universal_base (rand : nat → Z) : HashFunctionBase UniversalHashFunction.t := {|
  UpdateHashSize := UniversalHashFunction.UpdateHashSize rand;
|}.

Definition universal_hash (rand : nat → Z) :
  @HashFunction UniversalHashFunction.t (universal_base rand) := {|
  new_hash := UniversalHashFunction.new rand;
  hash := UniversalHashFunction.call;
|}.

(** ** Probing hash functions *)

Module LinearProbingHashFunction.
Section WithHash.
Context {H : Type} `{HashFunction H}.

Record t := mk { M : Z; hFunc : H }.

Definition new (fuel : nat) (m : Z) (hf : H) : option t :=
  hf' ← UpdateHashSize fuel m hf; Some (mk m hf').

(** [operator()]: [(hFunc(key) + trial_no) % M]. *)
Definition call (p : t) (key trial_no : Z) : Z :=
  wrap32 (hash (hFunc p) key + trial_no) mod M p.

(** [UpdateHashSize]: [M = m], then [OnHashSizeChange] resizes the
    underlying hash function. *)
Definition UpdateHashSize (fuel : nat) (m : Z) (p : t) : option t :=
  hf' ← UpdateHashSize fuel m (hFunc p); Some (mk m hf').

End WithHash.
Arguments t H : clear implicits.
End LinearProbingHashFunction.

Module DoubleHashFunction.

Definition Oddify (val : Z) : Z := Z.lor val 1.

Section WithHash.
Context {H1 H2 : Type} `{HashFunction H1} `{HashFunction H2}.

Record t := mk { M : Z; hFunc1 : H1; hFunc2 : H2 }.

Definition new (fuel : nat) (m : Z) (hf1 : H1) (hf2 : H2) : option t :=
  hf1' ← UpdateHashSize fuel m hf1;
  hf2' ← UpdateHashSize fuel m hf2;
  Some (mk m hf1' hf2').

(** [operator()]:
    [(hFunc1(key) + trial_no * Oddify(hFunc2(key))) % M]. *)
Definition call (p : t) (key trial_no : Z) : Z :=
  wrap32 (hash (hFunc1 p) key
          + wrap32 (trial_no * Oddify (hash (hFunc2 p) key))) mod M p.

Definition UpdateHashSize (fuel : nat) (m : Z) (p : t) : option t :=
  hf1' ← UpdateHashSize fuel m (hFunc1 p);
  hf2' ← UpdateHashSize fuel m (hFunc2 p);
  Some (mk m hf1' hf2').

End WithHash.
Arguments t H1 H2 : clear implicits.
End DoubleHashFunction.

#[export] Instance linear_base `{HashFunction H} :
  HashFunctionBase (LinearProbingHashFunction.t H) := {
  UpdateHashSize := LinearProbingHashFunction.UpdateHashSize;
}.

#[export] Instance linear_probing `{HashFunction H} :
  ProbingHashFunction (LinearProbingHashFunction.t H) := {
  probing_hash := LinearProbingHashFunction.call;
}.

#[export] Instance double_base `{HashFunction H1} `{HashFunction H2} :
  HashFunctionBase (DoubleHashFunction.t H1 H2) := {
  UpdateHashSize := DoubleHashFunction.UpdateHashSize;
}.

#[export] Instance double_hashing `{HashFunction H1} `{HashFunction H2} :
  ProbingHashFunction (DoubleHashFunction.t H1 H2) := {
  probing_hash := DoubleHashFunction.call;
}.

(** ** Hashing with chaining and table doubling *)

(** [insert] every key of [keys] in turn; [rehash] runs it over the
    entries of the old table. *)
Fixpoint insert_all {T : Type} (insert : T → Z → option T)
    (keys : list Z) (ht : T) : option T :=
  match keys with
  | [] => Some ht
  | key :: keys' => ht' ← insert ht key; insert_all insert keys' ht'
  end.

Module Chaining.
Section WithHash.
Context {H : Type} `{HashFunction H}.

Definition INVALID_KEY : Z := 4294967295.

Definition MIN_LENGTH : Z := 8.

Record HashTable := mkHashTable {
  length : Z;
  num_entries : Z;
  hashFunc : H;
  hashTable : list (list Z);
}.

(** [hashTable[i]].  Reading outside the array is undefined in the
    source. *)
Definition chain_at (tbl : list (list Z)) (i : Z) : list Z :=
  default [] (tbl !! Z.to_nat i).

(** The internal [find(chain, key)]: the position and the value of
    the first entry equal to [key], [None] for [chain.end()]. *)
Definition find_chain (chain : list Z) (key : Z) : option (nat * Z) :=
  list_find (λ entry, entry = key) chain.

Definition new (fuel : nat) : option HashTable :=
  hf ← new_hash fuel MIN_LENGTH;
  Some (mkHashTable MIN_LENGTH 0 hf (replicate (Z.to_nat MIN_LENGTH) [])).

(** [hashTable[hashFunc(key)].push_back(key); ++num_entries;] *)
Definition push_back (ht : HashTable) (key : Z) : HashTable :=
  mkHashTable (length ht) (wrap32 (num_entries ht + 1)) (hashFunc ht)
    (alter (λ chain, chain ++ [key]) (Z.to_nat (hash (hashFunc ht) key))
       (hashTable ht)).

(** [rehash], with the [insert] it calls back as a parameter. *)
Definition rehash_with (insert : HashTable → Z → option HashTable)
    (fuel : nat) (new_length : Z) (ht : HashTable) : option HashTable :=
  hf ← UpdateHashSize fuel new_length (hashFunc ht);
  insert_all insert
    (concat (take (Z.to_nat (length ht)) (hashTable ht)))
    (mkHashTable new_length 0 hf (replicate (Z.to_nat new_length) [])).

Fixpoint insert (fuel : nat) (ht : HashTable) (key : Z) : option HashTable :=
  match fuel with
  | O => None
  | S fuel' =>
      ht1 ← (if length ht =? num_entries ht
             then rehash_with (insert fuel') fuel' (wrap32 (2 * length ht)) ht
             else Some ht);
      Some (push_back ht1 key)
  end.

Definition rehash (fuel : nat) (new_length : Z) (ht : HashTable) :
    option HashTable :=
  rehash_with (insert fuel) fuel new_length ht.

Definition find (ht : HashTable) (key : Z) : Z :=
  match find_chain (chain_at (hashTable ht) (hash (hashFunc ht) key)) key with
  | Some (_, entry) => entry
  | None => INVALID_KEY
  end.

Definition remove (fuel : nat) (ht : HashTable) (key : Z) : option HashTable :=
  let hkey := hash (hashFunc ht) key in
  let chain := chain_at (hashTable ht) hkey in
  let tbl :=
    match find_chain chain key with
    | Some (itr, _) => <[Z.to_nat hkey := delete itr chain]> (hashTable ht)
    | None => hashTable ht
    end in
  let ht' := mkHashTable (length ht) (wrap32 (num_entries ht - 1))
               (hashFunc ht) tbl in
  if (MIN_LENGTH <? length ht') && (num_entries ht' <=? length ht' / 4)
  then rehash fuel (length ht' / 2) ht'
  else Some ht'.

(** Every key held in some chain. *)
Definition keys (ht : HashTable) : list Z := concat (hashTable ht).

(** [key] lies in the chain that its hash value selects. *)
Definition stored (ht : HashTable) (key : Z) : Prop :=
  key ∈ chain_at (hashTable ht) (hash (hashFunc ht) key).

End WithHash.
Arguments HashTable H : clear implicits.
End Chaining.

(** ** Hashing with open addressing *)

Module OpenAddressing.
Section WithProbing.
Context {P : Type} `{ProbingHashFunction P}.

Definition FREE_MARKER : Z := UINT32_MAX.

Definition DEL_MARKER : Z := UINT32_MAX - 1.

Definition INVALID_KEY : Z := FREE_MARKER.

Definition MIN_LENGTH : Z := 8.

Record HashTable := mkHashTable {
  length : Z;
  num_entries : Z;
  prHashFunc : P;
  hashTable : list Z;
}.

Definition new_hash_table (length : Z) : list Z :=
  replicate (Z.to_nat length) FREE_MARKER.

(** [hashTable[index]].  Reading outside the array is undefined in
    the source; the statements below keep every index in range. *)
Definition slot (tbl : list Z) (index : Z) : Z :=
  default FREE_MARKER (tbl !! Z.to_nat index).

(** [load_factor() >= 0.5] and [load_factor() <= 0.125].  The
    quotient of two 32-bit counters, taken in double precision,
    compares with these two constants as the exact quotient does;
    with [length = 0] it is a NaN or an infinity. *)
Definition load_factor_ge_half (ht : HashTable) : bool :=
  if length ht =? 0 then 0 <? num_entries ht
  else length ht <=? 2 * num_entries ht.

Definition load_factor_le_eighth (ht : HashTable) : bool :=
  if length ht =? 0 then false
  else 8 * num_entries ht <=? length ht.

(** The loop of [find_index], entered with the trial number
    [probe]. *)
Fixpoint find_index_loop (fuel : nat) (ht : HashTable) (key probe : Z) :
    option Z :=
  match fuel with
  | O => None
  | S fuel' =>
      let index := probing_hash (prHashFunc ht) key probe in
      let probe' := wrap32 (probe + 1) in
      if slot (hashTable ht) index =? key then Some index
      else if negb (slot (hashTable ht) index =? FREE_MARKER)
              && (probe' <? length ht)
           then find_index_loop fuel' ht key probe'
           else Some (length ht)
  end.

Definition find_index (fuel : nat) (ht : HashTable) (key : Z) : option Z :=
  find_index_loop fuel ht key 0.

(** The probing loop of [insert]: [Some None] when the key is met
    (the [return] inside the loop), [Some (Some index)] when the
    loop ends on a free slot. *)
Fixpoint insert_loop (fuel : nat) (ht : HashTable) (key probe : Z) :
    option (option Z) :=
  match fuel with
  | O => None
  | S fuel' =>
      let index := probing_hash (prHashFunc ht) key probe in
      let probe' := wrap32 (probe + 1) in
      if slot (hashTable ht) index =? key then Some None
      else if negb (slot (hashTable ht) index =? FREE_MARKER)
           then insert_loop fuel' ht key probe'
           else Some (Some index)
  end.

(** [hashTable[index] = key; ++num_entries;] *)
Definition place (ht : HashTable) (index key : Z) : HashTable :=
  mkHashTable (length ht) (wrap32 (num_entries ht + 1)) (prHashFunc ht)
    (<[Z.to_nat index := key]> (hashTable ht)).

Definition occupied (key : Z) : Prop :=
  key ≠ FREE_MARKER ∧ key ≠ DEL_MARKER.

Definition rehash_with (insert : HashTable → Z → option HashTable)
    (fuel : nat) (new_length : Z) (ht : HashTable) : option HashTable :=
  pr ← UpdateHashSize fuel new_length (prHashFunc ht);
  insert_all insert
    (filter occupied (take (Z.to_nat (length ht)) (hashTable ht)))
    (mkHashTable new_length 0 pr (new_hash_table new_length)).

(** The first statement of [insert]: grow when the table is half
    full. *)
Definition grow_with (insert : HashTable → Z → option HashTable)
    (fuel : nat) (ht : HashTable) : option HashTable :=
  if load_factor_ge_half ht
  then rehash_with insert fuel (wrap32 (2 * length ht)) ht
  else Some ht.

Fixpoint insert (fuel : nat) (ht : HashTable) (key : Z) : option HashTable :=
  match fuel with
  | O => None
  | S fuel' =>
      ht1 ← grow_with (insert fuel') fuel' ht;
      r ← insert_loop fuel ht1 key 0;
      Some (match r with
            | None => ht1
            | Some index => place ht1 index key
            end)
  end.

Definition rehash (fuel : nat) (new_length : Z) (ht : HashTable) :
    option HashTable :=
  rehash_with (insert fuel) fuel new_length ht.

Definition new (fuel : nat) (prh : P) : option HashTable :=
  pr ← UpdateHashSize fuel MIN_LENGTH prh;
  Some (mkHashTable MIN_LENGTH 0 pr (new_hash_table MIN_LENGTH)).

Definition find (fuel : nat) (ht : HashTable) (key : Z) : option Z :=
  index ← find_index fuel ht key;
  Some (if index <? length ht then slot (hashTable ht) index
        else INVALID_KEY).

Definition remove (fuel : nat) (ht : HashTable) (key : Z) : option HashTable :=
  index ← find_index fuel ht key;
  if length ht <=? index then Some ht
  else
    let ht' := mkHashTable (length ht) (wrap32 (num_entries ht - 1))
                 (prHashFunc ht)
                 (<[Z.to_nat index := DEL_MARKER]> (hashTable ht)) in
    if (MIN_LENGTH <=? length ht' / 4) && load_factor_le_eighth ht'
    then rehash fuel (length ht' / 4) ht'
    else Some ht'.

(** A sequence of calls on one table. *)
Inductive op := Insert (key : Z) | Remove (key : Z).

Definition step (fuel : nat) (ht : HashTable) (o : op) : option HashTable :=
  match o with
  | Insert key => insert fuel ht key
  | Remove key => remove fuel ht key
  end.

Fixpoint run (fuel : nat) (ops : list op) (ht : HashTable) : option HashTable :=
  match ops with
  | [] => Some ht
  | o :: ops' => ht' ← step fuel ht o; run fuel ops' ht'
  end.

End WithProbing.
Arguments HashTable P : clear implicits.
End OpenAddressing.

(** ** Vocabulary of the statements *)

(** The primality test keeps [i * i] in 32 bits: it is exact below this
    bound. *)
Definition prime_bound : Z := 65531 * 65531.

(** [p] is the least prime strictly greater than [m]. *)
Definition least_prime_above (m p : Z) : Prop :=
  Z.prime p ∧ m < p ∧ ∀ q, m < q < p → ¬ Z.prime q.

(** The universal hash value in unbounded integer arithmetic,
    [((A * key + B) mod P) mod M]. *)
Definition universal_exact (h : UniversalHashFunction.t) (key : Z) : Z :=
  ((UniversalHashFunction.A h * key + UniversalHashFunction.B h)
     mod UniversalHashFunction.P h) mod UniversalHashFunction.M h.

(** The indices probed for [key] at the trials [0, ..., m - 1]. *)
Definition probe_sequence {P : Type} `{ProbingHashFunction P}
    (p : P) (key m : Z) : list Z :=
  (λ trial_no, probing_hash p key trial_no) <$> seqZ 0 m.

(** The driver's probing function of the scenarios: linear probing over
    division hashing, built for [N = 1000000] keys as [RUN_HASH_TEST]
    does. *)
Definition linear_division : LinearProbingHashFunction.t DivisionHashFunction.t :=
  LinearProbingHashFunction.mk 1000000 (DivisionHashFunction.new 1000000).

(** What the specification says of [insert] in an open-addressing
    table: the slot of the first trial, among the first [trials], whose
    state is EMPTY or TOMBSTONE. *)
Definition spec_vacant (entry : Z) : bool :=
  (entry =? OpenAddressing.FREE_MARKER) || (entry =? OpenAddressing.DEL_MARKER).

Fixpoint spec_first_vacant {P : Type} `{ProbingHashFunction P}
    (trials : nat) (ht : OpenAddressing.HashTable P) (key probe : Z) : option Z :=
  match trials with
  | O => None
  | S trials' =>
      let index := probing_hash (OpenAddressing.prHashFunc ht) key probe in
      if spec_vacant (OpenAddressing.slot (OpenAddressing.hashTable ht) index)
      then Some index
      else spec_first_vacant trials' ht key (probe + 1)
  end.

(** ** Tables of the scenarios *)

(** The scenario table: linear probing over division hashing. *)
Abbreviation LinearDivision :=
  (LinearProbingHashFunction.t DivisionHashFunction.t).

Section OpenScenarios.
Import OpenAddressing.

(** The table after [insert(5); insert(13); remove(5)]. *)
Definition tombstone_then_key : HashTable LinearDivision :=
  mkHashTable 8 1
    (LinearProbingHashFunction.mk 8 (DivisionHashFunction.mk 8))
    [FREE_MARKER; FREE_MARKER; FREE_MARKER; FREE_MARKER; FREE_MARKER;
     DEL_MARKER; 13; FREE_MARKER].

(** The table after [insert(i); remove(i)] for [i = 0, ..., 7]: every
    slot is a tombstone and the table is counted empty. *)
Definition all_tombstones : HashTable LinearDivision :=
  mkHashTable 8 0
    (LinearProbingHashFunction.mk 8 (DivisionHashFunction.mk 8))
    (replicate 8 DEL_MARKER).

Definition fill_with_tombstones : list op :=
  [Insert 0; Remove 0; Insert 1; Remove 1; Insert 2; Remove 2;
   Insert 3; Remove 3; Insert 4; Remove 4; Insert 5; Remove 5;
   Insert 6; Remove 6; Insert 7; Remove 7].

(** The scenario of the specification: four keys that collide at slot
    5, then their removal. *)
Definition colliding_keys : list op :=
  [Insert 5; Insert 13; Insert 21; Insert 29;
   Remove 5; Remove 13; Remove 21; Remove 29].

End OpenScenarios.

(** The chaining table after [insert] of 0, ..., 7 with division
    hashing. *)
Definition eight_keys : Chaining.HashTable DivisionHashFunction.t :=
  Chaining.mkHashTable 8 8 (DivisionHashFunction.mk 8)
    [[0]; [1]; [2]; [3]; [4]; [5]; [6]; [7]].

(** ** Vocabulary of the further statements *)

Section OpenVocabulary.
Import OpenAddressing.
Context {P : Type} `{ProbingHashFunction P}.

(** The array has [length] slots, a nonzero 32-bit number. *)
Definition well_sized (ht : HashTable P) : Prop :=
  0 < length ht < 2 ^ 32
  ∧ List.length (hashTable ht) = Z.to_nat (length ht).

(** Every probed index is a slot of the array, and the probe sequence
    of a key repeats with period [length]. *)
Definition cyclic_probing (ht : HashTable P) : Prop :=
  ∀ key t,
    0 ≤ probing_hash (prHashFunc ht) key t < length ht
    ∧ probing_hash (prHashFunc ht) key (t mod length ht)
      = probing_hash (prHashFunc ht) key t.

(** Every slot is probed at one of the first [length] trials. *)
Definition covering_probing (ht : HashTable P) : Prop :=
  ∀ key j, 0 ≤ j < length ht →
    ∃ t, 0 ≤ t < length ht ∧ probing_hash (prHashFunc ht) key t = j.

(** [key] is held by at most one slot. *)
Definition in_one_slot (ht : HashTable P) (key : Z) : Prop :=
  ∀ i j, hashTable ht !! i = Some key → hashTable ht !! j = Some key → i = j.

(** The shrink test of [remove], made after the decrement. *)
Definition shrinks_after_remove (ht : HashTable P) : bool :=
  (MIN_LENGTH <=? length ht / 4)
  && (if length ht =? 0 then false
      else 8 * wrap32 (num_entries ht - 1) <=? length ht).

(** The table after the first two statements of [remove] on a found
    index: the slot holds the deleted marker, the count is one less. *)
Definition marked_deleted (ht : HashTable P) (index : Z) : HashTable P :=
  mkHashTable (length ht) (wrap32 (num_entries ht - 1)) (prHashFunc ht)
    (<[Z.to_nat index := DEL_MARKER]> (hashTable ht)).

End OpenVocabulary.

Section MoreOpenScenarios.
Import OpenAddressing.

(** The table after [insert(5); insert(13)]. *)
Definition two_collided : HashTable LinearDivision :=
  mkHashTable 8 2
    (LinearProbingHashFunction.mk 8 (DivisionHashFunction.mk 8))
    [FREE_MARKER; FREE_MARKER; FREE_MARKER; FREE_MARKER; FREE_MARKER;
     5; 13; FREE_MARKER].

(** Seven tombstones and one free slot, the table counted empty: the
    state before the last [insert] of [fill_with_tombstones]. *)
Definition all_but_one_tombstone : HashTable LinearDivision :=
  mkHashTable 8 0
    (LinearProbingHashFunction.mk 8 (DivisionHashFunction.mk 8))
    (replicate 7 DEL_MARKER ++ [FREE_MARKER]).

(** [tombstone_then_key] rebuilt at the same length. *)
Definition rebuilt_one_key : HashTable LinearDivision :=
  mkHashTable 8 1
    (LinearProbingHashFunction.mk 8 (DivisionHashFunction.mk 8))
    [FREE_MARKER; FREE_MARKER; FREE_MARKER; FREE_MARKER; FREE_MARKER;
     13; FREE_MARKER; FREE_MARKER].

End MoreOpenScenarios.

(** Fuel that lets the prime search of the universal hash function
    succeed at every table size. *)
Definition prime_search_fuel : nat := Z.to_nat 8000.

Section ChainingVocabulary.
Import Chaining.
Context {H : Type} `{HashFunction H}.

(** The state of a chaining table between two calls: the length is a
    power of two from [MIN_LENGTH] up, the array has [length] chains,
    the hash function maps into the array, every key lies in the chain
    its hash value selects, and [num_entries] counts the keys and does
    not exceed [length]. *)
Definition chains_well_formed (ht : HashTable H) : Prop :=
  (∃ k, 3 ≤ k ≤ 31 ∧ length ht = 2 ^ k)
  ∧ List.length (hashTable ht) = Z.to_nat (length ht)
  ∧ (∀ key, 0 ≤ hash (hashFunc ht) key < length ht)
  ∧ (∀ i chain key, hashTable ht !! i = Some chain → key ∈ chain →
       Z.to_nat (hash (hashFunc ht) key) = i)
  ∧ num_entries ht = Z.of_nat (List.length (keys ht))
  ∧ num_entries ht ≤ length ht.

(** With this fuel the hash function can be resized to every table
    size, and then maps into the table. *)
Definition resizes_well (fuel : nat) : Prop :=
  ∀ k (h : H), 3 ≤ k ≤ 31 →
    ∃ h', UpdateHashSize fuel (2 ^ k) h = Some h'
          ∧ ∀ key, 0 ≤ hash h' key < 2 ^ k.

(** With this fuel the hash function can be constructed for
    [MIN_LENGTH], and then maps into the table. *)
Definition constructs_well (fuel : nat) : Prop :=
  ∃ h : H, new_hash fuel MIN_LENGTH = Some h
           ∧ ∀ key, 0 ≤ hash h key < MIN_LENGTH.

(** The grow test of [insert] and the shrink test of [remove] (made
    after the decrement). *)
Definition grows_on_insert (ht : HashTable H) : bool :=
  length ht =? num_entries ht.

Definition shrinks_on_remove (ht : HashTable H) : bool :=
  (MIN_LENGTH <? length ht) && (wrap32 (num_entries ht - 1) <=? length ht / 4).

(** Above the minimum length the table is more than a quarter full. *)
Definition compact (ht : HashTable H) : Prop :=
  length ht = MIN_LENGTH ∨ length ht < 4 * num_entries ht.

End ChainingVocabulary.

Section OpenInvariantVocabulary.
Import OpenAddressing.
Context {P : Type} `{ProbingHashFunction P}.

(** Every occupied slot is reached by the probe sequence of its key
    before that sequence meets a free slot or another slot holding the
    key: [find] gets to it. *)
Definition chains_intact (ht : HashTable P) : Prop :=
  ∀ j key, hashTable ht !! j = Some key → occupied key →
    ∃ t, 0 ≤ t < length ht
         ∧ Z.to_nat (probing_hash (prHashFunc ht) key t) = j
         ∧ ∀ t', 0 ≤ t' < t →
             slot (hashTable ht) (probing_hash (prHashFunc ht) key t') ≠ key
             ∧ slot (hashTable ht) (probing_hash (prHashFunc ht) key t')
               ≠ FREE_MARKER.

(** The state of an open-addressing table between two calls: the
    length is a power of two from [MIN_LENGTH] up, the array has
    [length] slots, the probing function runs cyclically through all
    of them, and the probe chains are intact. *)
Definition slots_well_formed (ht : HashTable P) : Prop :=
  (∃ k, 3 ≤ k ≤ 31 ∧ length ht = 2 ^ k)
  ∧ List.length (hashTable ht) = Z.to_nat (length ht)
  ∧ cyclic_probing ht ∧ covering_probing ht
  ∧ chains_intact ht.

(** The slots in use: every slot that is not free. *)
Definition slots_in_use (tbl : list Z) : nat :=
  List.length (filter (λ entry, entry ≠ FREE_MARKER) tbl).

(** [num_entries] counts every slot in use: the table carries no
    tombstone that the count has forgotten. *)
Definition all_counted (ht : HashTable P) : Prop :=
  num_entries ht = Z.of_nat (slots_in_use (hashTable ht)).

(** From this fuel on, the probing function can be resized to every
    table size, and then runs cyclically through all the slots. *)
Definition probing_resizes_well (fuel0 : nat) : Prop :=
  ∀ (fuel : nat) k (p : P), (fuel0 ≤ fuel)%nat → 3 ≤ k ≤ 31 →
    ∃ p', UpdateHashSize fuel (2 ^ k) p = Some p'
          ∧ ∀ key,
              (∀ t, 0 ≤ probing_hash p' key t < 2 ^ k
                    ∧ probing_hash p' key (t mod 2 ^ k) = probing_hash p' key t)
              ∧ (∀ j, 0 ≤ j < 2 ^ k →
                   ∃ t, 0 ≤ t < 2 ^ k ∧ probing_hash p' key t = j).

(** [num_entries] counts the occupied slots: every slot that holds
    neither marker. *)
Definition entries_counted (ht : HashTable P) : Prop :=
  num_entries ht
  = Z.of_nat (List.length (filter occupied (hashTable ht))).

(** [run_test]: insert the [N] numbers, look every one up, remove all
    but the last four, look the removed ones up.  The result holds
    what the two rounds of [find] returned, in order, and the table
    left; the source prints an error line for every number of the
    first round that [find] did not return and for every number of
    the second round that it did.  With [N < 4] the source reads
    beyond [nums]. *)
Definition run_test (fuel : nat) (nums : list Z) (prh : P) :
    option (list Z * list Z * HashTable P) :=
  let N := Z.of_nat (List.length nums) in
  let removed := take (Z.to_nat (wrap32 (N - 4))) nums in
  ht0 ← new fuel prh;
  ht1 ← run fuel (Insert <$> nums) ht0;
  found ← mapM (find fuel ht1) nums;
  ht2 ← run fuel (Remove <$> removed) ht1;
  gone ← mapM (find fuel ht2) removed;
  Some (found, gone, ht2).

End OpenInvariantVocabulary.

Section ChainingRunTest.
Import Chaining.
Context {H : Type} `{HashFunction H}.

(** [remove] every key of [keys] in turn. *)
Fixpoint remove_all (fuel : nat) (keys : list Z) (ht : HashTable H) :
    option (HashTable H) :=
  match keys with
  | [] => Some ht
  | key :: keys' => ht' ← remove fuel ht key; remove_all fuel keys' ht'
  end.

(** [run_test] of the chaining table: insert the [N] numbers, look
    every one up, remove all but the last two, look the removed ones
    up.  The result holds what the two rounds of [find] returned, in
    order, and the table left; the source prints an error line for
    every number of the first round that [find] did not return and for
    every number of the second round for which it did not return
    INVALID_KEY.  With [N < 2] the source reads beyond [nums]. *)
Definition chain_run_test (fuel : nat) (nums : list Z) :
    option (list Z * list Z * HashTable H) :=
  let N := Z.of_nat (List.length nums) in
  let removed := take (Z.to_nat (wrap32 (N - 2))) nums in
  ht0 ← new fuel;
  ht1 ← insert_all (insert fuel) nums ht0;
  let found := find ht1 <$> nums in
  ht2 ← remove_all fuel removed ht1;
  let gone := find ht2 <$> removed in
  Some (found, gone, ht2).

End ChainingRunTest.

(** A chaining table that holds the key 5 twice, after [insert(5)]
    twice with division hashing. *)
Definition five_twice : Chaining.HashTable DivisionHashFunction.t :=
  Chaining.mkHashTable 8 2 (DivisionHashFunction.mk 8)
    [[]; []; []; []; []; [5; 5]; []; []].

(** * Properties *)

(** ** 32-bit arithmetic *)

Lemma wrap32_range x : 0 ≤ wrap32 x < 2 ^ 32.
Proof. unfold wrap32. apply Z.mod_pos_bound. lia. Qed.

Lemma wrap32_small x : 0 ≤ x < 2 ^ 32 → wrap32 x = x.
Proof. intros ?. unfold wrap32. by apply Z.mod_small. Qed.

Lemma pow2_divide_word k : 0 ≤ k ≤ 32 → (2 ^ k | 2 ^ 32).
Proof.
  intros ?. exists (2 ^ (32 - k)). rewrite <- Z.pow_add_r by lia.
  f_equal. lia.
Qed.

Lemma wrap32_mod_pow2 x k : 0 ≤ k ≤ 32 → wrap32 x mod 2 ^ k = x mod 2 ^ k.
Proof.
  intros ?. unfold wrap32. apply Z.mod_mod_divide.
  by apply pow2_divide_word.
Qed.

Lemma wrap32_add_mod_pow2 a b k :
  0 ≤ k ≤ 32 → wrap32 (a + wrap32 b) mod 2 ^ k = (a + b) mod 2 ^ k.
Proof.
  intros ?. rewrite wrap32_mod_pow2 by done.
  rewrite Z.add_mod by lia. rewrite (wrap32_mod_pow2 b) by done.
  rewrite <- Z.add_mod by lia. done.
Qed.

Lemma wrap32_add_wrap a b : wrap32 (wrap32 a + b) = wrap32 (a + b).
Proof. unfold wrap32. by rewrite Z.add_mod_idemp_l. Qed.

(** ** Range of the hash functions *)

Lemma division_range (h : DivisionHashFunction.t) key :
  0 < DivisionHashFunction.M h →
  0 ≤ DivisionHashFunction.call h key < DivisionHashFunction.M h.
Proof. intros ?. unfold DivisionHashFunction.call. by apply Z.mod_pos_bound. Qed.

Lemma bit_width_log2 m r :
  MultiplicationHashFunction.bit_width m r = r + Z.log2 (Zpos m).
Proof.
  revert r. induction m as [m IH|m IH|]; intros r; simpl MultiplicationHashFunction.bit_width.
  - rewrite IH. change (Z.pos m~1) with (2 * Z.pos m + 1).
    rewrite Z.log2_succ_double by lia. lia.
  - rewrite IH. change (Z.pos m~0) with (2 * Z.pos m).
    rewrite Z.log2_double by lia. lia.
  - simpl. lia.
Qed.

Lemma multiplication_R_pow2 k r :
  0 ≤ k →
  MultiplicationHashFunction.R
    (MultiplicationHashFunction.OnHashSizeChange
       (MultiplicationHashFunction.mk (2 ^ k) r)) = k.
Proof.
  intros ?. unfold MultiplicationHashFunction.OnHashSizeChange. simpl.
  assert (0 < 2 ^ k) by (apply Z.pow_pos_nonneg; lia).
  destruct (2 ^ k) as [|m|m] eqn:E; try lia.
  rewrite bit_width_log2, <- E, Z.log2_pow2 by lia. lia.
Qed.

Lemma multiplication_call_range (h : MultiplicationHashFunction.t) key :
  0 ≤ MultiplicationHashFunction.R h ≤ 32 →
  0 ≤ MultiplicationHashFunction.call h key < 2 ^ MultiplicationHashFunction.R h.
Proof.
  intros ?. unfold MultiplicationHashFunction.call, MultiplicationHashFunction.W.
  pose proof (wrap32_range (MultiplicationHashFunction.A * key)) as Hw.
  rewrite Z.shiftr_div_pow2 by lia. split.
  - apply Z.div_pos; [lia|]. apply Z.pow_pos_nonneg; lia.
  - apply Z.div_lt_upper_bound; [apply Z.pow_pos_nonneg; lia|].
    rewrite <- Z.pow_add_r by lia.
    replace (32 - MultiplicationHashFunction.R h + MultiplicationHashFunction.R h)
      with 32 by lia. lia.
Qed.

Lemma multiplication_range k r key :
  0 ≤ k ≤ 32 →
  0 ≤ MultiplicationHashFunction.call
        (MultiplicationHashFunction.OnHashSizeChange
           (MultiplicationHashFunction.mk (2 ^ k) r)) key < 2 ^ k.
Proof.
  intros ?.
  pose proof (multiplication_call_range
    (MultiplicationHashFunction.OnHashSizeChange
       (MultiplicationHashFunction.mk (2 ^ k) r)) key) as Hr.
  rewrite multiplication_R_pow2 in Hr by lia. apply Hr. lia.
Qed.

Lemma universal_range (h : UniversalHashFunction.t) key :
  0 < UniversalHashFunction.M h →
  0 ≤ UniversalHashFunction.call h key < UniversalHashFunction.M h.
Proof. intros ?. unfold UniversalHashFunction.call. by apply Z.mod_pos_bound. Qed.

(** ** The primality test of the universal hash function *)

Section UniversalFacts.
Import UniversalHashFunction.

Lemma mod_divide_iff n d : 0 < d → n mod d = 0 ↔ (d | n).
Proof. intros ?. apply Z.mod_divide. lia. Qed.

Lemma divide_trans_mod n d c :
  0 < c → 0 < d → d mod c = 0 → (d | n) → n mod c = 0.
Proof.
  intros ?? Hd Hn. apply mod_divide_iff; [done|].
  apply mod_divide_iff in Hd; [|done]. by etrans.
Qed.

Lemma is_prime_loop_correct fuel : ∀ n i,
  5 ≤ i → i mod 6 = 5 → n mod 2 ≠ 0 → n mod 3 ≠ 0 →
  1 < n < prime_bound →
  (∀ d, 1 < d < i → ¬ (d | n)) →
  n < (i + 6 * Z.of_nat fuel) * (i + 6 * Z.of_nat fuel) →
  ∃ b, is_prime_loop fuel n i (i * i) (12 * i + 36) = Some b
       ∧ (b = true ↔ Z.prime n).
Proof.
  unfold prime_bound.
  induction fuel as [|fuel IH]; intros n i Hi Hi6 Hn2 Hn3 Hn Hsmall Hfuel.
  - cbn [is_prime_loop]. destruct (Z.leb_spec (i * i) n) as [Hle|Hgt]; [lia|].
    exists true. split; [done|]. split; [intros _|done]. split; [lia|].
    intros d Hd [q Hq].
    destruct (Z_lt_le_dec d i) as [?|?]; [apply (Hsmall d); [lia|by exists q]|].
    apply (Hsmall q); [nia|]. exists d. lia.
  - cbn [is_prime_loop]. destruct (Z.leb_spec (i * i) n) as [Hle|Hgt].
    + assert (i < 65531) by nia.
      assert (i ≤ 65525).
      { pose proof (Z.div_mod i 6 ltac:(lia)). lia. }
      rewrite (wrap32_small (i + 2)) by lia.
      destruct (Z.eqb_spec (n mod i) 0) as [Hdi|Hdi]; simpl.
      { exists false. split; [done|]. split; [done|]. intros [_ Hp]; exfalso.
        apply (Hp i); [nia|]. apply mod_divide_iff; [lia|done]. }
      destruct (Z.eqb_spec (n mod (i + 2)) 0) as [Hdi2|Hdi2]; simpl.
      { exists false. split; [done|]. split; [done|]. intros [_ Hp]; exfalso.
        apply (Hp (i + 2)); [nia|]. apply mod_divide_iff; [lia|done]. }
      rewrite (wrap32_small (i + 6)) by lia.
      rewrite (wrap32_small (i * i + (12 * i + 36))) by nia.
      rewrite (wrap32_small (12 * i + 36 + 72)) by lia.
      replace (i * i + (12 * i + 36)) with ((i + 6) * (i + 6)) by lia.
      replace (12 * i + 36 + 72) with (12 * (i + 6) + 36) by lia.
      apply IH; try done; try lia.
      * rewrite <- Z.add_mod_idemp_l by lia. by rewrite Hi6.
      * intros d Hd Hdn.
        destruct (Z_lt_le_dec d i) as [?|?]; [apply (Hsmall d); [lia|done]|].
        pose proof (Z.div_mod i 6 ltac:(lia)) as Hi'. rewrite Hi6 in Hi'.
        assert (d = i ∨ d = i + 1 ∨ d = i + 2 ∨ d = i + 3 ∨ d = i + 4
                ∨ d = i + 5) as Hcase by lia.
        destruct Hcase as [Hc|[Hc|[Hc|[Hc|[Hc|Hc]]]]]; subst d.
        -- apply Hdi. by apply mod_divide_iff; [lia|].
        -- apply Hn2. apply (divide_trans_mod n (i + 1) 2); try lia; [|done].
           rewrite Hi'. replace (6 * (i / 6) + 5 + 1) with ((3 * (i / 6) + 3) * 2) by lia.
           apply Z_mod_mult.
        -- apply Hdi2. by apply mod_divide_iff; [lia|].
        -- apply Hn2. apply (divide_trans_mod n (i + 3) 2); try lia; [|done].
           rewrite Hi'. replace (6 * (i / 6) + 5 + 3) with ((3 * (i / 6) + 4) * 2) by lia.
           apply Z_mod_mult.
        -- apply Hn3. apply (divide_trans_mod n (i + 4) 3); try lia; [|done].
           rewrite Hi'. replace (6 * (i / 6) + 5 + 4) with ((2 * (i / 6) + 3) * 3) by lia.
           apply Z_mod_mult.
        -- apply Hn2. apply (divide_trans_mod n (i + 5) 2); try lia; [|done].
           rewrite Hi'. replace (6 * (i / 6) + 5 + 5) with ((3 * (i / 6) + 5) * 2) by lia.
           apply Z_mod_mult.
    + exists true. split; [done|]. split; [intros _|done]. split; [lia|].
      intros d Hd [q Hq].
      destruct (Z_lt_le_dec d i) as [?|?]; [apply (Hsmall d); [lia|by exists q]|].
      apply (Hsmall q); [nia|]. exists d. lia.
Qed.

Lemma is_prime_correct fuel n :
  4 ≤ n < prime_bound →
  n < (5 + 6 * Z.of_nat fuel) * (5 + 6 * Z.of_nat fuel) →
  ∃ b, is_prime fuel n = Some b ∧ (b = true ↔ Z.prime n).
Proof.
  intros Hn Hfuel. unfold is_prime.
  destruct (Z.eqb_spec (n mod 2) 0) as [H2|H2]; simpl.
  { exists false. split; [done|]. split; [done|]. intros [_ Hp]; exfalso.
    apply (Hp 2); [lia|]. by apply mod_divide_iff. }
  destruct (Z.eqb_spec (n mod 3) 0) as [H3|H3]; simpl.
  { exists false. split; [done|]. split; [done|]. intros [_ Hp]; exfalso.
    apply (Hp 3); [|by apply mod_divide_iff].
    assert (n ≠ 4) by (intros ->; done). lia. }
  apply (is_prime_loop_correct fuel n 5); try done; try lia.
  intros d Hd Hdn.
  assert (d = 2 ∨ d = 3 ∨ d = 4) as [Hc|[Hc|Hc]] by lia; subst d.
  - apply H2. by apply mod_divide_iff.
  - apply H3. by apply mod_divide_iff.
  - apply H2. apply (divide_trans_mod n 4 2); done.
Qed.

Lemma least_prime_loop_correct pfuel p fuel : ∀ n,
  Z.prime p → p < prime_bound →
  p < (5 + 6 * Z.of_nat pfuel) * (5 + 6 * Z.of_nat pfuel) →
  3 ≤ n < p → (∀ q, n < q < p → ¬ Z.prime q) →
  p - n ≤ Z.of_nat fuel →
  least_prime_loop pfuel fuel n = Some p.
Proof.
  unfold prime_bound.
  induction fuel as [|fuel IH]; intros n Hp Hb Hpf Hn Hleast Hfuel; [lia|].
  cbn [least_prime_loop]. rewrite (wrap32_small (n + 1)) by lia.
  destruct (is_prime_correct pfuel (n + 1)) as (b & -> & Hb');
    [unfold prime_bound; lia|lia|].
  destruct (Z.eq_dec (n + 1) p) as [<-|Hne].
  - destruct b; [done|]. destruct Hb' as [_ Hb']. by specialize (Hb' Hp).
  - destruct b.
    + exfalso. apply (Hleast (n + 1)); [lia|]. by apply Hb'.
    + apply IH; try done; try lia. intros q ?. apply Hleast. lia.
Qed.

Lemma least_prime_larger_than_correct fuel n p :
  3 ≤ n → Z.prime p → n < p < prime_bound →
  (∀ q, n < q < p → ¬ Z.prime q) →
  p ≤ Z.of_nat fuel →
  least_prime_larger_than fuel n = Some p.
Proof.
  intros. unfold least_prime_larger_than.
  apply least_prime_loop_correct; try done; try lia.
Qed.

Lemma least_prime_loop_positive pfuel fuel : ∀ n p,
  least_prime_loop pfuel fuel n = Some p → 0 < p.
Proof.
  induction fuel as [|fuel IH]; intros n p; cbn [least_prime_loop]; [done|].
  destruct (is_prime pfuel (wrap32 (n + 1))) as [[]|] eqn:E; [|by eauto|done].
  intros [= <-]. pose proof (wrap32_range (n + 1)).
  destruct (Z.eq_dec (wrap32 (n + 1)) 0) as [E0|]; [|lia].
  rewrite E0 in E. done.
Qed.

(** A size change of the universal hash function stores the size and a
    positive modulus. *)
Lemma universal_update_fields rand fuel m h h' :
  UniversalHashFunction.UpdateHashSize rand fuel m h = Some h' →
  M h' = m ∧ 0 < P h'.
Proof.
  unfold UniversalHashFunction.UpdateHashSize, OnHashSizeChange. simpl.
  destruct (least_prime_larger_than fuel m) as [p|] eqn:E; [|done].
  simpl. intros [= <-]. simpl. split; [done|].
  by eapply least_prime_loop_positive.
Qed.

(** Below 3 the search does not return the least prime: the test
    rejects 2 and 3 and accepts 1. *)
Remark least_prime_small_sizes :
  least_prime_larger_than 5 0 = Some 1
  ∧ least_prime_larger_than 5 1 = Some 5
  ∧ least_prime_larger_than 5 2 = Some 5.
Proof. repeat split; reflexivity. Qed.

Lemma prime_11 : least_prime_above 8 11.
Proof.
  split; [split; [lia|]|split; [lia|]].
  - intros n ? [q ?].
    assert (n = 2 ∨ n = 3 ∨ n = 4 ∨ n = 5 ∨ n = 6 ∨ n = 7 ∨ n = 8 ∨ n = 9
            ∨ n = 10) as Hn by lia.
    repeat (destruct Hn as [Hn|Hn]; [subst n; lia|]). subst n; lia.
  - intros q ? [_ Hp].
    assert (q = 9 ∨ q = 10) as [->| ->] by lia.
    + apply (Hp 3); [lia|]. by exists 3.
    + apply (Hp 2); [lia|]. by exists 5.
Qed.

(** C8 (as the code computes it).  After a size change to [m ≥ 3] whose
    least larger prime [p] lies below [prime_bound], the universal hash
    function holds [P = p] and drawn [A, B] in [[0, p)], and for every
    key it returns [(((A * key + B) mod 2^32) mod P) mod M]: the affine
    form is reduced modulo [2^32] before the two remainders. *)
Theorem universal_hash_wraps (rand : nat → Z) (fuel : nat) (m p key : Z)
    (h : UniversalHashFunction.t) :
  3 ≤ m → least_prime_above m p → p < prime_bound → p ≤ Z.of_nat fuel →
  ∃ h', UniversalHashFunction.UpdateHashSize rand fuel m h = Some h'
        ∧ M h' = m ∧ P h' = p ∧ 0 ≤ A h' < p ∧ 0 ≤ B h' < p
        ∧ UniversalHashFunction.call h' key
          = (((A h' * key + B h') mod 2 ^ 32) mod p) mod m.
Proof.
  intros Hm (Hp & Hmp & Hleast) Hb Hfuel.
  unfold UniversalHashFunction.UpdateHashSize, OnHashSizeChange. simpl.
  rewrite (least_prime_larger_than_correct fuel m p) by (done || lia). simpl.
  eexists. split; [done|]. simpl.
  assert (0 < p) by (destruct Hp; lia).
  repeat split; try (apply Z.mod_pos_bound; lia).
  unfold UniversalHashFunction.call. simpl. by rewrite wrap32_add_wrap.
Qed.

Lemma universal_hash_wraps_witness :
  ∃ h', UniversalHashFunction.UpdateHashSize (λ _, 3) 11 8 (mk 0 0 0 0 0) = Some h'
        ∧ M h' = 8 ∧ P h' = 11 ∧ 0 ≤ A h' < 11 ∧ 0 ≤ B h' < 11
        ∧ UniversalHashFunction.call h' (2 ^ 31)
          = (((A h' * 2 ^ 31 + B h') mod 2 ^ 32) mod 11) mod 8.
Proof.
  apply (universal_hash_wraps (λ _, 3) 11 8 11 (2 ^ 31) (mk 0 0 0 0 0)).
  - lia.
  - exact prime_11.
  - reflexivity.
  - simpl. lia.
Defined.

(** C8 (as stated) fails: with [M = 8], [P = 11], [A = B = 3] and the
    key [2^31] the product overflows 32 bits; the code returns 5, the
    exact formula gives 1. *)
Lemma universal_hash_not_exact :
  ∃ h, UniversalHashFunction.new (λ _, 3) 11 8 = Some h
       ∧ UniversalHashFunction.call h (2 ^ 31) = 5
       ∧ universal_exact h (2 ^ 31) = 1
       ∧ UniversalHashFunction.call h (2 ^ 31) ≠ universal_exact h (2 ^ 31).
Proof. eexists. repeat split; (reflexivity || discriminate). Qed.

End UniversalFacts.

(** C9.  For a table size [M = 2^k] with [3 ≤ k ≤ 31] and every key,
    the three hash functions return an index in [[0, M)]: division
    hashing with that [M], multiplication hashing once constructed or
    resized for [M] (which sets [R = k]), and universal hashing with
    that [M] and a positive modulus [P]. *)
Theorem hash_functions_in_range (k key : Z) :
  3 ≤ k ≤ 31 →
  (∀ h : DivisionHashFunction.t,
     DivisionHashFunction.M h = 2 ^ k → 0 ≤ hash h key < 2 ^ k)
  ∧ 0 ≤ hash (MultiplicationHashFunction.new (2 ^ k)) key < 2 ^ k
  ∧ (∀ h : MultiplicationHashFunction.t,
       0 ≤ hash (MultiplicationHashFunction.UpdateHashSize (2 ^ k) h) key < 2 ^ k)
  ∧ (∀ h : UniversalHashFunction.t,
       UniversalHashFunction.M h = 2 ^ k → 0 < UniversalHashFunction.P h →
       0 ≤ UniversalHashFunction.call h key < 2 ^ k).
Proof.
  intros Hk. assert (0 < 2 ^ k) by (apply Z.pow_pos_nonneg; lia).
  split; [|split; [|split]].
  - intros h Hh. rewrite <- Hh. apply division_range. lia.
  - apply (multiplication_range k 0 key). lia.
  - intros h. apply (multiplication_range k (MultiplicationHashFunction.R h) key). lia.
  - intros h Hh _. rewrite <- Hh. apply universal_range. lia.
Qed.

Lemma hash_functions_in_range_witness :
  0 ≤ hash (DivisionHashFunction.mk 8) 12345 < 2 ^ 3
  ∧ 0 ≤ hash (MultiplicationHashFunction.new (2 ^ 3)) 12345 < 2 ^ 3
  ∧ 0 ≤ UniversalHashFunction.call (UniversalHashFunction.mk 8 11 3 3 2) 12345
    < 2 ^ 3.
Proof.
  destruct (hash_functions_in_range 3 12345) as (Hd & Hm & _ & Hu); [lia|].
  split; [apply Hd; reflexivity|]. split; [exact Hm|].
  apply Hu; reflexivity.
Defined.

(** ** The probe sequences are permutations *)

Lemma odd_coprime_pow2 k s : 0 ≤ k → Z.odd s = true → Z.gcd (2 ^ k) s = 1.
Proof.
  intros Hk Hs. apply Z.coprime_pow_l; [done|].
  apply Z.coprime_prime_l; [apply Z.prime_2|].
  intros [q Hq]. rewrite Hq, Z.mul_comm, Z.odd_mul in Hs. done.
Qed.

Lemma Oddify_odd val : Z.odd (DoubleHashFunction.Oddify val) = true.
Proof.
  unfold DoubleHashFunction.Oddify.
  rewrite <- Z.bit0_odd, Z.lor_spec. by rewrite orb_true_r.
Qed.

(** An affine map with an odd step is injective modulo a power of two. *)
Lemma affine_injective_pow2 k a s t1 t2 :
  0 ≤ k → Z.odd s = true →
  0 ≤ t1 < 2 ^ k → 0 ≤ t2 < 2 ^ k →
  (a + t1 * s) mod 2 ^ k = (a + t2 * s) mod 2 ^ k → t1 = t2.
Proof.
  intros Hk Hs Ht1 Ht2 Heq.
  assert (0 < 2 ^ k) as Hpos by (apply Z.pow_pos_nonneg; lia).
  assert ((2 ^ k | (t1 - t2) * s)) as Hdiv.
  { apply mod_divide_iff; [done|].
    replace ((t1 - t2) * s) with ((a + t1 * s) - (a + t2 * s)) by lia.
    rewrite Zminus_mod, Heq, Z.sub_diag. by apply Z.mod_0_l, Z.neq_sym, Z.lt_neq. }
  rewrite Z.mul_comm in Hdiv.
  apply Z.gauss in Hdiv; [|by apply odd_coprime_pow2].
  destruct Hdiv as [q Hq]. revert Ht1 Ht2 Hpos Hq. generalize (2 ^ k).
  intros m ????. destruct (Z.lt_trichotomy q 0) as [?|[->|?]]; [nia|lia|nia].
Qed.

(** A map of [[0, m)] into itself that is injective there lists
    [[0, m)] in some order. *)
Lemma injective_map_permutation (f : Z → Z) (m : Z) :
  (∀ t, 0 ≤ t < m → 0 ≤ f t < m) →
  (∀ t1 t2, 0 ≤ t1 < m → 0 ≤ t2 < m → f t1 = f t2 → t1 = t2) →
  f <$> seqZ 0 m ≡ₚ seqZ 0 m.
Proof.
  intros Hrange Hinj. apply submseteq_length_Permutation.
  - apply NoDup_submseteq.
    + apply NoDup_fmap_2_strong; [|apply NoDup_seqZ].
      intros t1 t2 Ht1%elem_of_seqZ Ht2%elem_of_seqZ. apply Hinj; lia.
    + intros x (t & -> & Ht%elem_of_seqZ)%list_elem_of_fmap.
      apply elem_of_seqZ. specialize (Hrange t). lia.
  - by rewrite length_fmap.
Qed.

Lemma linear_call_mod `{HashFunction H} (p : LinearProbingHashFunction.t H) k key t :
  0 ≤ k ≤ 32 → LinearProbingHashFunction.M p = 2 ^ k →
  LinearProbingHashFunction.call p key t
  = (hash (LinearProbingHashFunction.hFunc p) key + t * 1) mod 2 ^ k.
Proof.
  intros Hk HM. unfold LinearProbingHashFunction.call.
  rewrite HM, wrap32_mod_pow2 by done. f_equal. lia.
Qed.

Lemma double_call_mod `{HashFunction H1} `{HashFunction H2}
    (p : DoubleHashFunction.t H1 H2) k key t :
  0 ≤ k ≤ 32 → DoubleHashFunction.M p = 2 ^ k →
  DoubleHashFunction.call p key t
  = (hash (DoubleHashFunction.hFunc1 p) key
     + t * DoubleHashFunction.Oddify (hash (DoubleHashFunction.hFunc2 p) key))
    mod 2 ^ k.
Proof.
  intros Hk HM. unfold DoubleHashFunction.call.
  by rewrite HM, wrap32_add_mod_pow2.
Qed.

Lemma linear_call_range `{HashFunction H} (p : LinearProbingHashFunction.t H) key t :
  0 < LinearProbingHashFunction.M p →
  0 ≤ LinearProbingHashFunction.call p key t < LinearProbingHashFunction.M p.
Proof. intros ?. unfold LinearProbingHashFunction.call. by apply Z.mod_pos_bound. Qed.

Lemma double_call_range `{HashFunction H1} `{HashFunction H2}
    (p : DoubleHashFunction.t H1 H2) key t :
  0 < DoubleHashFunction.M p →
  0 ≤ DoubleHashFunction.call p key t < DoubleHashFunction.M p.
Proof. intros ?. unfold DoubleHashFunction.call. by apply Z.mod_pos_bound. Qed.

Lemma affine_permutation k a s :
  0 ≤ k → Z.odd s = true →
  (λ t, (a + t * s) mod 2 ^ k) <$> seqZ 0 (2 ^ k) ≡ₚ seqZ 0 (2 ^ k).
Proof.
  intros Hk Hs. assert (0 < 2 ^ k) by (apply Z.pow_pos_nonneg; lia).
  apply injective_map_permutation.
  - intros t _. by apply Z.mod_pos_bound.
  - intros t1 t2 ???. by eapply affine_injective_pow2.
Qed.

(** C4.  For a table size [M = 2^k] (a 32-bit value, so [k ≤ 31]) and
    every key, the indices that linear probing and double hashing
    produce at the trials [0, ..., M - 1] are a permutation of
    [0, ..., M - 1], whatever the underlying hash functions return. *)
Theorem probe_sequence_permutation (k key : Z) :
  0 ≤ k ≤ 31 →
  (∀ (H : Type) (HB : HashFunctionBase H) (HF : HashFunction H)
     (p : LinearProbingHashFunction.t H),
     LinearProbingHashFunction.M p = 2 ^ k →
     probe_sequence p key (2 ^ k) ≡ₚ seqZ 0 (2 ^ k))
  ∧ (∀ (H1 H2 : Type) (HB1 : HashFunctionBase H1) (HF1 : HashFunction H1)
       (HB2 : HashFunctionBase H2) (HF2 : HashFunction H2)
       (p : DoubleHashFunction.t H1 H2),
       DoubleHashFunction.M p = 2 ^ k →
       probe_sequence p key (2 ^ k) ≡ₚ seqZ 0 (2 ^ k)).
Proof.
  intros Hk. split.
  - intros H HB HF p HM. unfold probe_sequence.
    rewrite (list_fmap_ext _
      (λ t, (hash (LinearProbingHashFunction.hFunc p) key + t * 1) mod 2 ^ k)).
    + apply affine_permutation; [lia|done].
    + intros _ t _. apply linear_call_mod; [lia|done].
  - intros H1 H2 HB1 HF1 HB2 HF2 p HM. unfold probe_sequence.
    rewrite (list_fmap_ext _
      (λ t, (hash (DoubleHashFunction.hFunc1 p) key
             + t * DoubleHashFunction.Oddify (hash (DoubleHashFunction.hFunc2 p) key))
            mod 2 ^ k)).
    + apply affine_permutation; [lia|apply Oddify_odd].
    + intros _ t _. apply double_call_mod; [lia|done].
Qed.

Lemma probe_sequence_permutation_witness :
  probe_sequence (LinearProbingHashFunction.mk 8 (DivisionHashFunction.mk 8)) 29 (2 ^ 3)
    ≡ₚ seqZ 0 (2 ^ 3)
  ∧ probe_sequence
      (DoubleHashFunction.mk 8 (DivisionHashFunction.mk 8)
         (MultiplicationHashFunction.new 8)) 29 (2 ^ 3)
    ≡ₚ seqZ 0 (2 ^ 3).
Proof.
  destruct (probe_sequence_permutation 3 29) as [Hl Hd]; [lia|].
  split; [apply Hl|apply Hd]; reflexivity.
Defined.

(** ** Open addressing: the probing loops *)

Section OpenAddressingFacts.
Import OpenAddressing.
Context {P : Type} `{ProbingHashFunction P}.
Implicit Types ht : HashTable P.

(** The index probed for [key] at a trial. *)
Local Abbreviation index_at ht key t := (probing_hash (prHashFunc ht) key t).

(** The probing loop of [insert] stops at the first free slot when
    the key is not met before. *)
Lemma insert_loop_first_free ht key t fuel : ∀ probe,
  0 ≤ probe ≤ t → t < 2 ^ 32 →
  (∀ t', probe ≤ t' < t →
     slot (hashTable ht) (index_at ht key t') ≠ key
     ∧ slot (hashTable ht) (index_at ht key t') ≠ FREE_MARKER) →
  slot (hashTable ht) (index_at ht key t) = FREE_MARKER →
  key ≠ FREE_MARKER →
  t - probe < Z.of_nat fuel →
  insert_loop fuel ht key probe = Some (Some (index_at ht key t)).
Proof.
  induction fuel as [|fuel IH]; intros probe Hp Ht Hbefore Hfree Hkey Hfuel;
    [lia|].
  cbn [insert_loop].
  destruct (Z.eq_dec probe t) as [->|Hne].
  - rewrite Hfree. destruct (Z.eqb_spec FREE_MARKER key); [congruence|].
    by rewrite Z.eqb_refl.
  - destruct (Hbefore probe) as [Hk Hf]; [lia|].
    destruct (Z.eqb_spec (slot (hashTable ht) (index_at ht key probe)) key);
      [done|].
    destruct (Z.eqb_spec (slot (hashTable ht) (index_at ht key probe)) FREE_MARKER);
      [done|]. simpl.
    rewrite (wrap32_small (probe + 1)) by lia.
    apply IH; try done; try lia. intros t' ?. apply Hbefore. lia.
Qed.

(** The probing loop of [insert] never ends when no trial meets the
    key or a free slot. *)
Lemma insert_loop_diverges ht key :
  (∀ t, slot (hashTable ht) (index_at ht key t) ≠ key
        ∧ slot (hashTable ht) (index_at ht key t) ≠ FREE_MARKER) →
  ∀ fuel probe, insert_loop fuel ht key probe = None.
Proof.
  intros Hall. induction fuel as [|fuel IH]; intros probe; [done|].
  cbn [insert_loop]. destruct (Hall probe) as [Hk Hf].
  destruct (Z.eqb_spec (slot (hashTable ht) (index_at ht key probe)) key);
    [done|].
  destruct (Z.eqb_spec (slot (hashTable ht) (index_at ht key probe)) FREE_MARKER);
    [done|]. simpl. apply IH.
Qed.

(** With the not-found value as its key, the probing loop returns
    from inside: a free slot compares equal to the key. *)
Lemma insert_loop_free_marker ht fuel : ∀ probe r,
  insert_loop fuel ht FREE_MARKER probe = Some r → r = None.
Proof.
  induction fuel as [|fuel IH]; intros probe r; cbn [insert_loop]; [done|].
  destruct (Z.eqb_spec (slot (hashTable ht) (index_at ht FREE_MARKER probe))
              FREE_MARKER) as [_|Hne]; [congruence|].
  simpl. apply IH.
Qed.

(** [find_index] on a key that no slot holds. *)
Lemma find_index_loop_absent ht key fuel : ∀ probe,
  length ht < 2 ^ 32 →
  (∀ t, slot (hashTable ht) (index_at ht key t) ≠ key) →
  0 ≤ probe < length ht →
  length ht - probe ≤ Z.of_nat fuel →
  find_index_loop fuel ht key probe = Some (length ht).
Proof.
  induction fuel as [|fuel IH]; intros probe Hlen Habs Hp Hfuel; [lia|].
  cbn [find_index_loop].
  destruct (Z.eqb_spec (slot (hashTable ht) (index_at ht key probe)) key) as [E|_];
    [by apply Habs in E|].
  destruct (negb _); simpl; [|done].
  destruct (Z.ltb_spec (wrap32 (probe + 1)) (length ht)) as [Hlt|Hge]; [|done].
  rewrite wrap32_small in * by lia. apply IH; try done; lia.
Qed.

(** Every value in the array after [insert] is the free marker, the
    inserted key, or a value of the array before. *)
Lemma elem_of_insert_inv (l : list Z) i x v :
  v ∈ <[i:=x]> l → v = x ∨ v ∈ l.
Proof.
  intros (j & Hj)%list_elem_of_lookup_1.
  apply list_lookup_insert_Some in Hj as [(-> & -> & _)|[_ Hj]]; [by left|].
  right. by eapply list_elem_of_lookup_2.
Qed.

Lemma insert_all_values (ins : HashTable P → Z → option (HashTable P))
    (allowed : Z → Prop) :
  (∀ ht key ht', ins ht key = Some ht' → allowed key →
     (∀ v, v ∈ hashTable ht → allowed v) →
     ∀ v, v ∈ hashTable ht' → allowed v) →
  ∀ keys ht ht',
    insert_all ins keys ht = Some ht' →
    (∀ key, key ∈ keys → allowed key) →
    (∀ v, v ∈ hashTable ht → allowed v) →
    ∀ v, v ∈ hashTable ht' → allowed v.
Proof.
  intros Hins. induction keys as [|key keys IH]; intros ht ht' Hall Hkeys Hht;
    cbn [insert_all] in Hall.
  - by injection Hall as <-.
  - destruct (ins ht key) as [ht1|] eqn:E; [|done]. cbn in Hall.
    apply (IH ht1 ht' Hall).
    + intros k Hk. apply Hkeys. by right.
    + apply (Hins ht key ht1 E); [apply Hkeys; by left|done].
Qed.

Lemma insert_values fuel : ∀ ht key ht' (allowed : Z → Prop),
  insert fuel ht key = Some ht' →
  allowed FREE_MARKER → allowed key →
  (∀ v, v ∈ hashTable ht → allowed v) →
  ∀ v, v ∈ hashTable ht' → allowed v.
Proof.
  induction fuel as [|fuel IH]; intros ht key ht' allowed Hins Hfree Hkey Hht;
    [done|].
  cbn [insert] in Hins.
  destruct (grow_with (insert fuel) fuel ht) as [ht1|] eqn:Hgrow; [|done].
  cbn [mbind option_bind] in Hins.
  destruct (insert_loop (S fuel) ht1 key 0) as [r|]; [|done].
  cbn [mbind option_bind] in Hins. injection Hins as <-.
  assert (∀ v, v ∈ hashTable ht1 → allowed v) as Hht1.
  { unfold grow_with in Hgrow. destruct (load_factor_ge_half ht).
    - unfold rehash_with in Hgrow.
      destruct (UpdateHashSize fuel _ (prHashFunc ht)) as [pr|]; [|done].
      cbn [mbind option_bind] in Hgrow.
      eapply (insert_all_values (insert fuel) allowed); [|exact Hgrow| |].
      + intros ht0 k ht0' E Hk Hht0. by apply (IH ht0 k ht0' allowed).
      + intros k (_ & Hk%subseteq_take)%list_elem_of_filter. by apply Hht.
      + simpl. by intros v ->%elem_of_replicate_inv.
    - by injection Hgrow as <-. }
  destruct r as [index|]; [|done].
  intros v [->|Hv]%elem_of_insert_inv; [done|by apply Hht1].
Qed.

(** The grow step of [insert] brings in no key. *)
Lemma grow_absent fuel ht ht1 key :
  grow_with (insert fuel) fuel ht = Some ht1 →
  key ≠ FREE_MARKER → key ∉ hashTable ht → key ∉ hashTable ht1.
Proof.
  intros Hgrow Hkey Habs Hin. unfold grow_with in Hgrow.
  destruct (load_factor_ge_half ht); [|by injection Hgrow as <-].
  unfold rehash_with in Hgrow.
  destruct (UpdateHashSize fuel _ (prHashFunc ht)) as [pr|]; [|done].
  cbn [mbind option_bind] in Hgrow.
  eapply (insert_all_values (insert fuel) (λ v, v ≠ key)); [|exact Hgrow| | |exact Hin|done].
  - intros ht0 k ht0' E Hk Hht0.
    by apply (insert_values fuel ht0 k ht0' (λ v, v ≠ key)).
  - intros k (_ & Hk%subseteq_take)%list_elem_of_filter ->. done.
  - simpl. intros v ->%elem_of_replicate_inv. done.
Qed.

End OpenAddressingFacts.

Section OpenAddressingClaims.
Import OpenAddressing.

(** C2 (as the code does it).  On the table [ht1] that the grow step of
    [insert] leaves, for a key that no slot holds: if trial [t] is the
    first whose slot is free (FREE_MARKER), [insert] writes the key into
    that slot and increments [num_entries]; slots holding DEL_MARKER
    met before are passed over. *)
Theorem open_insert_first_free {P : Type} `{ProbingHashFunction P}
    (fuel : nat) (ht ht1 : HashTable P) (key t : Z) :
  let index := probing_hash (prHashFunc ht1) key t in
  grow_with (insert fuel) fuel ht = Some ht1 →
  key ≠ FREE_MARKER → key ∉ hashTable ht →
  0 ≤ t < 2 ^ 32 → t ≤ Z.of_nat fuel →
  hashTable ht1 !! Z.to_nat index = Some FREE_MARKER →
  (∀ t', 0 ≤ t' < t →
     slot (hashTable ht1) (probing_hash (prHashFunc ht1) key t') ≠ FREE_MARKER) →
  ∃ ht', insert (S fuel) ht key = Some ht'
         ∧ hashTable ht' = <[Z.to_nat index := key]> (hashTable ht1)
         ∧ hashTable ht' !! Z.to_nat index = Some key
         ∧ num_entries ht' = wrap32 (num_entries ht1 + 1)
         ∧ length ht' = length ht1.
Proof.
  intros index Hgrow Hkey Habs0 Ht Hfuel Hfree Hbefore.
  pose proof (grow_absent fuel ht ht1 key Hgrow Hkey Habs0) as Habs.
  assert (∀ i, slot (hashTable ht1) i ≠ FREE_MARKER → slot (hashTable ht1) i ≠ key)
    as Hslot.
  { intros i. unfold slot.
    destruct (hashTable ht1 !! Z.to_nat i) as [v|] eqn:E; simpl; [|done].
    intros _ ->. apply Habs. by eapply list_elem_of_lookup_2. }
  exists (place ht1 index key). cbn [insert]. rewrite Hgrow.
  cbn [mbind option_bind].
  rewrite (insert_loop_first_free ht1 key t (S fuel) 0); try done; try lia.
  - repeat split; try done. simpl.
    apply list_lookup_insert_eq. by eapply lookup_lt_Some.
  - intros t' ?. split; [apply Hslot|]; apply Hbefore; lia.
  - unfold slot. fold index. by rewrite Hfree.
Qed.

Lemma tombstone_then_key_reached :
  (new 8 linear_division ≫= run 8 [Insert 5; Insert 13; Remove 5])
  = Some tombstone_then_key.
Proof. reflexivity. Qed.

Lemma open_insert_first_free_witness :
  ∃ ht', insert 3 tombstone_then_key 21 = Some ht'
         ∧ hashTable ht' = <[7%nat := 21]> (hashTable tombstone_then_key)
         ∧ hashTable ht' !! 7%nat = Some 21
         ∧ num_entries ht' = 2
         ∧ length ht' = 8.
Proof.
  refine (open_insert_first_free 2 tombstone_then_key tombstone_then_key 21 2
            _ _ _ _ _ _ _).
  - reflexivity.
  - discriminate.
  - apply (bool_decide_unpack _). reflexivity.
  - split; [lia|reflexivity].
  - simpl. lia.
  - reflexivity.
  - intros t' Ht'. assert (t' = 0 ∨ t' = 1) as [->| ->] by lia; discriminate.
Defined.

(** C2 (as stated) fails: after [insert(5); insert(13); remove(5)] the
    first slot on the probe sequence of 21 that is EMPTY or TOMBSTONE is
    slot 5 (a tombstone); [insert(21)] leaves the tombstone in slot 5 and
    writes 21 into slot 7. *)
Lemma open_insert_skips_tombstone :
  ∃ ht', insert 3 tombstone_then_key 21 = Some ht'
         ∧ spec_first_vacant 8 tombstone_then_key 21 0 = Some 5
         ∧ slot (hashTable ht') 5 = DEL_MARKER
         ∧ slot (hashTable ht') 7 = 21
         ∧ hashTable ht' ≠ <[5%nat := 21]> (hashTable tombstone_then_key).
Proof. eexists. repeat split; (reflexivity || discriminate). Qed.

Lemma all_tombstones_slot key t :
  slot (hashTable all_tombstones)
    (probing_hash (prHashFunc all_tombstones) key t) = DEL_MARKER.
Proof.
  simpl. unfold LinearProbingHashFunction.call. simpl.
  pose proof (Z.mod_pos_bound (wrap32 (DivisionHashFunction.call
    {| DivisionHashFunction.M := 8 |} key + t)) 8 ltac:(lia)) as Hr.
  revert Hr. generalize (wrap32 (DivisionHashFunction.call
    {| DivisionHashFunction.M := 8 |} key + t) mod 8). intros i Hi.
  assert (i = 0 ∨ i = 1 ∨ i = 2 ∨ i = 3 ∨ i = 4 ∨ i = 5 ∨ i = 6 ∨ i = 7)
    as Hc by lia.
  repeat (destruct Hc as [Hc|Hc]; [by subst i|]). by subst i.
Qed.

(** C3 on the code: the table [all_tombstones] is reached from the new
    table by sixteen calls, and the probing loop of [insert(8)] on it
    never ends, whatever the fuel. *)
Theorem open_insert_probe_never_ends :
  (new 8 linear_division ≫= run 8 fill_with_tombstones) = Some all_tombstones
  ∧ ∀ fuel, insert fuel all_tombstones 8 = None.
Proof.
  split; [reflexivity|]. intros [|fuel]; [done|]. cbn [insert].
  change (grow_with (insert fuel) fuel all_tombstones) with (Some all_tombstones).
  simpl mbind. rewrite insert_loop_diverges; [done|].
  intros t. rewrite all_tombstones_slot. done.
Qed.

(** C5 (as the code does it).  After [insert] of 5, 13, 21, 29 and
    [remove] of all four at [M = 8], [num_entries] is 0 and the table
    keeps [M = 8]; the four slots hold tombstones. *)
Theorem open_scenario_keeps_length :
  (new 8 linear_division ≫= run 8 colliding_keys)
  = Some (mkHashTable 8 0
            (LinearProbingHashFunction.mk 8 (DivisionHashFunction.mk 8))
            [DEL_MARKER; FREE_MARKER; FREE_MARKER; FREE_MARKER; FREE_MARKER;
             DEL_MARKER; DEL_MARKER; DEL_MARKER]).
Proof. reflexivity. Qed.

(** C5 (as stated) fails: the table does not rebuild to [M = 4]. *)
Lemma open_scenario_no_shrink_to_4 :
  ∃ ht, (new 8 linear_division ≫= run 8 colliding_keys) = Some ht
        ∧ length ht = 8 ∧ length ht ≠ 4.
Proof. eexists. split; [reflexivity|]. split; [reflexivity|discriminate]. Qed.

(** C7 (open addressing).  [insert] of the not-found value does the
    grow step and nothing else: no slot is written and [num_entries]
    is not incremented. *)
Theorem open_insert_invalid_key {P : Type} `{ProbingHashFunction P}
    (fuel : nat) (ht ht' : HashTable P) :
  insert (S fuel) ht INVALID_KEY = Some ht' →
  grow_with (insert fuel) fuel ht = Some ht'
  ∧ (load_factor_ge_half ht = false → ht' = ht).
Proof.
  intros Hins. assert (grow_with (insert fuel) fuel ht = Some ht') as Hgrow.
  { revert Hins. cbn [insert].
    destruct (grow_with (insert fuel) fuel ht) as [ht1|]; [|done].
    cbn [mbind option_bind].
    destruct (insert_loop (S fuel) ht1 INVALID_KEY 0) as [r|] eqn:E; [|done].
    apply insert_loop_free_marker in E as ->. done. }
  split; [done|]. intros Hload. unfold grow_with in Hgrow.
  rewrite Hload in Hgrow. by injection Hgrow.
Qed.

Lemma open_insert_invalid_key_witness :
  insert 2 tombstone_then_key INVALID_KEY = Some tombstone_then_key
  ∧ grow_with (insert 1) 1 tombstone_then_key = Some tombstone_then_key.
Proof.
  split; [reflexivity|].
  apply (open_insert_invalid_key 1 tombstone_then_key tombstone_then_key).
  reflexivity.
Defined.

(** C10 (as the code does it).  On a table with [0 < length < 2^32]
    whose probed indices are slots of the array, [remove] of a key that
    no slot holds returns the table as it is. *)
Theorem open_remove_absent {P : Type} `{ProbingHashFunction P}
    (fuel : nat) (ht : HashTable P) (key : Z) :
  0 < length ht < 2 ^ 32 →
  (∀ t, is_Some (hashTable ht !! Z.to_nat (probing_hash (prHashFunc ht) key t))) →
  key ∉ hashTable ht →
  length ht ≤ Z.of_nat fuel →
  remove fuel ht key = Some ht.
Proof.
  intros Hlen Hrange Habs Hfuel. unfold remove, find_index.
  rewrite find_index_loop_absent; try done; try lia.
  - simpl. by rewrite Z.leb_refl.
  - intros t E. destruct (Hrange t) as [v Hv]. unfold slot in E.
    rewrite Hv in E. simpl in E. subst v. apply Habs.
    by eapply list_elem_of_lookup_2.
Qed.

Lemma open_remove_absent_witness :
  remove 8 tombstone_then_key 21 = Some tombstone_then_key.
Proof.
  apply open_remove_absent.
  - split; reflexivity.
  - intros t. apply lookup_lt_is_Some. simpl.
    pose proof (linear_call_range (prHashFunc tombstone_then_key) 21 t) as Hr.
    simpl in Hr. lia.
  - apply (bool_decide_unpack _). reflexivity.
  - simpl. lia.
Defined.

(** C10 (as stated) fails on the not-found value: it is not a stored
    key ([find] returns INVALID_KEY), yet [remove] finds a free slot
    equal to it, turns the slot into a tombstone and decrements
    [num_entries] below zero. *)
Lemma open_remove_invalid_key_changes :
  ∃ ht ht', new 8 linear_division = Some ht
            ∧ find 8 ht INVALID_KEY = Some INVALID_KEY
            ∧ remove 8 ht INVALID_KEY = Some ht'
            ∧ num_entries ht = 0 ∧ num_entries ht' = 4294967295
            ∧ slot (hashTable ht) 7 = FREE_MARKER
            ∧ slot (hashTable ht') 7 = DEL_MARKER
            ∧ ht' ≠ ht.
Proof. do 2 eexists. repeat split; (reflexivity || discriminate). Qed.

End OpenAddressingClaims.

(** ** Chaining: growing a full table *)

Section ChainingFacts.
Import Chaining.
Context {H : Type} `{HashFunction H}.
Implicit Types ht : HashTable H.

Lemma find_stored ht key : stored ht key → find ht key = key.
Proof.
  unfold stored, find, find_chain. intros Hin.
  destruct (list_find_elem_of (λ entry, entry = key) _ key Hin eq_refl)
    as [[i x] Hfind].
  rewrite Hfind. by apply list_find_Some in Hfind as (_ & -> & _).
Qed.

Lemma push_back_stored_new ht key :
  0 ≤ hash (hashFunc ht) key < Z.of_nat (List.length (hashTable ht)) →
  stored (push_back ht key) key.
Proof.
  intros Hr. unfold stored, push_back, chain_at. simpl.
  rewrite list_lookup_alter_eq.
  destruct (lookup_lt_is_Some_2 (hashTable ht) (Z.to_nat (hash (hashFunc ht) key)))
    as [chain ->]; [lia|].
  simpl. apply elem_of_app. right. by apply list_elem_of_singleton.
Qed.

Lemma push_back_stored_old ht key k :
  stored ht k → stored (push_back ht key) k.
Proof.
  unfold stored, push_back, chain_at. simpl. intros Hin.
  destruct (decide (Z.to_nat (hash (hashFunc ht) key)
                    = Z.to_nat (hash (hashFunc ht) k))) as [E|E].
  - rewrite E, list_lookup_alter_eq.
    destruct (hashTable ht !! Z.to_nat (hash (hashFunc ht) k)); simpl in *;
      [|done].
    apply elem_of_app. by left.
  - by rewrite list_lookup_alter_ne.
Qed.

Lemma foldl_push_back_fields keys : ∀ ht,
  length (foldl push_back ht keys) = length ht
  ∧ hashFunc (foldl push_back ht keys) = hashFunc ht
  ∧ List.length (hashTable (foldl push_back ht keys))
    = List.length (hashTable ht).
Proof.
  induction keys as [|key keys IH]; intros ht; simpl; [done|].
  destruct (IH (push_back ht key)) as (-> & -> & ->). simpl.
  by rewrite length_alter.
Qed.

Lemma foldl_push_back_num_entries keys : ∀ ht,
  0 ≤ num_entries ht →
  num_entries ht + Z.of_nat (List.length keys) < 2 ^ 32 →
  num_entries (foldl push_back ht keys)
  = num_entries ht + Z.of_nat (List.length keys).
Proof.
  induction keys as [|key keys IH]; intros ht Hn Hb; simpl in *; [lia|].
  rewrite IH; simpl; rewrite ?wrap32_small by lia; lia.
Qed.

Lemma foldl_push_back_stored keys : ∀ ht k,
  (∀ key, 0 ≤ hash (hashFunc ht) key < Z.of_nat (List.length (hashTable ht))) →
  k ∈ keys ∨ stored ht k → stored (foldl push_back ht keys) k.
Proof.
  induction keys as [|key keys IH]; intros ht k Hr Hk; simpl.
  - destruct Hk as [Hk|Hk]; [by apply elem_of_nil in Hk|done].
  - apply IH.
    + intros key'. simpl. rewrite length_alter. apply Hr.
    + destruct Hk as [[->|Hk]%elem_of_cons|Hk].
      * right. apply push_back_stored_new, Hr.
      * by left.
      * right. by apply push_back_stored_old.
Qed.

(** Without a rebuild [insert] is [push_back]. *)
Lemma insert_no_grow fuel ht key :
  length ht ≠ num_entries ht →
  insert (S fuel) ht key = Some (push_back ht key).
Proof.
  intros Hne. cbn [insert].
  by destruct (Z.eqb_spec (length ht) (num_entries ht)).
Qed.

Lemma insert_all_no_grow fuel keys : ∀ ht,
  0 ≤ num_entries ht →
  num_entries ht + Z.of_nat (List.length keys) ≤ length ht →
  length ht < 2 ^ 32 →
  insert_all (insert (S fuel)) keys ht = Some (foldl push_back ht keys).
Proof.
  induction keys as [|key keys IH]; intros ht Hn Hroom Hlen; [done|].
  simpl in Hroom. cbn [insert_all foldl].
  rewrite insert_no_grow by lia. cbn [mbind option_bind].
  apply IH; simpl; rewrite ?wrap32_small by lia; lia.
Qed.

(** A full table of [m] entries doubles on the next [insert], and the
    rebuilt table holds every old key and the new one where [find]
    looks for them. *)
Lemma insert_full_grows fuel ht key hf' m :
  0 < m → 2 * m < 2 ^ 32 →
  length ht = m → num_entries ht = m →
  List.length (hashTable ht) = Z.to_nat m →
  List.length (keys ht) = Z.to_nat m →
  UpdateHashSize (S fuel) (2 * m) (hashFunc ht) = Some hf' →
  (∀ k, 0 ≤ hash hf' k < 2 * m) →
  ∃ ht', insert (S (S fuel)) ht key = Some ht'
         ∧ length ht' = 2 * m ∧ num_entries ht' = m + 1
         ∧ ∀ k, k ∈ key :: keys ht → find ht' k = k.
Proof.
  intros Hm Hm2 Hlen Hnum Htbl Hkeys Hupd Hrange.
  set (fresh := mkHashTable (2 * m) 0 hf' (replicate (Z.to_nat (2 * m)) [])).
  set (ht1 := foldl push_back fresh (keys ht)).
  destruct (foldl_push_back_fields (keys ht) fresh) as (Hl1 & Hf1 & Ht1).
  fold ht1 in Hl1, Hf1, Ht1. simpl in Hl1, Hf1, Ht1.
  rewrite length_replicate in Ht1.
  assert (num_entries ht1 = m) as Hn1.
  { unfold ht1. rewrite foldl_push_back_num_entries; simpl; lia. }
  exists (push_back ht1 key). split; [|split; [|split]].
  - remember (S fuel) as fuel1 eqn:Hfuel1.
    cbn [insert]. rewrite Hlen, Hnum, Z.eqb_refl.
    unfold rehash_with. rewrite (wrap32_small (2 * m)) by lia.
    rewrite Hlen, Hupd. cbn [mbind option_bind].
    rewrite take_ge by lia. fold (keys ht). fold fresh. subst fuel1.
    rewrite insert_all_no_grow by (simpl; lia). fold ht1.
    cbn [mbind option_bind]. done.
  - simpl. done.
  - simpl. rewrite Hn1. apply wrap32_small. lia.
  - intros k Hk. apply find_stored.
    apply elem_of_cons in Hk as [->|Hk].
    + apply push_back_stored_new. rewrite Hf1, Ht1.
      specialize (Hrange key). lia.
    + apply push_back_stored_old. apply foldl_push_back_stored; [|by left].
      intros key'. simpl. rewrite length_replicate.
      specialize (Hrange key'). lia.
Qed.

(** [remove] decrements [num_entries] also when the key is not in its
    chain. *)
Lemma remove_absent_counts_down fuel ht key :
  find_chain (chain_at (hashTable ht) (hash (hashFunc ht) key)) key = None →
  length ht ≤ MIN_LENGTH →
  remove fuel ht key
  = Some (mkHashTable (length ht) (wrap32 (num_entries ht - 1))
            (hashFunc ht) (hashTable ht)).
Proof.
  intros Hnone Hlen. unfold remove. rewrite Hnone. simpl.
  by destruct (Z.ltb_spec MIN_LENGTH (length ht)); [lia|].
Qed.

End ChainingFacts.

Section ChainingClaims.
Import Chaining.

(** C6 (as the code does it).  A chaining table at [M = 8] that holds
    8 entries rebuilds to [M = 16] on the next [insert] (its ninth)
    before placing the key, and afterwards [find] returns the key
    itself for every key held before and for the new one. *)
Theorem chain_full_table_doubles {H : Type} `{HashFunction H}
    (fuel : nat) (ht : HashTable H) (key : Z) (hf' : H) :
  length ht = 8 → num_entries ht = 8 →
  List.length (hashTable ht) = 8%nat →
  List.length (keys ht) = 8%nat →
  UpdateHashSize (S fuel) 16 (hashFunc ht) = Some hf' →
  (∀ k, 0 ≤ hash hf' k < 16) →
  ∃ ht', insert (S (S fuel)) ht key = Some ht'
         ∧ length ht' = 16 ∧ num_entries ht' = 9
         ∧ ∀ k, k ∈ key :: keys ht → find ht' k = k.
Proof.
  intros Hlen Hnum Htbl Hkeys Hupd Hrange.
  apply (insert_full_grows fuel ht key hf' 8); done.
Qed.

Lemma eight_keys_reached :
  (new 1 ≫= insert_all (insert 1) [0; 1; 2; 3; 4; 5; 6; 7]) = Some eight_keys.
Proof. reflexivity. Qed.

Lemma chain_full_table_doubles_witness :
  ∃ ht', insert 2 eight_keys 8 = Some ht'
         ∧ length ht' = 16 ∧ num_entries ht' = 9
         ∧ ∀ k, k ∈ 8 :: keys eight_keys → find ht' k = k.
Proof.
  apply (chain_full_table_doubles 0 eight_keys 8 (DivisionHashFunction.mk 16));
    try reflexivity.
  intros k. apply (division_range (DivisionHashFunction.mk 16) k). reflexivity.
Defined.

(** C6 (as stated) fails: the eighth [insert] into a table at [M = 8]
    finds [num_entries = 7] and does not rebuild. *)
Lemma chain_eighth_insert_keeps_length :
  ∃ ht ht', (new 1 ≫= insert_all (insert 1) [0; 1; 2; 3; 4; 5; 6]) = Some ht
            ∧ length ht = 8 ∧ num_entries ht = 7
            ∧ insert 1 ht 7 = Some ht'
            ∧ length ht' = 8 ∧ length ht' ≠ 16.
Proof. do 2 eexists. repeat split; (reflexivity || discriminate). Qed.

(** C1 on the code: [remove] of a key that is not in the new, empty
    table erases nothing and yet decrements [num_entries], from 0 to
    [2^32 - 1]. *)
Theorem chain_remove_absent_decrements :
  ∃ ht ht' : HashTable DivisionHashFunction.t,
    new 1 = Some ht
    ∧ find ht 5 = INVALID_KEY
    ∧ remove 1 ht 5 = Some ht'
    ∧ hashTable ht' = hashTable ht
    ∧ num_entries ht = 0 ∧ num_entries ht' = 4294967295.
Proof. do 2 eexists. repeat split; reflexivity. Qed.

(** C7 (as stated) fails for chaining: [insert] of the not-found value
    appends it to a chain and counts it as an entry. *)
Lemma chain_insert_invalid_key_stored :
  ∃ ht ht' : HashTable DivisionHashFunction.t,
    new 1 = Some ht
    ∧ insert 1 ht INVALID_KEY = Some ht'
    ∧ INVALID_KEY ∈ keys ht'
    ∧ num_entries ht' = 1.
Proof.
  do 2 eexists. repeat split; try reflexivity.
  apply (bool_decide_unpack _). reflexivity.
Qed.

End ChainingClaims.

(** * Further properties *)

(** ** More on the hash functions *)

(** X1.  [is_prime] decides primality of every [n] with
    [4 ≤ n < 65531^2], given fuel for the trial divisions up to the
    square root of [n]. *)
Theorem is_prime_decides_primality (fuel : nat) (n : Z) :
  4 ≤ n < prime_bound →
  n < (5 + 6 * Z.of_nat fuel) * (5 + 6 * Z.of_nat fuel) →
  ∃ b, UniversalHashFunction.is_prime fuel n = Some b
       ∧ (b = true ↔ Z.prime n).
Proof. apply is_prime_correct. Qed.

Lemma is_prime_decides_primality_witness :
  ∃ b, UniversalHashFunction.is_prime 2 127 = Some b
       ∧ (b = true ↔ Z.prime 127).
Proof.
  apply (is_prime_decides_primality 2 127).
  - split; [lia|reflexivity].
  - reflexivity.
Defined.

(** X2.  [OnHashSizeChange] of the multiplication hash function leaves
    [R] with [2^R ≤ M < 2^(R+1)] for every size [M > 0]: [R] is the
    position of the highest set bit. *)
Theorem multiplication_R_highest_bit (m r : Z) :
  0 < m →
  let h := MultiplicationHashFunction.OnHashSizeChange
             (MultiplicationHashFunction.mk m r) in
  MultiplicationHashFunction.M h = m
  ∧ 0 ≤ MultiplicationHashFunction.R h
  ∧ 2 ^ MultiplicationHashFunction.R h ≤ m
      < 2 ^ (MultiplicationHashFunction.R h + 1).
Proof.
  intros Hm h. subst h. unfold MultiplicationHashFunction.OnHashSizeChange.
  simpl. destruct m as [|m|m]; try lia.
  rewrite bit_width_log2, Z.add_0_l. split; [done|].
  split; [apply Z.log2_nonneg|]. apply Z.log2_spec. lia.
Qed.

Lemma multiplication_R_highest_bit_witness :
  let h := MultiplicationHashFunction.OnHashSizeChange
             (MultiplicationHashFunction.mk 1000000 0) in
  MultiplicationHashFunction.M h = 1000000
  ∧ 0 ≤ MultiplicationHashFunction.R h
  ∧ 2 ^ MultiplicationHashFunction.R h ≤ 1000000
      < 2 ^ (MultiplicationHashFunction.R h + 1).
Proof. apply (multiplication_R_highest_bit 1000000 0). reflexivity. Defined.

(** X3.  For every size [2 ≤ M < 2^32], a power of two or not, the
    multiplication hash function resized to [M] returns an index below
    [2^R ≤ M]; it shifts by [32 - R] with [1 ≤ R ≤ 31]. *)
Theorem multiplication_hash_below_size (m key : Z)
    (h : MultiplicationHashFunction.t) :
  2 ≤ m < 2 ^ 32 →
  let h' := MultiplicationHashFunction.UpdateHashSize m h in
  1 ≤ MultiplicationHashFunction.R h' ≤ 31
  ∧ 0 ≤ hash h' key < 2 ^ MultiplicationHashFunction.R h'
  ∧ 2 ^ MultiplicationHashFunction.R h' ≤ m.
Proof.
  intros Hm h'. subst h'.
  unfold MultiplicationHashFunction.UpdateHashSize.
  set (h' := MultiplicationHashFunction.OnHashSizeChange _).
  assert (MultiplicationHashFunction.R h' = Z.log2 m) as HR.
  { unfold h', MultiplicationHashFunction.OnHashSizeChange. simpl.
    destruct m as [|m|m]; try lia. by rewrite bit_width_log2. }
  pose proof (Z.log2_spec m ltac:(lia)) as Hspec.
  assert (1 ≤ Z.log2 m).
  { apply Z.log2_le_pow2; [lia|]. simpl. lia. }
  assert (Z.log2 m < 32).
  { apply Z.log2_lt_pow2; lia. }
  rewrite HR. split; [lia|]. split; [|lia].
  rewrite <- HR. apply multiplication_call_range. lia.
Qed.

Lemma multiplication_hash_below_size_witness :
  let h' := MultiplicationHashFunction.UpdateHashSize 1000000
              (MultiplicationHashFunction.new 8) in
  1 ≤ MultiplicationHashFunction.R h' ≤ 31
  ∧ 0 ≤ hash h' 12345 < 2 ^ MultiplicationHashFunction.R h'
  ∧ 2 ^ MultiplicationHashFunction.R h' ≤ 1000000.
Proof.
  apply (multiplication_hash_below_size 1000000 12345).
  split; [lia|reflexivity].
Defined.

(** ** The prime search at the table sizes *)

Section PrimeSearch.
Import UniversalHashFunction.

Lemma least_prime_loop_sound pfuel fuel : ∀ n p,
  3 ≤ n → n + Z.of_nat fuel < prime_bound →
  n + Z.of_nat fuel < (5 + 6 * Z.of_nat pfuel) * (5 + 6 * Z.of_nat pfuel) →
  least_prime_loop pfuel fuel n = Some p →
  least_prime_above n p.
Proof.
  unfold prime_bound.
  induction fuel as [|fuel IH]; intros n p Hn Hb Hpf Hloop; [done|].
  cbn [least_prime_loop] in Hloop.
  rewrite (wrap32_small (n + 1)) in Hloop by lia.
  destruct (is_prime_correct pfuel (n + 1)) as (b & Hb' & Hiff);
    [unfold prime_bound; lia|lia|].
  rewrite Hb' in Hloop. destruct b.
  - injection Hloop as <-. split; [by apply Hiff|]. split; [lia|].
    intros q ?. lia.
  - destruct (IH (n + 1) p) as (Hp & Hlt & Hleast); try done; try lia.
    split; [done|]. split; [lia|]. intros q Hq.
    destruct (Z.eq_dec q (n + 1)) as [->|Hne].
    + intros Hq'. by apply Hiff in Hq'.
    + apply Hleast. lia.
Qed.

(** The sizes [2^3, ..., 2^31] one by one. *)
Lemma table_size_cases (k : Z) :
  3 ≤ k ≤ 31 →
  k ∈ [3; 4; 5; 6; 7; 8; 9; 10; 11; 12; 13; 14; 15; 16; 17; 18; 19; 20;
       21; 22; 23; 24; 25; 26; 27; 28; 29; 30; 31].
Proof.
  intros Hk. apply elem_of_seqZ with (m := 3) (n := 29) (k := k). lia.
Qed.

Lemma least_prime_at_table_sizes (k : Z) :
  3 ≤ k ≤ 31 → ∃ p, least_prime_larger_than prime_search_fuel (2 ^ k) = Some p.
Proof.
  intros Hk%table_size_cases.
  repeat (apply elem_of_cons in Hk as [->|Hk];
          [eexists; vm_compute; reflexivity|]).
  by apply elem_of_nil in Hk.
Qed.

(** X4.  When [least_prime_larger_than] returns for [n ≥ 3], with
    every candidate it can reach below [65531^2] and below the square
    that the trial divisions cover, the value returned is the least
    prime above [n]. *)
Theorem least_prime_larger_than_sound (fuel : nat) (n p : Z) :
  3 ≤ n → n + Z.of_nat fuel < prime_bound →
  n + Z.of_nat fuel < (5 + 6 * Z.of_nat fuel) * (5 + 6 * Z.of_nat fuel) →
  least_prime_larger_than fuel n = Some p →
  least_prime_above n p.
Proof. apply least_prime_loop_sound. Qed.

Lemma least_prime_larger_than_sound_witness : least_prime_above 1000 1009.
Proof.
  apply (least_prime_larger_than_sound 20 1000 1009);
    [lia|reflexivity..].
Defined.

Lemma universal_update_at_table_size (rand : nat → Z) (k : Z) (h : t) :
  3 ≤ k ≤ 31 →
  ∃ h', UniversalHashFunction.UpdateHashSize rand prime_search_fuel (2 ^ k) h
        = Some h'
        ∧ M h' = 2 ^ k ∧ least_prime_above (2 ^ k) (P h')
        ∧ ∀ key, 0 ≤ call h' key < 2 ^ k.
Proof.
  intros Hk. destruct (least_prime_at_table_sizes k Hk) as [p Hp].
  assert (8 ≤ 2 ^ k ≤ 2 ^ 31) as Hsize.
  { split.
    - change 8 with (2 ^ 3). apply Z.pow_le_mono_r; lia.
    - apply Z.pow_le_mono_r; lia. }
  unfold UniversalHashFunction.UpdateHashSize, OnHashSizeChange.
  cbn [M draws]. rewrite Hp. cbn [mbind option_bind].
  eexists. split; [done|]. cbn [M P]. split; [done|]. split.
  - apply (least_prime_loop_sound prime_search_fuel prime_search_fuel);
      try done.
    + lia.
    + change (Z.of_nat prime_search_fuel) with 8000. unfold prime_bound. lia.
    + change (Z.of_nat prime_search_fuel) with 8000. lia.
  - intros key. unfold call. cbn [M]. apply Z.mod_pos_bound. lia.
Qed.

(** Universal hashing can be resized with [prime_search_fuel]. *)
Lemma universal_resizes_well (rand : nat → Z) :
  @resizes_well _ (universal_base rand) (universal_hash rand) prime_search_fuel.
Proof.
  intros k h Hk.
  destruct (universal_update_at_table_size rand k h Hk) as (h' & Hu & _ & _ & Hr).
  by exists h'.
Qed.

(** X5.  At every table size [2^k] with [3 ≤ k ≤ 31] the universal
    hash function resizes with [prime_search_fuel]: the search ends on
    the least prime above the size, and the resized function maps
    every key into the table. *)
Theorem universal_resizes_at_table_sizes (rand : nat → Z) (k : Z) (h : t) :
  3 ≤ k ≤ 31 →
  ∃ h', UniversalHashFunction.UpdateHashSize rand prime_search_fuel (2 ^ k) h
        = Some h'
        ∧ M h' = 2 ^ k ∧ least_prime_above (2 ^ k) (P h')
        ∧ ∀ key, 0 ≤ call h' key < 2 ^ k.
Proof. apply universal_update_at_table_size. Qed.

Lemma universal_resizes_at_table_sizes_witness :
  ∃ h', UniversalHashFunction.UpdateHashSize (λ _, 3) prime_search_fuel (2 ^ 4)
          (mk 8 11 3 3 2) = Some h'
        ∧ M h' = 2 ^ 4 ∧ least_prime_above (2 ^ 4) (P h')
        ∧ ∀ key, 0 ≤ call h' key < 2 ^ 4.
Proof.
  apply (universal_resizes_at_table_sizes (λ _, 3) 4 (mk 8 11 3 3 2)). lia.
Defined.

End PrimeSearch.

(** ** More on the probing hash functions *)

Lemma affine_step k a s t :
  0 ≤ k →
  (a + (t + 1) * s) mod 2 ^ k = ((a + t * s) mod 2 ^ k + s) mod 2 ^ k.
Proof.
  intros ?. assert (0 < 2 ^ k) by (apply Z.pow_pos_nonneg; lia).
  rewrite Z.add_mod_idemp_l by lia. f_equal. lia.
Qed.

Lemma affine_period k a s t :
  0 ≤ k → (a + (t + 2 ^ k) * s) mod 2 ^ k = (a + t * s) mod 2 ^ k.
Proof.
  intros ?. assert (0 < 2 ^ k) by (apply Z.pow_pos_nonneg; lia).
  replace (a + (t + 2 ^ k) * s) with (a + t * s + s * 2 ^ k) by lia.
  apply Z.mod_add. lia.
Qed.

Lemma affine_mod_trial k a s t :
  0 ≤ k → (a + (t mod 2 ^ k) * s) mod 2 ^ k = (a + t * s) mod 2 ^ k.
Proof.
  intros ?. assert (0 < 2 ^ k) by (apply Z.pow_pos_nonneg; lia).
  rewrite (Z.add_mod a (t * s)), (Z.mul_mod t s) by lia.
  rewrite (Z.add_mod a (t mod 2 ^ k * s)), (Z.mul_mod (t mod 2 ^ k) s) by lia.
  by rewrite Z.mod_mod by lia.
Qed.

(** X6.  Linear probing at a size [M = 2^k] starts at the hash value
    reduced modulo [M], moves to the next slot (cyclically) at each
    further trial, and repeats with period [M]. *)
Theorem linear_probing_walks_slots {H : Type} `{HashFunction H}
    (p : LinearProbingHashFunction.t H) (k key t : Z) :
  0 ≤ k ≤ 31 → LinearProbingHashFunction.M p = 2 ^ k →
  probing_hash p key 0 = hash (LinearProbingHashFunction.hFunc p) key mod 2 ^ k
  ∧ probing_hash p key (t + 1) = (probing_hash p key t + 1) mod 2 ^ k
  ∧ probing_hash p key (t + 2 ^ k) = probing_hash p key t.
Proof.
  intros Hk HM. simpl. rewrite !(linear_call_mod p k) by (done || lia).
  split; [f_equal; lia|]. split.
  - apply affine_step. lia.
  - apply affine_period. lia.
Qed.

Lemma linear_probing_walks_slots_witness :
  let p := LinearProbingHashFunction.mk 8 (DivisionHashFunction.mk 8) in
  probing_hash p 29 0 = hash (DivisionHashFunction.mk 8) 29 mod 2 ^ 3
  ∧ probing_hash p 29 (2 + 1) = (probing_hash p 29 2 + 1) mod 2 ^ 3
  ∧ probing_hash p 29 (2 + 2 ^ 3) = probing_hash p 29 2.
Proof.
  apply (linear_probing_walks_slots
           (LinearProbingHashFunction.mk 8 (DivisionHashFunction.mk 8)) 3 29 2).
  - lia.
  - reflexivity.
Defined.

(** X7.  Double hashing at a size [M = 2^k] starts at the first hash
    value reduced modulo [M], advances at each further trial by the
    same odd step [Oddify(hFunc2(key))] modulo [M], and repeats with
    period [M]. *)
Theorem double_hashing_odd_step {H1 H2 : Type}
    `{HashFunction H1} `{HashFunction H2}
    (p : DoubleHashFunction.t H1 H2) (k key t : Z) :
  0 ≤ k ≤ 31 → DoubleHashFunction.M p = 2 ^ k →
  let step := DoubleHashFunction.Oddify (hash (DoubleHashFunction.hFunc2 p) key) in
  Z.odd step = true
  ∧ probing_hash p key 0 = hash (DoubleHashFunction.hFunc1 p) key mod 2 ^ k
  ∧ probing_hash p key (t + 1) = (probing_hash p key t + step) mod 2 ^ k
  ∧ probing_hash p key (t + 2 ^ k) = probing_hash p key t.
Proof.
  intros Hk HM step. simpl. rewrite !(double_call_mod p k) by (done || lia).
  split; [apply Oddify_odd|]. split; [f_equal; lia|]. split.
  - apply affine_step. lia.
  - apply affine_period. lia.
Qed.

Lemma double_hashing_odd_step_witness :
  let p := DoubleHashFunction.mk 8 (DivisionHashFunction.mk 8)
             (MultiplicationHashFunction.new 8) in
  let step := DoubleHashFunction.Oddify
                (hash (MultiplicationHashFunction.new 8) 29) in
  Z.odd step = true
  ∧ probing_hash p 29 0 = hash (DivisionHashFunction.mk 8) 29 mod 2 ^ 3
  ∧ probing_hash p 29 (2 + 1) = (probing_hash p 29 2 + step) mod 2 ^ 3
  ∧ probing_hash p 29 (2 + 2 ^ 3) = probing_hash p 29 2.
Proof.
  apply (double_hashing_odd_step
           (DoubleHashFunction.mk 8 (DivisionHashFunction.mk 8)
              (MultiplicationHashFunction.new 8)) 3 29 2).
  - lia.
  - reflexivity.
Defined.

(** ** Open addressing: searching, and what insert and remove keep *)

Section OpenSearchFacts.
Import OpenAddressing.
Context {P : Type} `{ProbingHashFunction P}.
Implicit Types ht : HashTable P.

Local Abbreviation index_at ht key t := (probing_hash (prHashFunc ht) key t).
Local Abbreviation slot_at ht key t :=
  (slot (hashTable ht) (probing_hash (prHashFunc ht) key t)).

(** [find_index] makes at most [length] trials. *)
Lemma find_index_loop_returns ht key fuel : ∀ probe,
  length ht < 2 ^ 32 → 0 ≤ probe < length ht →
  length ht - probe ≤ Z.of_nat fuel →
  ∃ r, find_index_loop fuel ht key probe = Some r
       ∧ (r = length ht ∨ slot (hashTable ht) r = key).
Proof.
  induction fuel as [|fuel IH]; intros probe Hlen Hp Hfuel; [lia|].
  cbn [find_index_loop].
  destruct (Z.eqb_spec (slot_at ht key probe) key) as [E|_]; [by eauto|].
  destruct (negb _); simpl; [|by eauto].
  destruct (Z.ltb_spec (wrap32 (probe + 1)) (length ht)) as [Hlt|Hge];
    [|by eauto].
  rewrite wrap32_small in * by lia. apply IH; lia.
Qed.

(** [find_index] returns the index of the first trial that meets the
    key, when no earlier trial meets a free slot. *)
Lemma find_index_loop_hits ht key t fuel : ∀ probe,
  0 ≤ probe ≤ t → t < length ht → length ht < 2 ^ 32 →
  (∀ t', probe ≤ t' < t →
     slot_at ht key t' ≠ key ∧ slot_at ht key t' ≠ FREE_MARKER) →
  slot_at ht key t = key →
  t - probe < Z.of_nat fuel →
  find_index_loop fuel ht key probe = Some (index_at ht key t).
Proof.
  induction fuel as [|fuel IH]; intros probe Hp Ht Hlen Hbefore Hkey Hfuel;
    [lia|].
  cbn [find_index_loop].
  destruct (Z.eq_dec probe t) as [->|Hne].
  - by rewrite Hkey, Z.eqb_refl.
  - destruct (Hbefore probe) as [Hk Hf]; [lia|].
    destruct (Z.eqb_spec (slot_at ht key probe) key); [done|].
    destruct (Z.eqb_spec (slot_at ht key probe) FREE_MARKER); [done|]. simpl.
    rewrite (wrap32_small (probe + 1)) by lia.
    destruct (Z.ltb_spec (probe + 1) (length ht)); [|lia].
    apply IH; try done; try lia. intros t' ?. apply Hbefore. lia.
Qed.

(** When [find_index] returns an index below [length], it has met the
    key at some trial before any free slot. *)
Lemma find_index_loop_trace ht key fuel : ∀ probe i,
  length ht < 2 ^ 32 → 0 ≤ probe < length ht →
  find_index_loop fuel ht key probe = Some i → i < length ht →
  ∃ t, probe ≤ t < length ht ∧ t - probe < Z.of_nat fuel
       ∧ (∀ t', probe ≤ t' < t →
            slot_at ht key t' ≠ key ∧ slot_at ht key t' ≠ FREE_MARKER)
       ∧ slot_at ht key t = key ∧ i = index_at ht key t.
Proof.
  induction fuel as [|fuel IH]; intros probe i Hlen Hp Hfind Hi; [done|].
  cbn [find_index_loop] in Hfind.
  destruct (Z.eqb_spec (slot_at ht key probe) key) as [E|Hk].
  { injection Hfind as <-. exists probe. split; [lia|]. split; [lia|].
    split; [intros t' ?; lia|done]. }
  destruct (Z.eqb_spec (slot_at ht key probe) FREE_MARKER) as [E|Hf];
    simpl in Hfind; [injection Hfind as <-; lia|].
  destruct (Z.ltb_spec (wrap32 (probe + 1)) (length ht)) as [Hlt|Hge];
    [|injection Hfind as <-; lia].
  rewrite wrap32_small in * by lia.
  destruct (IH (probe + 1) i) as (t & Ht & Htf & Hbefore & Hkey & ->);
    try done; try lia.
  exists t. split; [lia|]. split; [lia|]. split; [|done].
  intros t' Ht'. destruct (Z.eq_dec t' probe) as [->|]; [done|].
  apply Hbefore; lia.
Qed.

(** The probing loop of [insert] returns from inside when [find_index]
    finds the key. *)
Lemma insert_loop_found ht key fuel : ∀ probe i,
  find_index_loop fuel ht key probe = Some i → i < length ht →
  insert_loop fuel ht key probe = Some None.
Proof.
  induction fuel as [|fuel IH]; intros probe i Hfind Hi; [done|].
  cbn [find_index_loop] in Hfind. cbn [insert_loop].
  destruct (Z.eqb_spec (slot_at ht key probe) key) as [E|Hk]; [done|].
  destruct (Z.eqb_spec (slot_at ht key probe) FREE_MARKER) as [E|Hf];
    simpl in *; [injection Hfind as <-; lia|].
  destruct (Z.ltb_spec (wrap32 (probe + 1)) (length ht)) as [Hlt|Hge];
    [|injection Hfind as <-; lia].
  by eapply IH.
Qed.

(** The probing loop of [insert] ends at the first trial that meets
    the key or a free slot. *)
Lemma insert_loop_stops_at ht key t fuel : ∀ probe r,
  0 ≤ probe ≤ t → t < 2 ^ 32 →
  (∀ t', probe ≤ t' < t →
     slot_at ht key t' ≠ key ∧ slot_at ht key t' ≠ FREE_MARKER) →
  insert_loop fuel ht key probe = Some r →
  (slot_at ht key t = key ∨ slot_at ht key t = FREE_MARKER) →
  r = if slot_at ht key t =? key then None else Some (index_at ht key t).
Proof.
  induction fuel as [|fuel IH]; intros probe r Hp Ht Hbefore Hloop Hstop;
    [done|].
  cbn [insert_loop] in Hloop.
  destruct (Z.eq_dec probe t) as [->|Hne].
  - destruct (Z.eqb_spec (slot_at ht key t) key) as [E|Hk]; [congruence|].
    destruct Hstop as [?|Hfree]; [done|]. rewrite Hfree in Hloop.
    simpl in Hloop. congruence.
  - destruct (Hbefore probe) as [Hk Hf]; [lia|].
    destruct (Z.eqb_spec (slot_at ht key probe) key); [done|].
    destruct (Z.eqb_spec (slot_at ht key probe) FREE_MARKER); [done|].
    simpl in Hloop. rewrite (wrap32_small (probe + 1)) in Hloop by lia.
    apply (IH (probe + 1)); try done; try lia.
    intros t' ?. apply Hbefore. lia.
Qed.

(** The probing loop of [insert] returns within [t + 1] trials when
    trial [t] meets a free slot. *)
Lemma insert_loop_returns ht key t fuel : ∀ probe,
  0 ≤ probe ≤ t → t < 2 ^ 32 →
  slot_at ht key t = FREE_MARKER →
  t - probe < Z.of_nat fuel →
  ∃ r, insert_loop fuel ht key probe = Some r.
Proof.
  induction fuel as [|fuel IH]; intros probe Hp Ht Hfree Hfuel; [lia|].
  cbn [insert_loop].
  destruct (Z.eqb_spec (slot_at ht key probe) key); [by eauto|].
  destruct (Z.eqb_spec (slot_at ht key probe) FREE_MARKER); simpl; [by eauto|].
  destruct (Z.eq_dec probe t) as [->|Hne]; [done|].
  rewrite (wrap32_small (probe + 1)) by lia. apply IH; lia.
Qed.

(** Among the first [n] trials there is a first one that meets the key
    or a free slot, or none does. *)
Lemma first_stop ht key (n : nat) :
  (∃ t, 0 ≤ t < Z.of_nat n
        ∧ (slot_at ht key t = key ∨ slot_at ht key t = FREE_MARKER)
        ∧ ∀ t', 0 ≤ t' < t →
            slot_at ht key t' ≠ key ∧ slot_at ht key t' ≠ FREE_MARKER)
  ∨ (∀ t, 0 ≤ t < Z.of_nat n →
       slot_at ht key t ≠ key ∧ slot_at ht key t ≠ FREE_MARKER).
Proof.
  induction n as [|n IH]; [right; lia|].
  destruct IH as [(t & Ht & Hstop & Hbefore)|Hnone].
  - left. exists t. split; [lia|done].
  - destruct (Z.eq_dec (slot_at ht key (Z.of_nat n)) key) as [E|Hk].
    { left. exists (Z.of_nat n). split; [lia|]. split; [by left|done]. }
    destruct (Z.eq_dec (slot_at ht key (Z.of_nat n)) FREE_MARKER) as [E|Hf].
    { left. exists (Z.of_nat n). split; [lia|]. split; [by right|done]. }
    right. intros t Ht.
    destruct (Z.eq_dec t (Z.of_nat n)) as [->|]; [done|]. apply Hnone. lia.
Qed.

(** With a cyclic probe sequence, a probing loop of [insert] that
    returns has stopped at one of the first [length] trials. *)
Lemma insert_loop_stop_trial ht key fuel r :
  0 < length ht < 2 ^ 32 → cyclic_probing ht →
  insert_loop fuel ht key 0 = Some r →
  ∃ t, 0 ≤ t < length ht
       ∧ (∀ t', 0 ≤ t' < t →
            slot_at ht key t' ≠ key ∧ slot_at ht key t' ≠ FREE_MARKER)
       ∧ (slot_at ht key t = key ∨ slot_at ht key t = FREE_MARKER)
       ∧ r = if slot_at ht key t =? key then None else Some (index_at ht key t).
Proof.
  intros Hlen Hcyc Hloop.
  destruct (first_stop ht key (Z.to_nat (length ht)))
    as [(t & Ht & Hstop & Hbefore)|Hnone].
  - exists t. rewrite Z2Nat.id in Ht by lia. split; [lia|].
    split; [done|]. split; [done|].
    apply (insert_loop_stops_at ht key t fuel 0); try done; lia.
  - rewrite insert_loop_diverges in Hloop; [done|].
    intros t. destruct (Hcyc key t) as [_ <-]. apply Hnone.
    rewrite Z2Nat.id by lia. apply Z.mod_pos_bound. lia.
Qed.

(** The probing loop of [insert] leaves the loop only on a free slot. *)
Lemma insert_loop_result_free ht key fuel : ∀ probe index,
  insert_loop fuel ht key probe = Some (Some index) →
  slot (hashTable ht) index = FREE_MARKER.
Proof.
  induction fuel as [|fuel IH]; intros probe index Hloop; [done|].
  cbn [insert_loop] in Hloop.
  destruct (Z.eqb_spec (slot_at ht key probe) key); [done|].
  destruct (Z.eqb_spec (slot_at ht key probe) FREE_MARKER) as [E|_];
    simpl in Hloop; [congruence|]. by eapply IH.
Qed.

(** Reading a slot after one slot was written. *)
Lemma slot_insert_ne (tbl : list Z) (i x v : Z) :
  Z.to_nat x ≠ Z.to_nat i → slot (<[Z.to_nat i := v]> tbl) x = slot tbl x.
Proof. intros Hne. unfold slot. by rewrite list_lookup_insert_ne. Qed.

Lemma slot_insert_eq (tbl : list Z) (i v : Z) :
  (Z.to_nat i < List.length tbl)%nat → slot (<[Z.to_nat i := v]> tbl) i = v.
Proof. intros Hlt. unfold slot. by rewrite list_lookup_insert_eq. Qed.

Lemma slot_insert_cases (tbl : list Z) (i x v : Z) :
  slot (<[Z.to_nat i := v]> tbl) x = v
  ∨ slot (<[Z.to_nat i := v]> tbl) x = slot tbl x.
Proof.
  destruct (decide (Z.to_nat x = Z.to_nat i)) as [E|Hne];
    [|right; by apply slot_insert_ne].
  unfold slot. rewrite E.
  destruct (decide (Z.to_nat i < List.length tbl)%nat).
  - left. by rewrite list_lookup_insert_eq.
  - right. by rewrite list_insert_ge by lia.
Qed.

Lemma slot_same_index (tbl : list Z) (i x : Z) :
  Z.to_nat x = Z.to_nat i → slot tbl x = slot tbl i.
Proof. intros E. unfold slot. by rewrite E. Qed.

(** A slot whose value is not the free marker lies in the array. *)
Lemma slot_lookup (tbl : list Z) (i v : Z) :
  slot tbl i = v → v ≠ FREE_MARKER → tbl !! Z.to_nat i = Some v.
Proof.
  unfold slot. destruct (tbl !! Z.to_nat i) as [w|]; simpl; congruence.
Qed.

(** What [find] returns, read off [find_index]. *)
Lemma find_found ht key fuel :
  find fuel ht key = Some key → key ≠ INVALID_KEY →
  ∃ i, find_index fuel ht key = Some i ∧ i < length ht.
Proof.
  unfold find. destruct (find_index fuel ht key) as [i|]; [|done]. simpl.
  destruct (Z.ltb_spec i (length ht)); [by eauto|congruence].
Qed.

(** [find] of a key that the array does not hold. *)
Lemma find_absent_invalid ht key fuel :
  0 < length ht < 2 ^ 32 → length ht ≤ Z.of_nat fuel →
  key ∉ hashTable ht →
  find fuel ht key = Some INVALID_KEY.
Proof.
  intros Hlen Hfuel Habs.
  destruct (find_index_loop_returns ht key fuel 0) as (r & Hr & Hcase);
    try lia.
  unfold find, find_index. rewrite Hr. simpl.
  destruct (Z.ltb_spec r (length ht)); [|done].
  destruct Hcase as [->|Hs]; [lia|]. f_equal.
  destruct (Z.eq_dec key FREE_MARKER) as [->|Hne]; [done|].
  exfalso. apply Habs. eapply list_elem_of_lookup_2. by apply slot_lookup.
Qed.

(** [find] of a key whose probe sequence reaches it. *)
Lemma find_reached ht key t fuel :
  0 ≤ t < length ht → length ht < 2 ^ 32 →
  0 ≤ index_at ht key t < length ht →
  (∀ t', 0 ≤ t' < t →
     slot_at ht key t' ≠ key ∧ slot_at ht key t' ≠ FREE_MARKER) →
  slot_at ht key t = key →
  length ht ≤ Z.of_nat fuel →
  find fuel ht key = Some key.
Proof.
  intros Ht Hlen Hrange Hbefore Hkey Hfuel. unfold find, find_index.
  rewrite (find_index_loop_hits ht key t fuel 0) by (done || lia).
  cbn [mbind option_bind]. rewrite Hkey.
  destruct (Z.ltb_spec (index_at ht key t) (length ht)); [done|lia].
Qed.

(** A rebuild stores free markers and keys that were occupied slots of
    the old array. *)
Lemma rehash_values fuel new_length ht ht' (allowed : Z → Prop) :
  rehash_with (insert fuel) fuel new_length ht = Some ht' →
  allowed FREE_MARKER →
  (∀ v, v ∈ hashTable ht → occupied v → allowed v) →
  ∀ v, v ∈ hashTable ht' → allowed v.
Proof.
  intros Hre Hfree Hold. unfold rehash_with in Hre.
  destruct (UpdateHashSize fuel _ (prHashFunc ht)) as [pr|]; [|done].
  cbn [mbind option_bind] in Hre.
  eapply (insert_all_values (insert fuel) allowed); [|exact Hre| |].
  - intros ht0 k ht0' E Hk Hht0. by apply (insert_values fuel ht0 k ht0' allowed).
  - intros k (Hocc & Hk%subseteq_take)%list_elem_of_filter. by apply Hold.
  - simpl. by intros v ->%elem_of_replicate_inv.
Qed.

End OpenSearchFacts.

(** ** Tables over linear probing and double hashing probe cyclically *)

Section ProbingTables.
Import OpenAddressing.

Lemma affine_covers k a s j :
  0 ≤ k → Z.odd s = true → 0 ≤ j < 2 ^ k →
  ∃ t, 0 ≤ t < 2 ^ k ∧ (a + t * s) mod 2 ^ k = j.
Proof.
  intros Hk Hs Hj.
  assert (j ∈ (λ t, (a + t * s) mod 2 ^ k) <$> seqZ 0 (2 ^ k)) as Hin.
  { rewrite affine_permutation by done. apply elem_of_seqZ. lia. }
  apply list_elem_of_fmap in Hin as (t & -> & Ht%elem_of_seqZ).
  exists t. split; [lia|done].
Qed.

Lemma linear_table_probing `{HashFunction H}
    (ht : HashTable (LinearProbingHashFunction.t H)) (k : Z) :
  0 ≤ k ≤ 31 →
  LinearProbingHashFunction.M (prHashFunc ht) = 2 ^ k → length ht = 2 ^ k →
  cyclic_probing ht ∧ covering_probing ht.
Proof.
  intros Hk HM Hlen. assert (0 < 2 ^ k) by (apply Z.pow_pos_nonneg; lia).
  split.
  - intros key t. rewrite Hlen. simpl. split.
    + rewrite <- HM. apply linear_call_range. lia.
    + rewrite !(linear_call_mod _ k) by (done || lia).
      apply affine_mod_trial. lia.
  - intros key j Hj. rewrite Hlen in *. simpl.
    destruct (affine_covers k
      (hash (LinearProbingHashFunction.hFunc (prHashFunc ht)) key) 1 j)
      as (t & Ht & Hjt); try done; try lia.
    exists t. split; [done|]. by rewrite (linear_call_mod _ k) by (done || lia).
Qed.

Lemma double_table_probing `{HashFunction H1} `{HashFunction H2}
    (ht : HashTable (DoubleHashFunction.t H1 H2)) (k : Z) :
  0 ≤ k ≤ 31 →
  DoubleHashFunction.M (prHashFunc ht) = 2 ^ k → length ht = 2 ^ k →
  cyclic_probing ht ∧ covering_probing ht.
Proof.
  intros Hk HM Hlen. assert (0 < 2 ^ k) by (apply Z.pow_pos_nonneg; lia).
  split.
  - intros key t. rewrite Hlen. simpl. split.
    + rewrite <- HM. apply double_call_range. lia.
    + rewrite !(double_call_mod _ k) by (done || lia).
      apply affine_mod_trial. lia.
  - intros key j Hj. rewrite Hlen in *. simpl.
    destruct (affine_covers k
      (hash (DoubleHashFunction.hFunc1 (prHashFunc ht)) key)
      (DoubleHashFunction.Oddify
         (hash (DoubleHashFunction.hFunc2 (prHashFunc ht)) key)) j)
      as (t & Ht & Hjt); try done; try lia; [apply Oddify_odd|].
    exists t. split; [done|]. by rewrite (double_call_mod _ k) by (done || lia).
Qed.

Lemma tombstone_then_key_sized : well_sized tombstone_then_key.
Proof. split; [split; reflexivity|reflexivity]. Qed.

Lemma tombstone_then_key_probing :
  cyclic_probing tombstone_then_key ∧ covering_probing tombstone_then_key.
Proof. apply (linear_table_probing tombstone_then_key 3); [lia|done..]. Qed.

End ProbingTables.

Section OpenSearchTheorems.
Import OpenAddressing.
Context {P : Type} `{ProbingHashFunction P}.
Implicit Types ht : HashTable P.

(** X8.  On a table with [0 < length < 2^32], [find_index] returns
    within [length] trials, with [length] or an index whose slot holds
    the key; so [find] returns the key or INVALID_KEY, never another
    key. *)
Theorem open_find_returns_key_or_invalid (fuel : nat) ht (key : Z) :
  0 < length ht < 2 ^ 32 → length ht ≤ Z.of_nat fuel →
  ∃ r v, find_index fuel ht key = Some r
         ∧ (r = length ht ∨ slot (hashTable ht) r = key)
         ∧ find fuel ht key = Some v
         ∧ (v = key ∨ v = INVALID_KEY).
Proof.
  intros Hlen Hfuel.
  destruct (find_index_loop_returns ht key fuel 0) as (r & Hr & Hcase);
    try lia.
  exists r. eexists. split; [done|]. split; [done|].
  unfold find, find_index. rewrite Hr. simpl. split; [done|].
  destruct (Z.ltb_spec r (length ht)); [|by right].
  destruct Hcase as [->|Hs]; [lia|by left].
Qed.

(** X9.  [find] of a key that no slot holds returns INVALID_KEY. *)
Theorem open_find_absent (fuel : nat) ht (key : Z) :
  0 < length ht < 2 ^ 32 → length ht ≤ Z.of_nat fuel →
  key ∉ hashTable ht →
  find fuel ht key = Some INVALID_KEY.
Proof.
  intros Hlen Hfuel Habs. by apply find_absent_invalid.
Qed.

(** X10.  [insert] of a key that [find] reports present, on a table
    less than half full, returns the table as it is. *)
Theorem open_insert_present_unchanged (fuel : nat) ht (key : Z) :
  find (S fuel) ht key = Some key → key ≠ INVALID_KEY →
  load_factor_ge_half ht = false →
  insert (S fuel) ht key = Some ht.
Proof.
  intros Hfind Hkey Hload.
  destruct (find_found ht key (S fuel) Hfind Hkey) as (i & Hi & Hlt).
  remember (S fuel) as fuel1 eqn:Hfuel1. rewrite Hfuel1.
  cbn [insert]. unfold grow_with. rewrite Hload. cbn [mbind option_bind].
  rewrite <- Hfuel1.
  by rewrite (insert_loop_found ht key fuel1 0 i Hi Hlt).
Qed.

(** X11.  After [insert(key)] has returned a table that is well sized
    and probes cyclically, [find(key)] returns the key. *)
Theorem open_insert_then_find (fuel fuel' : nat) ht ht' (key : Z) :
  insert fuel ht key = Some ht' →
  well_sized ht' → cyclic_probing ht' →
  length ht' ≤ Z.of_nat fuel' →
  find fuel' ht' key = Some key.
Proof.
  intros Hins [Hlen Harr] Hcyc Hfuel.
  destruct (Z.eq_dec key FREE_MARKER) as [->|Hkey].
  { destruct (find_index_loop_returns ht' FREE_MARKER fuel' 0)
      as (r & Hr & Hcase); try lia.
    unfold find, find_index. rewrite Hr. simpl.
    destruct (Z.ltb_spec r (length ht')); [|done].
    destruct Hcase as [->|Hs]; [lia|by rewrite Hs]. }
  destruct fuel as [|fuel]; [done|]. cbn [insert] in Hins.
  destruct (grow_with (insert fuel) fuel ht) as [ht1|]; [|done].
  cbn [mbind option_bind] in Hins.
  destruct (insert_loop (S fuel) ht1 key 0) as [r|] eqn:Hloop; [|done].
  cbn [mbind option_bind] in Hins. injection Hins as Hht'.
  assert (length ht1 = length ht' ∧ prHashFunc ht1 = prHashFunc ht') as [Hl Hp]
    by (subst ht'; by destruct r).
  assert (cyclic_probing ht1) as Hcyc1.
  { intros k t. rewrite Hl, Hp. apply Hcyc. }
  destruct (insert_loop_stop_trial ht1 key (S fuel) r)
    as (t & Ht & Hbefore & Hstop & Hr); [lia|done|done|].
  destruct (Hcyc1 key t) as [Hrange _].
  set (index := probing_hash (prHashFunc ht1) key t) in *.
  assert (find_index fuel' ht' key = Some index ∧ slot (hashTable ht') index = key)
    as [Hfi Hslot].
  { unfold find_index.
    destruct (Z.eqb_spec (slot (hashTable ht1) index) key) as [E|Hne];
      subst r ht'.
    - split; [|done]. apply find_index_loop_hits; try done; lia.
    - destruct Hstop as [?|Hfree]; [done|].
      simpl in Harr. rewrite length_insert in Harr.
      assert (slot (<[Z.to_nat index:=key]> (hashTable ht1)) index = key)
        as Hnew by (apply slot_insert_eq; lia).
      split; [|done].
      apply (find_index_loop_hits (place ht1 index key) key t); simpl;
        try done; try lia.
      intros t' Ht'. destruct (Hbefore t') as [Hk Hf]; [lia|].
      rewrite slot_insert_ne; [done|].
      intros E. apply Hf. rewrite <- Hfree. by apply slot_same_index. }
  unfold find. rewrite Hfi. simpl. rewrite <- Hl.
  destruct (Z.ltb_spec index (length ht1)); [|lia]. by rewrite Hslot.
Qed.

End OpenSearchTheorems.

Section OpenUpdateTheorems.
Import OpenAddressing.
Context {P : Type} `{ProbingHashFunction P}.
Implicit Types ht : HashTable P.

Lemma remove_found fuel ht key i :
  find_index fuel ht key = Some i → i < length ht →
  remove fuel ht key
  = if shrinks_after_remove ht
    then rehash fuel (length ht / 4) (marked_deleted ht i)
    else Some (marked_deleted ht i).
Proof.
  intros Hfi Hi. unfold remove. rewrite Hfi. cbn [mbind option_bind].
  destruct (Z.leb_spec (length ht) i); [lia|]. done.
Qed.

(** X12.  After [remove(key)] of a key that [find] reports present and
    that one slot only holds, [find(key)] returns INVALID_KEY, whether
    or not [remove] rebuilt the table. *)
Theorem open_remove_then_find (fuel fuel' : nat) ht ht' (key : Z) :
  find fuel ht key = Some key →
  key ≠ FREE_MARKER → key ≠ DEL_MARKER → in_one_slot ht key →
  remove fuel ht key = Some ht' →
  0 < length ht' < 2 ^ 32 → length ht' ≤ Z.of_nat fuel' →
  (key ∉ hashTable ht') ∧ find fuel' ht' key = Some INVALID_KEY.
Proof.
  intros Hfind Hfree Hdel Hone Hrem Hlen Hfuel.
  destruct (find_found ht key fuel Hfind Hfree) as (i & Hi & Hlt).
  assert (hashTable ht !! Z.to_nat i = Some key) as Hslot.
  { apply slot_lookup; [|done]. revert Hfind. unfold find. rewrite Hi. simpl.
    destruct (Z.ltb_spec i (length ht)); [congruence|lia]. }
  assert (key ∉ hashTable (marked_deleted ht i)) as Hgone.
  { simpl. intros (j & Hj)%list_elem_of_lookup_1.
    apply list_lookup_insert_Some in Hj as [(_ & ? & _)|[Hne Hj]]; [done|].
    apply Hne. by apply Hone. }
  rewrite (remove_found fuel ht key i Hi Hlt) in Hrem.
  assert (key ∉ hashTable ht') as Habs.
  { destruct (shrinks_after_remove ht).
    - intros Hin.
      by apply (rehash_values fuel _ _ ht' (λ v, v ≠ key) Hrem) in Hin;
        [| |intros v Hv _ ->].
    - by injection Hrem as <-. }
  split; [done|].
  destruct (find_index_loop_returns ht' key fuel' 0) as (r & Hr & Hcase);
    try lia.
  unfold find, find_index. rewrite Hr. simpl.
  destruct (Z.ltb_spec r (length ht')); [|done].
  destruct Hcase as [->|Hs]; [lia|].
  exfalso. apply Habs. eapply list_elem_of_lookup_2. by apply slot_lookup.
Qed.

(** X13.  A tombstone does not break a probe chain: when [remove(key)]
    does not rebuild, every other key that [find] reported present is
    still found. *)
Theorem open_remove_keeps_others (fuel : nat) ht ht' (key other : Z) :
  0 < length ht < 2 ^ 32 →
  find fuel ht other = Some other →
  other ≠ FREE_MARKER → other ≠ DEL_MARKER → other ≠ key →
  shrinks_after_remove ht = false →
  remove fuel ht key = Some ht' →
  find fuel ht' other = Some other.
Proof.
  intros Hlen Hfind Hfree Hdel Hne Hshrink Hrem.
  destruct (find_index fuel ht key) as [i|] eqn:Hi;
    [|by unfold remove in Hrem; rewrite Hi in Hrem].
  destruct (Z_lt_le_dec i (length ht)) as [Hlt|Hge].
  2:{ unfold remove in Hrem. rewrite Hi in Hrem. cbn in Hrem.
      destruct (Z.leb_spec (length ht) i); [|lia]. by injection Hrem as <-. }
  rewrite (remove_found fuel ht key i Hi Hlt), Hshrink in Hrem.
  injection Hrem as <-.
  destruct (find_index_loop_trace ht key fuel 0 i)
    as (tk & _ & _ & _ & Hkey & ->); try done; try lia.
  destruct (find_found ht other fuel Hfind Hfree) as (j & Hj & Hjlt).
  destruct (find_index_loop_trace ht other fuel 0 j)
    as (t & Ht & Htf & Hbefore & Hother & ->); try done; try lia.
  set (i := probing_hash (prHashFunc ht) key _) in *.
  assert (find_index fuel (marked_deleted ht i) other
          = Some (probing_hash (prHashFunc ht) other t)
          ∧ slot (hashTable (marked_deleted ht i))
              (probing_hash (prHashFunc ht) other t) = other) as [Hfi Hs].
  { assert (slot (hashTable (marked_deleted ht i))
              (probing_hash (prHashFunc ht) other t) = other) as Hs.
    { simpl. rewrite slot_insert_ne; [done|]. intros E.
      apply Hne. rewrite <- Hother, <- Hkey. by apply slot_same_index. }
    split; [|done].
    apply (find_index_loop_hits (marked_deleted ht i) other t); simpl;
      try done; try lia.
    intros t' Ht'. destruct (Hbefore t') as [Hk Hf]; [lia|].
    destruct (slot_insert_cases (hashTable ht) i
                (probing_hash (prHashFunc ht) other t') DEL_MARKER)
      as [-> | ->]; [|done].
    split; [congruence|done]. }
  unfold find. rewrite Hfi. cbn [mbind option_bind]. rewrite Hs.
  destruct (_ <? _) eqn:Hge; [done|]. apply Z.ltb_ge in Hge. simpl in Hge. lia.
Qed.

(** X14.  When [insert(key)] does not rebuild, every other key that
    [find] reported present is still found. *)
Theorem open_insert_keeps_others (fuel : nat) ht ht' (key other : Z) :
  0 < length ht < 2 ^ 32 →
  find fuel ht other = Some other → other ≠ FREE_MARKER →
  load_factor_ge_half ht = false →
  insert fuel ht key = Some ht' →
  find fuel ht' other = Some other.
Proof.
  intros Hlen Hfind Hfree Hload Hins.
  destruct fuel as [|fuel]; [done|].
  remember (S fuel) as fuel1 eqn:Hfuel1. rewrite Hfuel1 in Hins.
  cbn [insert] in Hins. unfold grow_with in Hins. rewrite Hload in Hins.
  cbn [mbind option_bind] in Hins. rewrite <- Hfuel1 in Hins.
  destruct (insert_loop fuel1 ht key 0) as [[index|]|] eqn:Hloop;
    cbn [mbind option_bind] in Hins; [|by injection Hins as <-|done].
  injection Hins as <-.
  apply insert_loop_result_free in Hloop.
  destruct (find_found ht other fuel1 Hfind Hfree) as (j & Hj & Hjlt).
  destruct (find_index_loop_trace ht other fuel1 0 j)
    as (t & Ht & Htf & Hbefore & Hother & ->); try done; try lia.
  assert (find_index fuel1 (place ht index key) other
          = Some (probing_hash (prHashFunc ht) other t)
          ∧ slot (hashTable (place ht index key))
              (probing_hash (prHashFunc ht) other t) = other) as [Hfi Hs].
  { assert (slot (hashTable (place ht index key))
              (probing_hash (prHashFunc ht) other t) = other) as Hs.
    { simpl. rewrite slot_insert_ne; [done|]. intros E.
      apply Hfree. rewrite <- Hother, <- Hloop. by apply slot_same_index. }
    split; [|done].
    apply (find_index_loop_hits (place ht index key) other t); simpl;
      try done; try lia.
    intros t' Ht'. destruct (Hbefore t') as [Hk Hf]; [lia|].
    rewrite slot_insert_ne; [done|]. intros E.
    apply Hf. rewrite <- Hloop. by apply slot_same_index. }
  unfold find. rewrite Hfi. cbn [mbind option_bind]. rewrite Hs.
  destruct (_ <? _) eqn:Hge; [done|]. apply Z.ltb_ge in Hge. simpl in Hge. lia.
Qed.

(** X15.  On a well-sized table whose probing covers every slot and
    that has a free slot, the probing loop of [insert] returns within
    [length] trials; [insert] itself returns when it does not
    rebuild. *)
Theorem open_insert_loop_bounded ht (key : Z) :
  well_sized ht → covering_probing ht →
  FREE_MARKER ∈ hashTable ht →
  (∃ r, insert_loop (Z.to_nat (length ht)) ht key 0 = Some r)
  ∧ (load_factor_ge_half ht = false →
     ∃ ht', insert (Z.to_nat (length ht)) ht key = Some ht').
Proof.
  intros [Hlen Harr] Hcover (j & Hj)%list_elem_of_lookup_1.
  pose proof (lookup_lt_Some _ _ _ Hj) as Hjlt.
  destruct (Hcover key (Z.of_nat j)) as (t & Ht & Hjt); [lia|].
  assert (∃ r, insert_loop (Z.to_nat (length ht)) ht key 0 = Some r)
    as [r Hr].
  { apply (insert_loop_returns ht key t); try lia.
    unfold slot. by rewrite Hjt, Nat2Z.id, Hj. }
  split; [by eauto|]. intros Hload.
  destruct (Z.to_nat (length ht)) as [|fuel] eqn:Hfuel; [lia|].
  remember (S fuel) as fuel1 eqn:Hfuel1. rewrite Hfuel1.
  cbn [insert]. unfold grow_with. rewrite Hload. cbn [mbind option_bind].
  rewrite <- Hfuel1, Hr. cbn [mbind option_bind]. by eauto.
Qed.

(** X16.  A rebuild purges the tombstones and brings in no key: every
    slot of the rebuilt array holds the free marker or a key that an
    occupied slot of the old array held. *)
Theorem open_rehash_purges_tombstones (fuel : nat) (new_length : Z) ht ht' :
  rehash fuel new_length ht = Some ht' →
  (DEL_MARKER ∉ hashTable ht')
  ∧ ∀ v, v ∈ hashTable ht' →
      v = FREE_MARKER ∨ (occupied v ∧ v ∈ hashTable ht).
Proof.
  intros Hre. unfold rehash in Hre.
  assert (∀ v, v ∈ hashTable ht' →
            v = FREE_MARKER ∨ (occupied v ∧ v ∈ hashTable ht)) as Hall.
  { apply (rehash_values fuel new_length ht ht'
             (λ v, v = FREE_MARKER ∨ (occupied v ∧ v ∈ hashTable ht)) Hre);
      [by left|]. intros v Hv Hocc. by right. }
  split; [|done]. intros [E|[[_ Hocc] _]]%Hall; done.
Qed.

End OpenUpdateTheorems.

Section OpenWitnesses.
Import OpenAddressing.

Lemma two_collided_reached :
  (new 8 linear_division ≫= run 8 [Insert 5; Insert 13]) = Some two_collided.
Proof. reflexivity. Qed.

Lemma open_find_returns_key_or_invalid_witness :
  ∃ r v, find_index 8 tombstone_then_key 13 = Some r
         ∧ (r = length tombstone_then_key
            ∨ slot (hashTable tombstone_then_key) r = 13)
         ∧ find 8 tombstone_then_key 13 = Some v
         ∧ (v = 13 ∨ v = INVALID_KEY).
Proof.
  apply (open_find_returns_key_or_invalid 8 tombstone_then_key 13).
  - split; reflexivity.
  - simpl. lia.
Defined.

Lemma open_find_absent_witness :
  find 8 tombstone_then_key 21 = Some INVALID_KEY.
Proof.
  apply (open_find_absent 8 tombstone_then_key 21).
  - split; reflexivity.
  - simpl. lia.
  - apply (bool_decide_unpack _). reflexivity.
Defined.

Lemma open_insert_present_unchanged_witness :
  insert 8 tombstone_then_key 13 = Some tombstone_then_key.
Proof.
  apply (open_insert_present_unchanged 7 tombstone_then_key 13).
  - reflexivity.
  - discriminate.
  - reflexivity.
Defined.

Lemma open_insert_then_find_witness :
  find 8 (place tombstone_then_key 7 21) 21 = Some 21.
Proof.
  apply (open_insert_then_find 3 8 tombstone_then_key
           (place tombstone_then_key 7 21) 21).
  - reflexivity.
  - split; [split; reflexivity|reflexivity].
  - apply (linear_table_probing (place tombstone_then_key 7 21) 3);
      [lia|reflexivity..].
  - simpl. lia.
Defined.

Lemma two_collided_one_slot : in_one_slot two_collided 5.
Proof.
  intros i j Hi Hj. simpl in Hi, Hj.
  assert (i = 5%nat) as ->.
  { do 8 (destruct i as [|i]; [by simplify_eq/=|]). done. }
  do 8 (destruct j as [|j]; [by simplify_eq/=|]). done.
Qed.

Lemma open_remove_then_find_witness :
  (5 ∉ hashTable tombstone_then_key)
  ∧ find 8 tombstone_then_key 5 = Some INVALID_KEY.
Proof.
  apply (open_remove_then_find 8 8 two_collided tombstone_then_key 5).
  - reflexivity.
  - discriminate.
  - discriminate.
  - exact two_collided_one_slot.
  - reflexivity.
  - split; reflexivity.
  - simpl. lia.
Defined.

Lemma open_remove_keeps_others_witness :
  find 8 tombstone_then_key 13 = Some 13.
Proof.
  apply (open_remove_keeps_others 8 two_collided tombstone_then_key 5 13).
  - split; reflexivity.
  - reflexivity.
  - discriminate.
  - discriminate.
  - discriminate.
  - reflexivity.
  - reflexivity.
Defined.

Lemma open_insert_keeps_others_witness :
  find 8 (place tombstone_then_key 7 21) 13 = Some 13.
Proof.
  apply (open_insert_keeps_others 8 tombstone_then_key
           (place tombstone_then_key 7 21) 21 13).
  - split; reflexivity.
  - reflexivity.
  - discriminate.
  - reflexivity.
  - reflexivity.
Defined.

Lemma open_insert_loop_bounded_witness :
  (∃ r, insert_loop 8 all_but_one_tombstone 8 0 = Some r)
  ∧ (load_factor_ge_half all_but_one_tombstone = false →
     ∃ ht', insert 8 all_but_one_tombstone 8 = Some ht').
Proof.
  apply (open_insert_loop_bounded all_but_one_tombstone 8).
  - split; [split; reflexivity|reflexivity].
  - apply (linear_table_probing all_but_one_tombstone 3); [lia|reflexivity..].
  - apply (bool_decide_unpack _). reflexivity.
Defined.

Lemma open_rehash_purges_tombstones_witness :
  (DEL_MARKER ∉ hashTable rebuilt_one_key)
  ∧ ∀ v, v ∈ hashTable rebuilt_one_key →
      v = FREE_MARKER ∨ (occupied v ∧ v ∈ hashTable tombstone_then_key).
Proof.
  apply (open_rehash_purges_tombstones 8 8 tombstone_then_key rebuilt_one_key).
  reflexivity.
Defined.

End OpenWitnesses.

(** ** Chaining: the state a table keeps *)

Section ChainingInvariant.
Import Chaining.
Context {H : Type} `{HashFunction H}.
Implicit Types ht : HashTable H.

Lemma concat_middle (tbl : list (list Z)) i chain :
  tbl !! i = Some chain →
  concat tbl = concat (take i tbl) ++ chain ++ concat (drop (S i) tbl).
Proof.
  intros Hi. rewrite <- (take_drop_middle tbl i chain Hi) at 1.
  by rewrite concat_app.
Qed.

Lemma concat_insert_middle (tbl : list (list Z)) i chain :
  (i < List.length tbl)%nat →
  concat (<[i:=chain]> tbl)
  = concat (take i tbl) ++ chain ++ concat (drop (S i) tbl).
Proof.
  intros Hi. rewrite insert_take_drop by done. by rewrite concat_app.
Qed.

Lemma alter_as_insert (f : list Z → list Z) (tbl : list (list Z)) i chain :
  tbl !! i = Some chain → alter f i tbl = <[i := f chain]> tbl.
Proof.
  intros Hi. apply list_eq. intros j.
  destruct (decide (i = j)) as [<-|Hne].
  - rewrite list_lookup_alter_eq, Hi, list_lookup_insert_eq; [done|].
    by eapply lookup_lt_Some.
  - by rewrite list_lookup_alter_ne, list_lookup_insert_ne.
Qed.

Lemma elem_of_concat (tbl : list (list Z)) key :
  key ∈ concat tbl ↔ ∃ i chain, tbl !! i = Some chain ∧ key ∈ chain.
Proof.
  rewrite list_elem_of_In, in_concat. split.
  - intros (chain & Hc%list_elem_of_In & Hk%list_elem_of_In).
    apply list_elem_of_lookup_1 in Hc as [i Hi]. by eauto.
  - intros (i & chain & Hi & Hk). exists chain.
    split; apply list_elem_of_In; [by eapply list_elem_of_lookup_2|done].
Qed.

(** [find] on a well-formed table. *)
Lemma find_present ht key :
  chains_well_formed ht → key ∈ keys ht → find ht key = key.
Proof.
  intros (_ & _ & _ & Hbucket & _) (i & chain & Hi & Hk)%elem_of_concat.
  apply find_stored. unfold stored, chain_at.
  by rewrite (Hbucket i chain key Hi Hk), Hi.
Qed.

Lemma find_missing ht key :
  key ∉ keys ht → find ht key = INVALID_KEY.
Proof.
  intros Habs. unfold find, find_chain, chain_at.
  destruct (list_find _ _) as [[i x]|] eqn:Hfind; [|done].
  apply list_find_Some in Hfind as (Hx & -> & _).
  destruct (hashTable ht !! Z.to_nat (hash (hashFunc ht) key)) as [chain|] eqn:E;
    simpl in Hx; [|done].
  exfalso. apply Habs. apply elem_of_concat.
  exists (Z.to_nat (hash (hashFunc ht) key)), chain.
  split; [done|]. by eapply list_elem_of_lookup_2.
Qed.

(** [push_back] on an array that the hash function maps into. *)
Lemma push_back_keys ht key :
  0 ≤ hash (hashFunc ht) key < Z.of_nat (List.length (hashTable ht)) →
  keys (push_back ht key) ≡ₚ key :: keys ht.
Proof.
  intros Hr. unfold keys, push_back. simpl.
  destruct (lookup_lt_is_Some_2 (hashTable ht) (Z.to_nat (hash (hashFunc ht) key)))
    as [chain Hc]; [lia|].
  rewrite (alter_as_insert _ _ _ chain Hc).
  rewrite concat_insert_middle by (by eapply lookup_lt_Some).
  rewrite (concat_middle _ _ chain Hc).
  rewrite <- !app_assoc. simpl.
  rewrite (Permutation_app_comm (concat (take _ _)) (chain ++ _)).
  rewrite <- app_assoc.
  rewrite (Permutation_app_comm chain).
  rewrite <- !app_assoc. simpl.
  rewrite (Permutation_app_comm (concat (drop _ _)) (concat (take _ _) ++ chain)).
  rewrite <- app_assoc.
  rewrite (Permutation_app_comm (concat (take _ _)) (chain ++ _)).
  by rewrite <- app_assoc.
Qed.

Lemma push_back_well_formed ht key :
  chains_well_formed ht → num_entries ht < length ht →
  chains_well_formed (push_back ht key).
Proof.
  intros (Hpow & Harr & Hrange & Hbucket & Hcount & Hload) Hroom.
  assert (length ht < 2 ^ 32) as Hlen.
  { destruct Hpow as (k & Hk & ->).
    apply Z.lt_le_trans with (2 ^ 32); [|done].
    apply Z.pow_lt_mono_r; lia. }
  assert (0 ≤ hash (hashFunc ht) key < Z.of_nat (List.length (hashTable ht)))
    as Hr by (specialize (Hrange key); lia).
  split; [done|]. split; [by simpl; rewrite length_alter|].
  split; [done|]. split; [|split].
  - intros i chain k Hi Hk. simpl in *.
    destruct (decide (Z.to_nat (hash (hashFunc ht) key) = i)) as [<-|Hne].
    + rewrite list_lookup_alter_eq in Hi.
      destruct (hashTable ht !! Z.to_nat (hash (hashFunc ht) key))
        as [old|] eqn:E; simpl in Hi; [|done].
      injection Hi as <-. apply elem_of_app in Hk as [Hk|Hk].
      * by eapply Hbucket.
      * by apply list_elem_of_singleton in Hk as ->.
    + rewrite list_lookup_alter_ne in Hi by done. by eapply Hbucket.
  - rewrite (Permutation_length (push_back_keys ht key Hr)).
    cbn [push_back num_entries List.length]. rewrite wrap32_small; lia.
  - cbn [push_back num_entries length]. rewrite wrap32_small; lia.
Qed.

Lemma foldl_push_back_well_formed ks : ∀ ht,
  chains_well_formed ht →
  num_entries ht + Z.of_nat (List.length ks) ≤ length ht →
  chains_well_formed (foldl push_back ht ks)
  ∧ keys (foldl push_back ht ks) ≡ₚ ks ++ keys ht.
Proof.
  induction ks as [|key ks IH]; intros ht Hwf Hroom; [done|].
  simpl in Hroom. cbn [foldl].
  pose proof Hwf as (Hpow & Harr & Hrange & _ & Hcount & _).
  assert (length ht < 2 ^ 32) as Hlen.
  { destruct Hpow as (k & Hk & ->).
    apply Z.lt_le_trans with (2 ^ 32); [|done].
    apply Z.pow_lt_mono_r; lia. }
  destruct (IH (push_back ht key)) as [Hwf' Hkeys].
  - apply push_back_well_formed; [done|lia].
  - cbn [push_back num_entries length]. rewrite wrap32_small; lia.
  - split; [done|]. rewrite Hkeys, push_back_keys.
    + symmetry. apply Permutation_middle.
    + specialize (Hrange key). lia.
Qed.

(** The empty table that [rehash] starts from. *)
Lemma fresh_well_formed (k : Z) (hf : H) :
  3 ≤ k ≤ 31 → (∀ key, 0 ≤ hash hf key < 2 ^ k) →
  chains_well_formed
    (mkHashTable (2 ^ k) 0 hf (replicate (Z.to_nat (2 ^ k)) [])).
Proof.
  intros Hk Hrange. assert (0 < 2 ^ k) by (apply Z.pow_pos_nonneg; lia).
  split; [by exists k|]. split; [by simpl; rewrite length_replicate|].
  split; [done|]. split; [|split].
  - intros i chain key [-> _]%lookup_replicate Hkey.
    by apply elem_of_nil in Hkey.
  - simpl. unfold keys. simpl.
    assert (∀ n, concat (replicate n (@nil Z)) = []) as ->; [|done].
    induction n; [done|]. by simpl.
  - simpl. lia.
Qed.

(** A rebuild of a well-formed table at a size that has room for its
    keys. *)
Lemma rehash_well_formed fuel ht (k : Z) :
  chains_well_formed ht → resizes_well (S fuel) → 3 ≤ k ≤ 31 →
  num_entries ht ≤ 2 ^ k →
  ∃ ht', rehash (S fuel) (2 ^ k) ht = Some ht'
         ∧ chains_well_formed ht' ∧ keys ht' ≡ₚ keys ht
         ∧ length ht' = 2 ^ k.
Proof.
  intros (Hpow & Harr & _ & _ & Hcount & _) Hresize Hk Hroom.
  destruct (Hresize k (hashFunc ht) Hk) as (hf & Hupd & Hrange).
  set (fresh := mkHashTable (2 ^ k) 0 hf (replicate (Z.to_nat (2 ^ k)) [])).
  pose proof (fresh_well_formed k hf Hk Hrange) as Hfresh. fold fresh in Hfresh.
  assert (2 ^ k < 2 ^ 32).
  { apply Z.lt_le_trans with (2 ^ 32); [|done]. apply Z.pow_lt_mono_r; lia. }
  destruct (foldl_push_back_well_formed (keys ht) fresh) as [Hwf Hkeys];
    [done|simpl; lia|].
  exists (foldl push_back fresh (keys ht)). split; [|split; [done|split]].
  - unfold rehash, rehash_with. rewrite Hupd. cbn [mbind option_bind].
    rewrite take_ge by lia. fold (keys ht). fold fresh.
    apply insert_all_no_grow; simpl; lia.
  - rewrite Hkeys. unfold keys at 2. simpl.
    assert (∀ n, concat (replicate n (@nil Z)) = []) as ->.
    { induction n; [done|]. by simpl. }
    by rewrite app_nil_r.
  - by destruct (foldl_push_back_fields (keys ht) fresh) as (-> & _).
Qed.

Lemma pow2_table_size (k : Z) : 3 ≤ k ≤ 31 → 8 ≤ 2 ^ k < 2 ^ 32.
Proof.
  intros Hk. split.
  - change 8 with (2 ^ 3). apply Z.pow_le_mono_r; lia.
  - apply Z.pow_lt_mono_r; lia.
Qed.

(** [insert] on a well-formed table. *)
Lemma insert_well_formed fuel ht key :
  chains_well_formed ht → resizes_well (S fuel) →
  2 * length ht < 2 ^ 32 →
  ∃ ht', insert (S (S fuel)) ht key = Some ht'
         ∧ chains_well_formed ht'
         ∧ keys ht' ≡ₚ key :: keys ht
         ∧ length ht' = (if grows_on_insert ht then 2 * length ht else length ht)
         ∧ num_entries ht' = num_entries ht + 1.
Proof.
  intros Hwf Hresize Hlen2.
  pose proof Hwf as ((k & Hk & Hlenk) & Harr & Hrange & _ & Hcount & Hload).
  pose proof (pow2_table_size k Hk) as Hsize.
  unfold grows_on_insert.
  destruct (Z.eqb_spec (length ht) (num_entries ht)) as [Hfull|Hroom].
  - assert (k + 1 ≤ 31) as Hk1.
    { rewrite Hlenk in Hlen2. replace (2 * 2 ^ k) with (2 ^ (k + 1)) in Hlen2
        by (rewrite Z.pow_add_r by lia; lia).
      apply Z.pow_lt_mono_r_iff in Hlen2; lia. }
    assert (2 * length ht = 2 ^ (k + 1)) as Hdouble
      by (rewrite Hlenk, Z.pow_add_r by lia; lia).
    destruct (rehash_well_formed fuel ht (k + 1))
      as (ht1 & Hre & Hwf1 & Hkeys1 & Hlen1); try done; try lia.
    pose proof Hwf1 as (_ & Harr1 & Hrange1 & _ & Hcount1 & _).
    assert (num_entries ht1 = num_entries ht) as Hn1
      by (rewrite Hcount1, Hcount, (Permutation_length Hkeys1); done).
    exists (push_back ht1 key). split; [|split; [|split; [|split]]].
    + remember (S fuel) as fuel1 eqn:Hfuel1. cbn [insert].
      rewrite Hfull, Z.eqb_refl. rewrite <- Hfull.
      rewrite (wrap32_small (2 * length ht)) by lia. rewrite Hdouble.
      unfold rehash in Hre. by rewrite Hre.
    + apply push_back_well_formed; [done|]. lia.
    + rewrite push_back_keys; [by rewrite Hkeys1|].
      specialize (Hrange1 key). lia.
    + simpl. lia.
    + cbn [push_back num_entries]. rewrite wrap32_small; lia.
  - exists (push_back ht key). rewrite insert_no_grow by done.
    split; [done|]. split; [apply push_back_well_formed; [done|lia]|].
    split; [apply push_back_keys; specialize (Hrange key); lia|].
    split; [done|]. cbn [push_back num_entries]. rewrite wrap32_small; lia.
Qed.

Lemma elem_of_delete_inv (chain : list Z) i k :
  k ∈ delete i chain → k ∈ chain.
Proof.
  rewrite delete_take_drop.
  intros [Hk%subseteq_take|Hk%subseteq_drop]%elem_of_app; done.
Qed.

(** [remove] of a key that the table holds. *)
Lemma remove_well_formed fuel ht key :
  chains_well_formed ht → key ∈ keys ht → resizes_well (S fuel) →
  ∃ ht', remove (S fuel) ht key = Some ht'
         ∧ chains_well_formed ht'
         ∧ keys ht ≡ₚ key :: keys ht'
         ∧ length ht' = (if shrinks_on_remove ht then length ht / 2 else length ht)
         ∧ num_entries ht' = num_entries ht - 1.
Proof.
  intros Hwf Hin Hresize.
  pose proof Hwf as ((k & Hk & Hlenk) & Harr & Hrange & Hbucket & Hcount & Hload).
  pose proof (pow2_table_size k Hk) as Hsize.
  pose proof Hin as (i & chain & Hi & Hkc)%elem_of_concat.
  pose proof (Hbucket i chain key Hi Hkc) as Hhash.
  destruct (list_find_elem_of (λ entry, entry = key) chain key Hkc eq_refl)
    as [[itr x] Hfind].
  pose proof Hfind as (Hitr & -> & _)%list_find_Some.
  set (tbl := <[i := delete itr chain]> (hashTable ht)).
  set (ht_m := mkHashTable (length ht) (wrap32 (num_entries ht - 1))
                 (hashFunc ht) tbl).
  assert (keys ht ≡ₚ key :: keys ht_m) as Hkeys.
  { unfold keys. simpl. unfold tbl.
    rewrite concat_insert_middle by (by eapply lookup_lt_Some).
    rewrite (concat_middle _ _ chain Hi).
    rewrite (delete_Permutation chain itr key Hitr) at 1.
    simpl. symmetry. apply Permutation_middle. }
  assert (1 ≤ num_entries ht) as Hpos.
  { rewrite Hcount, (Permutation_length Hkeys). simpl. lia. }
  assert (num_entries ht_m = num_entries ht - 1) as Hnm
    by (simpl; rewrite wrap32_small; lia).
  assert (chains_well_formed ht_m) as Hwfm.
  { split; [by exists k|]. split; [by simpl; unfold tbl; rewrite length_insert|].
    split; [done|]. split; [|split].
    - intros i' chain' k' Hi' Hk'. simpl in *. unfold tbl in Hi'.
      apply list_lookup_insert_Some in Hi' as [(<- & <- & _)|[_ Hi']].
      + apply elem_of_delete_inv in Hk'. by eapply Hbucket.
      + by eapply Hbucket.
    - rewrite Hnm, Hcount, (Permutation_length Hkeys). simpl. lia.
    - rewrite Hnm. simpl. lia. }
  assert (remove (S fuel) ht key
          = if shrinks_on_remove ht then rehash (S fuel) (length ht / 2) ht_m
            else Some ht_m) as Hrem.
  { unfold remove, chain_at. rewrite Hhash, Hi. simpl.
    unfold find_chain. rewrite Hfind. done. }
  rewrite Hrem. unfold shrinks_on_remove.
  rewrite (wrap32_small (num_entries ht - 1)) by lia.
  destruct (Z.ltb_spec MIN_LENGTH (length ht)) as [Hbig|Hsmall]; simpl;
    [|by exists ht_m].
  destruct (Z.leb_spec (num_entries ht - 1) (length ht / 4)) as [Hsparse|Hdense];
    [|by exists ht_m].
  assert (4 ≤ k) as Hk4.
  { destruct (Z_lt_le_dec k 4); [|done]. assert (k = 3) as -> by lia.
    rewrite Hlenk in Hbig. unfold MIN_LENGTH in Hbig. simpl in Hbig. lia. }
  assert (length ht / 2 = 2 ^ (k - 1)) as Hhalf.
  { rewrite Hlenk. replace k with (k - 1 + 1) at 1 by lia.
    rewrite Z.pow_add_r by lia. simpl. by rewrite Z.div_mul. }
  assert (length ht / 4 ≤ 2 ^ (k - 1)) as Hquarter.
  { rewrite <- Hhalf. apply Z.div_le_compat_l; lia. }
  destruct (rehash_well_formed fuel ht_m (k - 1))
    as (ht' & Hre & Hwf' & Hkeys' & Hlen'); try done; try lia.
  exists ht'. rewrite Hhalf. split; [done|]. split; [done|].
  split; [by rewrite Hkeys'|]. split; [done|].
  destruct Hwf' as (_ & _ & _ & _ & -> & _).
  rewrite (Permutation_length Hkeys').
  destruct Hwfm as (_ & _ & _ & _ & <- & _). done.
Qed.

End ChainingInvariant.

Section ChainingTheorems.
Import Chaining.
Context {H : Type} `{HashFunction H}.
Implicit Types ht : HashTable H.

Lemma find_same_keys ht ht' k :
  chains_well_formed ht → chains_well_formed ht' →
  (k ∈ keys ht ↔ k ∈ keys ht') → find ht' k = find ht k.
Proof.
  intros Hwf Hwf' Hiff.
  destruct (decide (k ∈ keys ht)) as [Hin|Hout].
  - rewrite !find_present; try done. by apply Hiff.
  - rewrite !find_missing; try done. by rewrite <- Hiff.
Qed.

(** A sequence of [insert] calls that starts on a well-formed table no
    longer than twice its count (or of minimum length). *)
Lemma insert_all_well_formed fuel ks : ∀ ht,
  chains_well_formed ht →
  length ht = MIN_LENGTH ∨ length ht ≤ 2 * num_entries ht →
  resizes_well (S fuel) →
  num_entries ht + Z.of_nat (List.length ks) ≤ 2 ^ 30 →
  ∃ ht', insert_all (insert (S (S fuel))) ks ht = Some ht'
         ∧ chains_well_formed ht' ∧ keys ht' ≡ₚ ks ++ keys ht.
Proof.
  induction ks as [|key ks IH]; intros ht Hwf Hshort Hresize Hroom;
    [by exists ht|].
  simpl in Hroom.
  destruct (insert_well_formed fuel ht key)
    as (ht1 & Hins & Hwf1 & Hkeys1 & Hlen1 & Hn1); try done.
  { destruct Hshort as [->|?]; [done|lia]. }
  destruct (IH ht1) as (ht' & Hall & Hwf' & Hkeys'); try done; try lia.
  { rewrite Hlen1, Hn1. unfold grows_on_insert.
    destruct (Z.eqb_spec (length ht) (num_entries ht)); lia. }
  exists ht'. cbn [insert_all]. rewrite Hins. cbn [mbind option_bind].
  split; [done|]. split; [done|].
  rewrite Hkeys', Hkeys1. symmetry. apply Permutation_middle.
Qed.

(** X17.  On a well-formed chaining table [find] returns the key when
    some chain holds it and INVALID_KEY when none does. *)
Theorem chain_find_present_or_invalid ht (key : Z) :
  chains_well_formed ht →
  (key ∈ keys ht → find ht key = key)
  ∧ (key ∉ keys ht → find ht key = INVALID_KEY).
Proof.
  intros Hwf. split; [by apply find_present|by apply find_missing].
Qed.

(** X18.  [insert] on a well-formed chaining table returns a
    well-formed table that holds the old keys and the new one; the
    length doubles exactly when the table was full; the new key is
    found and [find] answers as before for every other key. *)
Theorem chain_insert_keeps_well_formed (fuel : nat) ht (key : Z) :
  chains_well_formed ht → resizes_well (S fuel) →
  2 * length ht < 2 ^ 32 →
  ∃ ht', insert (S (S fuel)) ht key = Some ht'
         ∧ chains_well_formed ht'
         ∧ keys ht' ≡ₚ key :: keys ht
         ∧ length ht' = (if grows_on_insert ht then 2 * length ht else length ht)
         ∧ num_entries ht' = num_entries ht + 1
         ∧ find ht' key = key
         ∧ ∀ k, k ≠ key → find ht' k = find ht k.
Proof.
  intros Hwf Hresize Hlen.
  destruct (insert_well_formed fuel ht key Hwf Hresize Hlen)
    as (ht' & Hins & Hwf' & Hkeys & Hlen' & Hn').
  exists ht'. do 5 (split; [done|]). split.
  - apply find_present; [done|]. rewrite Hkeys. by left.
  - intros k Hne. apply find_same_keys; try done.
    rewrite Hkeys, elem_of_cons. split; [by right|by intros [?|?]].
Qed.

(** X19.  [remove] of a key held by a well-formed chaining table
    returns a well-formed table with one occurrence of the key less;
    the length halves exactly when the shrink test holds, and [find]
    answers as before for every other key. *)
Theorem chain_remove_present (fuel : nat) ht (key : Z) :
  chains_well_formed ht → key ∈ keys ht → resizes_well (S fuel) →
  ∃ ht', remove (S fuel) ht key = Some ht'
         ∧ chains_well_formed ht'
         ∧ keys ht ≡ₚ key :: keys ht'
         ∧ length ht' = (if shrinks_on_remove ht then length ht / 2 else length ht)
         ∧ num_entries ht' = num_entries ht - 1
         ∧ ∀ k, k ≠ key → find ht' k = find ht k.
Proof.
  intros Hwf Hin Hresize.
  destruct (remove_well_formed fuel ht key Hwf Hin Hresize)
    as (ht' & Hrem & Hwf' & Hkeys & Hlen' & Hn').
  exists ht'. do 5 (split; [done|]).
  intros k Hne. apply find_same_keys; try done.
  rewrite Hkeys, elem_of_cons. split; [by intros [?|?]|by right].
Qed.

(** X20.  The keys inserted into a new chaining table, up to [2^30] of
    them, are all found afterwards, each key that was not inserted is
    reported absent, and [num_entries] is their number. *)
Theorem chain_inserted_keys_found (fuel0 fuel : nat) (ks : list Z) :
  constructs_well fuel0 → resizes_well (S fuel) →
  Z.of_nat (List.length ks) ≤ 2 ^ 30 →
  ∃ ht0 ht, new fuel0 = Some ht0
            ∧ insert_all (insert (S (S fuel))) ks ht0 = Some ht
            ∧ chains_well_formed ht
            ∧ keys ht ≡ₚ ks
            ∧ num_entries ht = Z.of_nat (List.length ks)
            ∧ (∀ k, k ∈ ks → find ht k = k)
            ∧ (∀ k, k ∉ ks → find ht k = INVALID_KEY).
Proof.
  intros (hf & Hnew & Hrange) Hresize Hlen.
  set (ht0 := mkHashTable MIN_LENGTH 0 hf (replicate (Z.to_nat MIN_LENGTH) [])).
  assert (chains_well_formed ht0) as Hwf0 by (by apply (fresh_well_formed 3)).
  destruct (insert_all_well_formed fuel ks ht0) as (ht & Hall & Hwf & Hkeys);
    try done; [by left|].
  assert (keys ht ≡ₚ ks) as Hkeys' by (by rewrite Hkeys, app_nil_r).
  exists ht0, ht. split; [by unfold new; rewrite Hnew|]. split; [done|].
  split; [done|]. split; [done|]. split; [|split].
  - destruct Hwf as (_ & _ & _ & _ & -> & _). by rewrite Hkeys'.
  - intros k Hk. apply find_present; [done|]. by rewrite Hkeys'.
  - intros k Hk. apply find_missing. by rewrite Hkeys'.
Qed.

(** X21.  A well-formed chaining table that is compact (of minimum
    length, or more than a quarter full) stays compact through
    [insert] and through [remove] of a key it holds. *)
Theorem chain_stays_compact (fuel : nat) ht ht' (key : Z) :
  chains_well_formed ht → compact ht → resizes_well (S fuel) →
  2 * length ht < 2 ^ 32 →
  insert (S (S fuel)) ht key = Some ht'
  ∨ (key ∈ keys ht ∧ remove (S fuel) ht key = Some ht') →
  compact ht'.
Proof.
  intros Hwf Hcompact Hresize Hlen2 [Hins|[Hin Hrem]].
  - destruct (insert_well_formed fuel ht key Hwf Hresize Hlen2)
      as (ht1 & Hins1 & _ & _ & Hlen' & Hn').
    rewrite Hins in Hins1. injection Hins1 as <-.
    unfold compact. rewrite Hlen', Hn'. unfold grows_on_insert.
    destruct (Z.eqb_spec (length ht) (num_entries ht)) as [Hfull|_].
    + right. destruct Hwf as ((k & Hk & Hlenk) & _).
      pose proof (pow2_table_size k Hk). lia.
    + destruct Hcompact as [?|?]; [by left|right; lia].
  - destruct (remove_well_formed fuel ht key Hwf Hin Hresize)
      as (ht1 & Hrem1 & _ & _ & Hlen' & Hn').
    rewrite Hrem in Hrem1. injection Hrem1 as <-.
    destruct Hwf as ((k & Hk & Hlenk) & _ & _ & _ & Hcount & Hload).
    pose proof (pow2_table_size k Hk) as Hsize.
    assert (1 ≤ num_entries ht) as Hpos.
    { rewrite Hcount. destruct (keys ht); [by apply elem_of_nil in Hin|].
      simpl. lia. }
    unfold compact. rewrite Hlen', Hn'. unfold shrinks_on_remove.
    rewrite (wrap32_small (num_entries ht - 1)) by lia.
    destruct (Z.ltb_spec MIN_LENGTH (length ht)) as [Hbig|Hsmall]; simpl.
    2:{ left. unfold MIN_LENGTH in *. lia. }
    assert (∃ q, 4 ≤ q ∧ length ht = 4 * q) as (q & Hq & Hlq).
    { exists (2 ^ (k - 2)).
      assert (4 ≤ k).
      { destruct (Z_lt_le_dec k 4); [|done]. assert (k = 3) as -> by lia.
        rewrite Hlenk in Hbig. unfold MIN_LENGTH in Hbig. simpl in Hbig. lia. }
      split.
      - change 4 with (2 ^ 2). apply Z.pow_le_mono_r; lia.
      - rewrite Hlenk. replace k with (2 + (k - 2)) at 1 by lia.
        rewrite Z.pow_add_r by lia. done. }
    assert (length ht / 4 = q) as Hdiv4
      by (rewrite Hlq, Z.mul_comm; apply Z.div_mul; lia).
    assert (length ht / 2 = 2 * q) as Hdiv2.
    { rewrite Hlq. replace (4 * q) with (2 * q * 2) by lia.
      apply Z.div_mul. lia. }
    rewrite Hdiv4, Hdiv2.
    destruct Hcompact as [Hmin|Hquarter]; [unfold MIN_LENGTH in *; lia|].
    destruct (Z.leb_spec (num_entries ht - 1) q); right; lia.
Qed.

End ChainingTheorems.

Section ChainingWitnesses.
Import Chaining.

(** Division and multiplication hashing can be constructed and resized
    with any fuel, and map into every table size. *)
Lemma division_resizes_well fuel :
  resizes_well (H := DivisionHashFunction.t) fuel.
Proof.
  intros k h Hk. eexists. split; [reflexivity|]. intros key.
  pose proof (pow2_table_size k Hk). apply Z.mod_pos_bound. simpl. lia.
Qed.

Lemma division_constructs_well fuel :
  constructs_well (H := DivisionHashFunction.t) fuel.
Proof.
  eexists. split; [reflexivity|]. intros key. by apply Z.mod_pos_bound.
Qed.

Lemma multiplication_resizes_well fuel :
  resizes_well (H := MultiplicationHashFunction.t) fuel.
Proof.
  intros k h Hk. eexists. split; [reflexivity|]. intros key.
  apply (multiplication_range k (MultiplicationHashFunction.R h) key). lia.
Qed.

Lemma multiplication_constructs_well fuel :
  constructs_well (H := MultiplicationHashFunction.t) fuel.
Proof.
  eexists. split; [reflexivity|]. intros key.
  apply (multiplication_range 3 0 key). lia.
Qed.

Lemma eight_keys_well_formed : chains_well_formed eight_keys.
Proof.
  split; [exists 3; by split|]. split; [reflexivity|].
  split; [intros key; by apply Z.mod_pos_bound|]. split; [|by split].
  intros i chain key Hi Hkey. simpl in Hi.
  do 8 (destruct i as [|i];
        [injection Hi as <-; by apply list_elem_of_singleton in Hkey as ->|]).
  done.
Qed.

Lemma chain_find_present_or_invalid_witness :
  find eight_keys 5 = 5 ∧ find eight_keys 9 = INVALID_KEY.
Proof.
  destruct (chain_find_present_or_invalid eight_keys 5 eight_keys_well_formed)
    as [Hin _].
  destruct (chain_find_present_or_invalid eight_keys 9 eight_keys_well_formed)
    as [_ Hout].
  split; [apply Hin|apply Hout]; apply (bool_decide_unpack _); reflexivity.
Defined.

Lemma chain_insert_keeps_well_formed_witness :
  ∃ ht', insert 2 eight_keys 8 = Some ht'
         ∧ chains_well_formed ht'
         ∧ keys ht' ≡ₚ 8 :: keys eight_keys
         ∧ length ht' = (if grows_on_insert eight_keys
                         then 2 * length eight_keys else length eight_keys)
         ∧ num_entries ht' = num_entries eight_keys + 1
         ∧ find ht' 8 = 8
         ∧ ∀ k, k ≠ 8 → find ht' k = find eight_keys k.
Proof.
  apply (chain_insert_keeps_well_formed 0 eight_keys 8).
  - exact eight_keys_well_formed.
  - apply division_resizes_well.
  - reflexivity.
Defined.

Lemma chain_remove_present_witness :
  ∃ ht', remove 1 eight_keys 5 = Some ht'
         ∧ chains_well_formed ht'
         ∧ keys eight_keys ≡ₚ 5 :: keys ht'
         ∧ length ht' = (if shrinks_on_remove eight_keys
                         then length eight_keys / 2 else length eight_keys)
         ∧ num_entries ht' = num_entries eight_keys - 1
         ∧ ∀ k, k ≠ 5 → find ht' k = find eight_keys k.
Proof.
  apply (chain_remove_present 0 eight_keys 5).
  - exact eight_keys_well_formed.
  - apply (bool_decide_unpack _). reflexivity.
  - apply division_resizes_well.
Defined.

Lemma chain_inserted_keys_found_witness :
  ∃ ht0 ht : HashTable DivisionHashFunction.t,
    new 0 = Some ht0
    ∧ insert_all (insert 2) [5; 13; 21; 29; 5; 0; 1; 2; 3] ht0 = Some ht
    ∧ chains_well_formed ht
    ∧ keys ht ≡ₚ [5; 13; 21; 29; 5; 0; 1; 2; 3]
    ∧ num_entries ht = 9
    ∧ (∀ k, k ∈ [5; 13; 21; 29; 5; 0; 1; 2; 3] → find ht k = k)
    ∧ (∀ k, k ∉ [5; 13; 21; 29; 5; 0; 1; 2; 3] → find ht k = INVALID_KEY).
Proof.
  apply (chain_inserted_keys_found 0 0 [5; 13; 21; 29; 5; 0; 1; 2; 3]).
  - apply division_constructs_well.
  - apply division_resizes_well.
  - simpl. lia.
Defined.

Lemma chain_stays_compact_witness :
  ∃ ht', insert 2 eight_keys 8 = Some ht' ∧ compact ht'.
Proof.
  eexists. split; [reflexivity|].
  eapply (chain_stays_compact 0 eight_keys _ 8).
  - exact eight_keys_well_formed.
  - right. reflexivity.
  - apply division_resizes_well.
  - reflexivity.
  - left. reflexivity.
Defined.

End ChainingWitnesses.

(** ** Open addressing: the state kept by a sequence of inserts *)

Section OpenInvariantFacts.
Import OpenAddressing.
Context {P : Type} `{ProbingHashFunction P}.
Implicit Types ht : HashTable P.

Local Abbreviation index_at ht key t := (probing_hash (prHashFunc ht) key t).
Local Abbreviation slot_at ht key t :=
  (slot (hashTable ht) (probing_hash (prHashFunc ht) key t)).

Lemma slots_in_use_free (tbl : list Z) :
  (slots_in_use tbl < List.length tbl)%nat → FREE_MARKER ∈ tbl.
Proof.
  unfold slots_in_use. induction tbl as [|x tbl IH]; simpl; [lia|].
  intros Hlt. destruct (decide (x = FREE_MARKER)) as [->|Hne]; [by left|].
  rewrite filter_cons_True in Hlt by done. simpl in Hlt.
  right. apply IH. lia.
Qed.

Lemma slots_in_use_insert (tbl : list Z) (i : nat) (v : Z) :
  tbl !! i = Some FREE_MARKER → v ≠ FREE_MARKER →
  slots_in_use (<[i := v]> tbl) = S (slots_in_use tbl).
Proof.
  intros Hi Hv. unfold slots_in_use.
  revert i Hi. induction tbl as [|x tbl IH]; intros [|i] Hi; simpl in *;
    try done.
  - injection Hi as ->. rewrite filter_cons_True by done.
    by rewrite filter_cons_False by (by intros ?).
  - rewrite !filter_cons. destruct (decide (x ≠ FREE_MARKER)); simpl;
      by rewrite IH.
Qed.

Lemma slots_in_use_new (n : Z) : slots_in_use (new_hash_table n) = 0%nat.
Proof.
  unfold new_hash_table, slots_in_use.
  induction (Z.to_nat n) as [|m IH]; simpl; [done|].
  by rewrite filter_cons_False by (by intros ?).
Qed.

Lemma occupied_in_use (tbl : list Z) :
  (List.length (filter occupied tbl) ≤ slots_in_use tbl)%nat.
Proof.
  unfold slots_in_use. induction tbl as [|x tbl IH]; simpl; [done|].
  rewrite !filter_cons.
  destruct (decide (occupied x)) as [[Hf _]|Hn];
    destruct (decide (x ≠ FREE_MARKER)); simpl; try done; lia.
Qed.

Lemma well_formed_length ht :
  slots_well_formed ht → 8 ≤ length ht < 2 ^ 32.
Proof.
  intros ((k & Hk & ->) & _). split.
  - change 8 with (2 ^ 3). apply Z.pow_le_mono_r; lia.
  - apply Z.pow_lt_mono_r; lia.
Qed.

(** Writing a key into the free slot where its probe sequence first
    stops keeps every probe chain intact. *)
Lemma place_well_formed ht key t :
  slots_well_formed ht → 0 ≤ t < length ht →
  slot_at ht key t = FREE_MARKER →
  (∀ t', 0 ≤ t' < t →
     slot_at ht key t' ≠ key ∧ slot_at ht key t' ≠ FREE_MARKER) →
  slots_well_formed (place ht (index_at ht key t) key).
Proof.
  intros (Hpow & Harr & Hcyc & Hcov & Hch) Ht Hfree Hbefore.
  split; [done|]. split; [simpl; by rewrite length_insert|].
  split; [exact Hcyc|]. split; [exact Hcov|].
  intros j v Hj Hocc. simpl in Hj |- *.
  apply list_lookup_insert_Some in Hj as [(<- & <- & Hlt)|[Hne Hj]].
  - exists t. split; [done|]. split; [done|]. intros t' Ht'.
    destruct (Hbefore t') as [Hk Hf]; [done|].
    rewrite slot_insert_ne; [done|]. intros E. apply Hf.
    rewrite <- Hfree. by apply slot_same_index.
  - destruct (Hch j v Hj Hocc) as (tv & Htv & Hjv & Hbv).
    exists tv. split; [done|]. split; [done|]. intros t' Ht'.
    destruct (Hbv t' Ht') as [Hk Hf].
    rewrite slot_insert_ne; [done|]. intros E. apply Hf.
    rewrite <- Hfree. by apply slot_same_index.
Qed.

(** On a well-formed table with a free slot, the probing loop of
    [insert] returns, and the table it leaves is well formed. *)
Lemma insert_loop_well_formed ht key fuel :
  slots_well_formed ht → all_counted ht → key ≠ FREE_MARKER →
  num_entries ht < length ht →
  length ht ≤ Z.of_nat fuel →
  ∃ r, insert_loop fuel ht key 0 = Some r
       ∧ let ht' := match r with
                    | None => ht
                    | Some index => place ht index key
                    end in
         slots_well_formed ht' ∧ all_counted ht'
         ∧ num_entries ht ≤ num_entries ht' ≤ num_entries ht + 1
         ∧ ∀ v, v ≠ FREE_MARKER →
             v ∈ hashTable ht' ↔ v = key ∨ v ∈ hashTable ht.
Proof.
  intros Hwf Hcount Hkey Hroom Hfuel.
  pose proof (well_formed_length ht Hwf) as Hlen.
  pose proof Hwf as (_ & Harr & Hcyc & Hcov & _).
  assert (FREE_MARKER ∈ hashTable ht) as (j & Hj)%list_elem_of_lookup_1.
  { apply slots_in_use_free. unfold all_counted in Hcount. lia. }
  pose proof (lookup_lt_Some _ _ _ Hj) as Hjlt.
  destruct (Hcov key (Z.of_nat j)) as (tf & Htf & Hjt); [lia|].
  destruct (insert_loop_returns ht key tf fuel 0) as [r Hr]; try lia.
  { unfold slot. by rewrite Hjt, Nat2Z.id, Hj. }
  exists r. split; [done|].
  destruct (insert_loop_stop_trial ht key fuel r)
    as (t & Ht & Hbefore & Hstop & ->); [lia|done|done|].
  destruct (Z.eqb_spec (slot_at ht key t) key) as [E|Hne]; simpl.
  - split; [done|]. split; [done|]. split; [lia|].
    intros v Hv. split; [by right|]. intros [->|?]; [|done].
    eapply list_elem_of_lookup_2. by apply slot_lookup.
  - destruct Hstop as [?|Hfree]; [done|].
    destruct (Hcyc key t) as [Hrange _].
    assert (hashTable ht !! Z.to_nat (index_at ht key t) = Some FREE_MARKER)
      as Hslot.
    { destruct (lookup_lt_is_Some_2 (hashTable ht) (Z.to_nat (index_at ht key t)))
        as [x Hx]; [lia|].
      unfold slot in Hfree. rewrite Hx in Hfree. simpl in Hfree. congruence. }
    split; [by apply place_well_formed|].
    assert (wrap32 (num_entries ht + 1) = num_entries ht + 1) as Hw.
    { apply wrap32_small. unfold all_counted in Hcount. lia. }
    split.
    { unfold all_counted. simpl.
      rewrite Hw, (slots_in_use_insert _ _ _ Hslot Hkey).
      unfold all_counted in Hcount. lia. }
    split; [rewrite Hw; lia|].
    intros v Hv. split; [apply elem_of_insert_inv|].
    intros [->|(i & Hi)%list_elem_of_lookup_1].
    + eapply list_elem_of_lookup_2. apply list_lookup_insert_eq. lia.
    + eapply (list_elem_of_lookup_2 _ i). rewrite list_lookup_insert_ne; [done|].
      intros <-. congruence.
Qed.

(** [insert] on a well-formed table less than half full. *)
Lemma insert_with_room ht key fuel :
  slots_well_formed ht → all_counted ht → key ≠ FREE_MARKER →
  load_factor_ge_half ht = false →
  length ht ≤ Z.of_nat fuel →
  ∃ ht', insert fuel ht key = Some ht'
         ∧ slots_well_formed ht' ∧ all_counted ht'
         ∧ length ht' = length ht ∧ prHashFunc ht' = prHashFunc ht
         ∧ num_entries ht ≤ num_entries ht' ≤ num_entries ht + 1
         ∧ ∀ v, v ≠ FREE_MARKER →
             v ∈ hashTable ht' ↔ v = key ∨ v ∈ hashTable ht.
Proof.
  intros Hwf Hcount Hkey Hload Hfuel.
  pose proof (well_formed_length ht Hwf) as Hlen.
  assert (num_entries ht < length ht) as Hroom.
  { unfold all_counted in Hcount. unfold load_factor_ge_half in Hload.
    destruct (Z.eqb_spec (length ht) 0); [lia|].
    apply Z.leb_gt in Hload. lia. }
  destruct fuel as [|fuel]; [lia|].
  remember (S fuel) as fuel1 eqn:Hfuel1. rewrite Hfuel1.
  cbn [insert]. unfold grow_with. rewrite Hload. cbn [mbind option_bind].
  rewrite <- Hfuel1.
  destruct (insert_loop_well_formed ht key fuel1)
    as (r & -> & Hwf' & Hcount' & Hn & Hin); try done.
  cbn [mbind option_bind]. eexists. split; [done|].
  split; [done|]. split; [done|].
  split; [by destruct r|]. split; [by destruct r|]. done.
Qed.

(** A run of inserts that leaves the table at most half full. *)
Lemma insert_all_with_room fuel : ∀ ks ht,
  slots_well_formed ht → all_counted ht →
  (∀ key, key ∈ ks → key ≠ FREE_MARKER) →
  2 * (num_entries ht + Z.of_nat (List.length ks)) ≤ length ht →
  length ht ≤ Z.of_nat fuel →
  ∃ ht', insert_all (insert fuel) ks ht = Some ht'
         ∧ slots_well_formed ht' ∧ all_counted ht'
         ∧ length ht' = length ht
         ∧ num_entries ht' ≤ num_entries ht + Z.of_nat (List.length ks)
         ∧ ∀ v, v ≠ FREE_MARKER →
             v ∈ hashTable ht' ↔ v ∈ ks ∨ v ∈ hashTable ht.
Proof.
  induction ks as [|key ks IH]; intros ht Hwf Hcount Hks Hroom Hfuel.
  { exists ht. simpl. repeat (split; [done || lia|]).
    intros v _. split; [by right|]. by intros [?%elem_of_nil|?]. }
  cbn [insert_all]. simpl in Hroom.
  pose proof (well_formed_length ht Hwf) as Hlen.
  destruct (insert_with_room ht key fuel)
    as (ht1 & -> & Hwf1 & Hcount1 & Hl1 & _ & Hn1 & Hin1); try done.
  { apply Hks. by left. }
  { unfold load_factor_ge_half. destruct (Z.eqb_spec (length ht) 0); [lia|].
    apply Z.leb_gt. unfold all_counted in Hcount. lia. }
  cbn [mbind option_bind].
  destruct (IH ht1) as (ht' & -> & Hwf' & Hcount' & Hl' & Hn' & Hin');
    try done; try lia.
  { intros k Hk. apply Hks. by right. }
  exists ht'. split; [done|]. split; [done|]. split; [done|].
  split; [lia|]. split; [simpl; lia|].
  intros v Hv. rewrite (Hin' v Hv), (Hin1 v Hv), elem_of_cons. tauto.
Qed.

(** A rebuild at a size that leaves the table at most half full. *)
Lemma rehash_slots_well_formed (fuel0 fuel : nat) (k : Z) ht :
  probing_resizes_well fuel0 → (fuel0 ≤ fuel)%nat → 3 ≤ k ≤ 31 →
  List.length (hashTable ht) = Z.to_nat (length ht) →
  2 * Z.of_nat (List.length (filter occupied (hashTable ht))) ≤ 2 ^ k →
  2 ^ k ≤ Z.of_nat fuel →
  ∃ ht', rehash fuel (2 ^ k) ht = Some ht'
         ∧ slots_well_formed ht' ∧ all_counted ht'
         ∧ length ht' = 2 ^ k
         ∧ num_entries ht'
           ≤ Z.of_nat (List.length (filter occupied (hashTable ht)))
         ∧ ∀ v, v ≠ FREE_MARKER →
             v ∈ hashTable ht' ↔ occupied v ∧ v ∈ hashTable ht.
Proof.
  intros Hres Hfuel0 Hk Harr Hroom Hfuel.
  unfold rehash, rehash_with.
  destruct (Hres fuel k (prHashFunc ht) Hfuel0 Hk) as (pr & -> & Hpr).
  cbn [mbind option_bind]. rewrite take_ge by lia.
  assert (0 < 2 ^ k) by (apply Z.pow_pos_nonneg; lia).
  destruct (insert_all_with_room fuel (filter occupied (hashTable ht))
              (mkHashTable (2 ^ k) 0 pr (new_hash_table (2 ^ k))))
    as (ht' & -> & Hwf' & Hcount' & Hl' & Hn' & Hin'); simpl; try done;
    try lia.
  - split; [by exists k|]. split; [apply length_replicate|].
    split; [intros key t; apply Hpr|]. split; [intros key j; apply Hpr|].
    intros j key Hj [Hfree _]. simpl in Hj.
    apply lookup_replicate in Hj as [-> _]. done.
  - unfold all_counted. simpl. by rewrite slots_in_use_new.
  - by intros key [[Hfree _] _]%list_elem_of_filter.
  - exists ht'. split; [done|]. split; [done|]. split; [done|].
    split; [done|]. split; [simpl in Hn'; lia|].
    intros v Hv. rewrite (Hin' v Hv), list_elem_of_filter. simpl.
    split; [intros [?|E%elem_of_replicate_inv]; [done|congruence]|by left].
Qed.

(** [insert] on a well-formed table whose slots in use are all
    counted: it returns a table of the same kind, twice as long when
    the table was half full. *)
Lemma insert_slots_well_formed (fuel0 fuel : nat) ht key :
  probing_resizes_well fuel0 →
  slots_well_formed ht → all_counted ht → key ≠ FREE_MARKER →
  length ht ≤ 2 ^ 30 →
  (fuel0 < fuel)%nat → 2 * length ht < Z.of_nat fuel →
  ∃ ht', insert fuel ht key = Some ht'
         ∧ slots_well_formed ht' ∧ all_counted ht'
         ∧ length ht'
           = (if load_factor_ge_half ht then 2 * length ht else length ht)
         ∧ num_entries ht' ≤ num_entries ht + 1
         ∧ ∀ v, occupied v →
             v ∈ hashTable ht' ↔ v = key ∨ v ∈ hashTable ht.
Proof.
  intros Hres Hwf Hcount Hkey Hmax Hfuel0 Hfuel.
  pose proof (well_formed_length ht Hwf) as Hlen.
  destruct (load_factor_ge_half ht) eqn:Hload.
  2:{ destruct (insert_with_room ht key fuel)
        as (ht' & -> & Hwf' & Hcount' & Hl' & _ & Hn' & Hin'); try done;
        try lia.
      exists ht'. repeat (split; [done || lia|]).
      intros v [Hv _]. by apply Hin'. }
  pose proof Hwf as ((k & Hk & Hpow) & Harr & _).
  assert (k ≤ 30) as Hk30.
  { destruct (Z_le_gt_dec k 30); [done|].
    assert (2 ^ 31 ≤ 2 ^ k) by (apply Z.pow_le_mono_r; lia). lia. }
  assert (2 * length ht = 2 ^ (k + 1)) as Hdouble.
  { rewrite Z.pow_add_r by lia. change (2 ^ 1) with 2. lia. }
  destruct fuel as [|fuel]; [lia|].
  remember (S fuel) as fuel1 eqn:Hfuel1. rewrite Hfuel1.
  cbn [insert]. unfold grow_with. rewrite Hload.
  rewrite (wrap32_small (2 * length ht)) by lia. rewrite Hdouble.
  pose proof (length_filter occupied (hashTable ht)) as Hocc.
  pose proof (occupied_in_use (hashTable ht)) as Hocc'.
  destruct (rehash_slots_well_formed fuel0 fuel (k + 1) ht)
    as (ht1 & Hre & Hwf1 & Hcount1 & Hl1 & Hn1 & Hin1); try done; try lia.
  unfold rehash in Hre. rewrite Hre. cbn [mbind option_bind].
  rewrite <- Hfuel1.
  unfold all_counted in Hcount.
  destruct (insert_loop_well_formed ht1 key fuel1)
    as (r & -> & Hwf' & Hcount' & Hn & Hin); try done; try lia.
  cbn [mbind option_bind]. eexists. split; [done|].
  split; [done|]. split; [done|].
  split; [destruct r; simpl; lia|]. split; [lia|].
  intros v [Hv Hd]. rewrite (Hin v Hv), (Hin1 v Hv). unfold occupied. tauto.
Qed.

(** On a well-formed table, [find] returns the key exactly when a
    slot holds it. *)
Lemma find_slots_well_formed (fuel : nat) ht key :
  slots_well_formed ht → occupied key → length ht ≤ Z.of_nat fuel →
  find fuel ht key
  = Some (if decide (key ∈ hashTable ht) then key else INVALID_KEY).
Proof.
  intros Hwf Hocc Hfuel.
  pose proof (well_formed_length ht Hwf) as Hlen.
  pose proof Hwf as (_ & Harr & Hcyc & _ & Hch).
  destruct (decide (key ∈ hashTable ht)) as [Hin|Habs];
    [|apply find_absent_invalid; (done || lia)].
  apply list_elem_of_lookup_1 in Hin as (j & Hj).
  destruct (Hch j key Hj Hocc) as (t & Ht & Hjt & Hbefore).
  apply (find_reached ht key t); try done; try lia.
  - apply Hcyc.
  - unfold slot. by rewrite Hjt, Hj.
Qed.

(** The constructor's table is well formed and counted. *)
Lemma new_slots_well_formed (fuel0 fuel : nat) (prh : P) :
  probing_resizes_well fuel0 → (fuel0 ≤ fuel)%nat →
  ∃ ht, new fuel prh = Some ht
        ∧ slots_well_formed ht ∧ all_counted ht
        ∧ length ht = MIN_LENGTH ∧ num_entries ht = 0
        ∧ ∀ v, v ∈ hashTable ht → v = FREE_MARKER.
Proof.
  intros Hres Hfuel0. unfold new.
  destruct (Hres fuel 3 prh Hfuel0) as (pr & Hpr & Hlaw); [lia|].
  change (2 ^ 3) with MIN_LENGTH in Hpr. rewrite Hpr.
  cbn [mbind option_bind]. eexists. split; [done|].
  split.
  { split; [by exists 3|]. split; [apply length_replicate|].
    split; [intros key t; apply Hlaw|]. split; [intros key j; apply Hlaw|].
    intros j key Hj [Hfree _]. simpl in Hj.
    apply lookup_replicate in Hj as [-> _]. done. }
  split; [unfold all_counted; simpl; by rewrite slots_in_use_new|].
  split; [done|]. split; [done|].
  simpl. by intros v ->%elem_of_replicate_inv.
Qed.

(** A run of inserts from a well-formed, counted table that has seen
    at most [c] inserts since it was [MIN_LENGTH] long. *)
Lemma insert_all_slots_well_formed (fuel0 fuel : nat) : ∀ ks ht c,
  probing_resizes_well fuel0 →
  slots_well_formed ht → all_counted ht →
  (∀ key, key ∈ ks → occupied key) →
  num_entries ht ≤ c → (length ht = 8 ∨ length ht ≤ 4 * c) →
  c + Z.of_nat (List.length ks) ≤ 2 ^ 28 →
  (fuel0 < fuel)%nat →
  16 + 8 * (c + Z.of_nat (List.length ks)) < Z.of_nat fuel →
  ∃ ht', insert_all (insert fuel) ks ht = Some ht'
         ∧ slots_well_formed ht' ∧ all_counted ht'
         ∧ (length ht' = 8
            ∨ length ht' ≤ 4 * (c + Z.of_nat (List.length ks)))
         ∧ ∀ v, occupied v →
             v ∈ hashTable ht' ↔ v ∈ ks ∨ v ∈ hashTable ht.
Proof.
  induction ks as [|key ks IH];
    intros ht c Hres Hwf Hcount Hks Hn Hlen Hmax Hfuel0 Hfuel.
  { exists ht. simpl. repeat (split; [done|]). split; [lia|].
    intros v _. split; [by right|]. by intros [?%elem_of_nil|?]. }
  cbn [insert_all]. simpl in Hmax, Hfuel.
  assert (0 ≤ num_entries ht) by (unfold all_counted in Hcount; lia).
  pose proof (well_formed_length ht Hwf) as Hlen8.
  destruct (insert_slots_well_formed fuel0 fuel ht key)
    as (ht1 & -> & Hwf1 & Hcount1 & Hl1 & Hn1 & Hin1); try done; try lia.
  { apply Hks. by left. }
  cbn [mbind option_bind].
  destruct (IH ht1 (c + 1)) as (ht' & -> & Hwf' & Hcount' & Hlen' & Hin');
    try done; try lia.
  { intros k Hk. apply Hks. by right. }
  { rewrite Hl1. unfold load_factor_ge_half.
    destruct (Z.eqb_spec (length ht) 0); [lia|].
    destruct (Z.leb_spec (length ht) (2 * num_entries ht)); lia. }
  exists ht'. split; [done|]. split; [done|]. split; [done|].
  split; [cbn [List.length]; lia|].
  intros v Hv. rewrite (Hin' v Hv), (Hin1 v Hv), elem_of_cons. tauto.
Qed.

(** A run of inserts brings in no tombstone. *)
Lemma insert_all_no_tombstone (fuel : nat) ks ht ht' :
  insert_all (insert fuel) ks ht = Some ht' →
  DEL_MARKER ∉ ks → DEL_MARKER ∉ hashTable ht →
  DEL_MARKER ∉ hashTable ht'.
Proof.
  intros Hall Hks Hht Hin.
  eapply (insert_all_values (insert fuel) (λ v, v ≠ DEL_MARKER));
    [|exact Hall| | |exact Hin|done].
  - intros ht0 k ht0' E Hk Hht0.
    by apply (insert_values fuel ht0 k ht0' (λ v, v ≠ DEL_MARKER)).
  - by intros k Hk ->.
  - by intros v Hv ->.
Qed.

(** Without tombstones the two counts agree. *)
Lemma counted_no_tombstone ht :
  all_counted ht → DEL_MARKER ∉ hashTable ht → entries_counted ht.
Proof.
  unfold all_counted, entries_counted, slots_in_use. intros -> Hdel.
  do 2 f_equal. induction (hashTable ht) as [|x tbl IH]; [done|].
  apply not_elem_of_cons in Hdel as [Hx Hdel]. rewrite !filter_cons.
  destruct (decide (x ≠ FREE_MARKER)); destruct (decide (occupied x)) as [[??]|Hn];
    try done; try (by rewrite IH).
  exfalso. apply Hn. by split.
Qed.

(** The loop of inserts in [run]. *)
Lemma run_inserts (fuel : nat) ks : ∀ ht,
  run fuel (Insert <$> ks) ht = insert_all (insert fuel) ks ht.
Proof.
  induction ks as [|key ks IH]; intros ht; [done|]. simpl.
  destruct (insert fuel ht key); [|done]. apply IH.
Qed.

End OpenInvariantFacts.

(** ** Open addressing: the state kept by remove *)

Section OpenRemoveFacts.
Import OpenAddressing.
Context {P : Type} `{ProbingHashFunction P}.
Implicit Types ht : HashTable P.

Local Abbreviation index_at ht key t := (probing_hash (prHashFunc ht) key t).
Local Abbreviation slot_at ht key t :=
  (slot (hashTable ht) (probing_hash (prHashFunc ht) key t)).

(** With intact probe chains no key is stored twice. *)
Lemma chains_one_slot ht key :
  chains_intact ht → occupied key → in_one_slot ht key.
Proof.
  intros Hch Hocc i j Hi Hj.
  destruct (Hch i key Hi Hocc) as (ti & Hti & <- & Hbi).
  destruct (Hch j key Hj Hocc) as (tj & Htj & <- & Hbj).
  destruct (Z.lt_trichotomy ti tj) as [Hlt|[->|Hgt]]; [|done|].
  - destruct (Hbj ti) as [Hk _]; [lia|]. exfalso. apply Hk.
    unfold slot. by rewrite Hi.
  - destruct (Hbi tj) as [Hk _]; [lia|]. exfalso. apply Hk.
    unfold slot. by rewrite Hj.
Qed.

(** A tombstone keeps every probe chain intact. *)
Lemma marked_well_formed ht (i : Z) :
  slots_well_formed ht → slots_well_formed (marked_deleted ht i).
Proof.
  intros (Hpow & Harr & Hcyc & Hcov & Hch).
  split; [done|]. split; [simpl; by rewrite length_insert|].
  split; [exact Hcyc|]. split; [exact Hcov|].
  intros j v Hj Hocc. simpl in Hj |- *.
  apply list_lookup_insert_Some in Hj as [(_ & <- & _)|[Hne Hj]];
    [by destruct Hocc|].
  destruct (Hch j v Hj Hocc) as (tv & Htv & Hjv & Hbv).
  exists tv. split; [done|]. split; [done|]. intros t' Ht'.
  destruct (Hbv t' Ht') as [Hk Hf].
  destruct (slot_insert_cases (hashTable ht) i (index_at ht v t') DEL_MARKER)
    as [-> | ->]; [|done].
  split; [intros <-; by destruct Hocc|done].
Qed.

Lemma occupied_count_delete (tbl : list Z) (i : nat) (v : Z) :
  tbl !! i = Some v → occupied v →
  S (List.length (filter occupied (<[i := DEL_MARKER]> tbl)))
  = List.length (filter occupied tbl).
Proof.
  intros Hi Hv. revert i Hi.
  induction tbl as [|x tbl IH]; intros [|i] Hi; simpl in *; try done.
  - injection Hi as ->. rewrite (filter_cons_True occupied v) by done.
    by rewrite filter_cons_False by (by intros [_ ?]).
  - rewrite !filter_cons. destruct (decide (occupied x)); simpl;
      by rewrite <- (IH i).
Qed.

(** What [find_index] returns on a well-formed table. *)
Lemma find_index_slots_well_formed (fuel : nat) ht key :
  slots_well_formed ht → occupied key → length ht ≤ Z.of_nat fuel →
  ∃ i, find_index fuel ht key = Some i
       ∧ ((0 ≤ i < length ht ∧ hashTable ht !! Z.to_nat i = Some key)
          ∨ ((key ∉ hashTable ht) ∧ i = length ht)).
Proof.
  intros Hwf Hocc Hfuel.
  pose proof (well_formed_length ht Hwf) as Hlen.
  pose proof Hwf as (_ & Harr & Hcyc & _ & Hch).
  destruct (decide (key ∈ hashTable ht)) as [Hin|Habs].
  - apply list_elem_of_lookup_1 in Hin as (j & Hj).
    destruct (Hch j key Hj Hocc) as (t & Ht & Hjt & Hbefore).
    exists (index_at ht key t). split.
    + apply find_index_loop_hits; try done; try lia.
      unfold slot. by rewrite Hjt, Hj.
    + left. split; [apply Hcyc|]. by rewrite Hjt.
  - destruct (find_index_loop_returns ht key fuel 0) as (r & Hr & Hcase);
      try lia.
    exists r. split; [done|]. right. split; [done|].
    destruct Hcase as [->|Hs]; [done|]. exfalso. apply Habs.
    eapply list_elem_of_lookup_2. apply slot_lookup; [done|]. by destruct Hocc.
Qed.

(** [remove] on a well-formed table whose count is exact: it returns
    a table of the same kind, without the key. *)
Lemma remove_slots_well_formed (fuel0 fuel : nat) ht key :
  probing_resizes_well fuel0 →
  slots_well_formed ht → entries_counted ht → occupied key →
  (fuel0 ≤ fuel)%nat → length ht ≤ Z.of_nat fuel →
  ∃ ht', remove fuel ht key = Some ht'
         ∧ slots_well_formed ht' ∧ entries_counted ht'
         ∧ length ht' ≤ length ht
         ∧ ∀ v, occupied v →
             v ∈ hashTable ht' ↔ v ≠ key ∧ v ∈ hashTable ht.
Proof.
  intros Hres Hwf Hcount Hocc Hfuel0 Hfuel.
  pose proof (well_formed_length ht Hwf) as Hlen.
  pose proof Hwf as ((k & Hk & Hpow) & Harr & _ & _ & Hch).
  destruct (find_index_slots_well_formed fuel ht key)
    as (i & Hi & [[Hrange Hslot]|[Habs ->]]); try done.
  2:{ exists ht. unfold remove. rewrite Hi. cbn [mbind option_bind].
      rewrite Z.leb_refl. repeat (split; [done || lia|]).
      intros v Hv. split; [|by intros [_ ?]]. intros Hin.
      split; [by intros ->|done]. }
  rewrite (remove_found fuel ht key i Hi) by lia.
  pose proof (occupied_count_delete _ _ _ Hslot Hocc) as Hdel.
  pose proof (length_filter occupied (hashTable ht)) as Hle.
  unfold entries_counted in Hcount.
  assert (wrap32 (num_entries ht - 1) = num_entries ht - 1) as Hw
    by (apply wrap32_small; lia).
  assert (∀ v, occupied v →
            v ∈ hashTable (marked_deleted ht i) ↔ v ≠ key ∧ v ∈ hashTable ht)
    as Hmem.
  { intros v Hv. simpl. split.
    - intros (j & Hj)%list_elem_of_lookup_1.
      apply list_lookup_insert_Some in Hj as [(_ & <- & _)|[Hne Hj]];
        [by destruct Hv|].
      split; [|by eapply list_elem_of_lookup_2].
      intros ->. apply Hne. by apply (chains_one_slot ht key Hch Hocc).
    - intros [Hne (j & Hj)%list_elem_of_lookup_1].
      apply (list_elem_of_lookup_2 _ j). rewrite list_lookup_insert_ne; [done|].
      intros <-. congruence. }
  assert (entries_counted (marked_deleted ht i)) as Hcount'.
  { unfold entries_counted. simpl. rewrite Hw. lia. }
  destruct (shrinks_after_remove ht) eqn:Hshrink.
  2:{ exists (marked_deleted ht i). split; [done|].
      split; [by apply marked_well_formed|]. split; [done|].
      split; [simpl; lia|done]. }
  unfold shrinks_after_remove in Hshrink.
  apply andb_true_iff in Hshrink as [Hmin Hload].
  apply Z.leb_le in Hmin. unfold MIN_LENGTH in Hmin.
  destruct (Z.eqb_spec (length ht) 0); [done|].
  apply Z.leb_le in Hload. rewrite Hw in Hload.
  assert (5 ≤ k) as Hk5.
  { destruct (Z_lt_le_dec k 5); [|done].
    assert (2 ^ k ≤ 2 ^ 4) by (apply Z.pow_le_mono_r; lia).
    change (2 ^ 4) with 16 in *. rewrite Hpow in Hmin.
    assert (2 ^ k / 4 ≤ 16 / 4) by (apply Z.div_le_mono; lia).
    change (16 / 4) with 4 in *. lia. }
  assert (length ht / 4 = 2 ^ (k - 2)) as Hquarter.
  { rewrite Hpow. replace k with (k - 2 + 2) at 1 by lia.
    rewrite Z.pow_add_r by lia. change (2 ^ 2) with 4.
    apply Z.div_mul. lia. }
  assert (length ht = 4 * 2 ^ (k - 2)) as Hfour.
  { rewrite Hpow. replace k with (k - 2 + 2) at 1 by lia.
    rewrite Z.pow_add_r by lia. change (2 ^ 2) with 4. lia. }
  rewrite Hquarter.
  destruct (rehash_slots_well_formed fuel0 fuel (k - 2) (marked_deleted ht i))
    as (ht' & Hre & Hwf' & Hall' & Hl' & _ & Hin'); try done; try lia.
  { simpl. by rewrite length_insert. }
  { simpl. lia. }
  exists ht'. split; [done|]. split; [done|].
  split.
  { apply counted_no_tombstone; [done|]. intros Hin.
    apply (Hin' DEL_MARKER) in Hin as [[_ ?] _]; done. }
  split; [lia|].
  intros v Hv. rewrite (Hin' v) by (by destruct Hv).
  rewrite (Hmem v Hv). tauto.
Qed.

(** A run of removes on a well-formed table whose count is exact. *)
Lemma remove_all_slots_well_formed (fuel0 fuel : nat) : ∀ ks ht,
  probing_resizes_well fuel0 →
  slots_well_formed ht → entries_counted ht →
  (∀ key, key ∈ ks → occupied key) →
  (fuel0 ≤ fuel)%nat → length ht ≤ Z.of_nat fuel →
  ∃ ht', run fuel (Remove <$> ks) ht = Some ht'
         ∧ slots_well_formed ht' ∧ entries_counted ht'
         ∧ length ht' ≤ length ht
         ∧ ∀ v, occupied v →
             v ∈ hashTable ht' ↔ (v ∉ ks) ∧ v ∈ hashTable ht.
Proof.
  induction ks as [|key ks IH]; intros ht Hres Hwf Hcount Hks Hfuel0 Hfuel.
  { exists ht. simpl. repeat (split; [done || lia|]).
    intros v _. split; [|by intros [_ ?]]. intros ?.
    split; [apply not_elem_of_nil|done]. }
  cbn [fmap list_fmap run step].
  destruct (remove_slots_well_formed fuel0 fuel ht key)
    as (ht1 & -> & Hwf1 & Hcount1 & Hl1 & Hin1); try done.
  { apply Hks. by left. }
  cbn [mbind option_bind].
  destruct (IH ht1) as (ht' & -> & Hwf' & Hcount' & Hl' & Hin');
    try done; try lia.
  { intros k Hk. apply Hks. by right. }
  exists ht'. split; [done|]. split; [done|]. split; [done|].
  split; [lia|].
  intros v Hv. rewrite (Hin' v Hv), (Hin1 v Hv), not_elem_of_cons. tauto.
Qed.

End OpenRemoveFacts.

Section OpenInvariantTheorems.
Import OpenAddressing.
Context {P : Type} `{ProbingHashFunction P}.
Implicit Types ht : HashTable P.

(** X22.  [insert] keeps an open-addressing table well formed.  On a
    well-formed table of at most [2^30] slots whose slots in use are
    all counted, [insert] of a key other than the free marker returns;
    the table it returns is well formed and counted again, is twice as
    long when the load factor had reached one half and as long as
    before otherwise, and holds the key and the keys held before,
    nothing else. *)
Theorem open_insert_keeps_well_formed (fuel0 fuel : nat) ht (key : Z) :
  probing_resizes_well fuel0 →
  slots_well_formed ht → all_counted ht → key ≠ FREE_MARKER →
  length ht ≤ 2 ^ 30 →
  (fuel0 < fuel)%nat → 2 * length ht < Z.of_nat fuel →
  ∃ ht', insert fuel ht key = Some ht'
         ∧ slots_well_formed ht' ∧ all_counted ht'
         ∧ length ht'
           = (if load_factor_ge_half ht then 2 * length ht else length ht)
         ∧ num_entries ht' ≤ num_entries ht + 1
         ∧ ∀ v, occupied v →
             v ∈ hashTable ht' ↔ v = key ∨ v ∈ hashTable ht.
Proof. apply insert_slots_well_formed. Qed.

(** X23.  On a well-formed table, tombstones or not, [find] of a key
    that is no marker returns the key exactly when a slot holds it,
    and INVALID_KEY otherwise. *)
Theorem open_find_exact_on_well_formed (fuel : nat) ht (key : Z) :
  slots_well_formed ht → occupied key → length ht ≤ Z.of_nat fuel →
  find fuel ht key
  = Some (if decide (key ∈ hashTable ht) then key else INVALID_KEY).
Proof. apply find_slots_well_formed. Qed.

(** X24.  [remove] keeps an open-addressing table well formed.  On a
    well-formed table whose [num_entries] counts the occupied slots,
    [remove] of a key that is no marker returns, whether the key is
    present or not and whether the table is rebuilt or not; the table
    it returns is well formed, its count is exact, it is not longer,
    and it holds the keys held before except the removed one. *)
Theorem open_remove_keeps_well_formed (fuel0 fuel : nat) ht (key : Z) :
  probing_resizes_well fuel0 →
  slots_well_formed ht → entries_counted ht → occupied key →
  (fuel0 ≤ fuel)%nat → length ht ≤ Z.of_nat fuel →
  ∃ ht', remove fuel ht key = Some ht'
         ∧ slots_well_formed ht' ∧ entries_counted ht'
         ∧ length ht' ≤ length ht
         ∧ ∀ v, occupied v →
             v ∈ hashTable ht' ↔ v ≠ key ∧ v ∈ hashTable ht.
Proof. apply remove_slots_well_formed. Qed.

(** X25.  [run_test] reports no error.  For at least four and at most
    [2^28] numbers, none of them a marker, the first round of [find]
    returns every number and the second round returns INVALID_KEY for
    every removed number; the table left is well formed, its count is
    exact, and it holds the numbers that were not removed. *)
Theorem open_run_test_passes (fuel0 fuel : nat) (prh : P) (nums : list Z) :
  probing_resizes_well fuel0 → (fuel0 < fuel)%nat →
  Forall occupied nums →
  4 ≤ Z.of_nat (List.length nums) ≤ 2 ^ 28 →
  16 + 8 * Z.of_nat (List.length nums) < Z.of_nat fuel →
  ∃ ht, run_test fuel nums prh
        = Some (nums,
                replicate (List.length nums - 4) INVALID_KEY,
                ht)
        ∧ slots_well_formed ht ∧ entries_counted ht
        ∧ ∀ v, occupied v →
            v ∈ hashTable ht
            ↔ v ∈ nums ∧ (v ∉ take (List.length nums - 4) nums).
Proof.
  intros Hres Hfuel0 Hnums HN Hfuel. rewrite list.Forall_forall in Hnums.
  unfold run_test.
  destruct (new_slots_well_formed fuel0 fuel prh Hres)
    as (ht0 & -> & Hwf0 & Hall0 & Hl0 & Hn0 & Hfree0); [lia|].
  cbn [mbind option_bind]. rewrite run_inserts.
  destruct (insert_all_slots_well_formed fuel0 fuel nums ht0 0)
    as (ht1 & Hins & Hwf1 & Hall1 & Hl1 & Hin1); try done; try lia.
  { by left. }
  rewrite Hins. cbn [mbind option_bind].
  assert (entries_counted ht1) as Hcount1.
  { apply counted_no_tombstone; [done|].
    apply (insert_all_no_tombstone fuel nums ht0 ht1 Hins).
    - intros [_ ?]%Hnums. done.
    - intros E%Hfree0. done. }
  assert (length ht1 ≤ Z.of_nat fuel) as Hfuel1 by lia.
  assert (mapM (find fuel ht1) nums = Some nums) as ->.
  { apply mapM_Some_2, Forall_Forall2_diag, list.Forall_forall. intros key Hkey.
    rewrite find_slots_well_formed by (done || by apply Hnums).
    rewrite decide_True; [done|]. apply Hin1; [by apply Hnums|by left]. }
  cbn [mbind option_bind].
  rewrite (wrap32_small (Z.of_nat (List.length nums) - 4)) by lia.
  replace (Z.to_nat (Z.of_nat (List.length nums) - 4))
    with (List.length nums - 4)%nat by lia.
  set (removed := take (List.length nums - 4) nums).
  assert (∀ key, key ∈ removed → occupied key) as Hremoved.
  { intros key Hkey%subseteq_take. by apply Hnums. }
  destruct (remove_all_slots_well_formed fuel0 fuel removed ht1)
    as (ht2 & -> & Hwf2 & Hcount2 & Hl2 & Hin2); try done; try lia.
  cbn [mbind option_bind].
  assert (mapM (find fuel ht2) removed
          = Some (replicate (List.length nums - 4) INVALID_KEY)) as ->.
  { apply mapM_Some_2, Forall2_replicate_r.
    - unfold removed. rewrite length_take. lia.
    - apply list.Forall_forall. intros key Hkey. unfold flip.
      rewrite find_slots_well_formed by (done || lia || by apply Hremoved).
      rewrite decide_False; [done|].
      intros [? _]%Hin2; [done|by apply Hremoved]. }
  cbn [mbind option_bind]. exists ht2. split; [done|].
  split; [done|]. split; [done|].
  intros v Hv. rewrite (Hin2 v Hv), (Hin1 v Hv). split.
  - intros [Hrem [?|E%Hfree0]]; [done|]. by destruct Hv.
  - intros [? ?]. split; [done|by left].
Qed.

End OpenInvariantTheorems.

(** ** The probing functions of the driver resize well *)

Section ProbingResizes.
Import OpenAddressing.

Lemma linear_probing_resizes_well `{HashFunction H} (fuel0 : nat) :
  (∀ (fuel : nat) k (h : H), (fuel0 ≤ fuel)%nat → 3 ≤ k ≤ 31 →
     is_Some (UpdateHashSize fuel (2 ^ k) h)) →
  probing_resizes_well (P := LinearProbingHashFunction.t H) fuel0.
Proof.
  intros Hh fuel k p Hfuel Hk.
  destruct (Hh fuel k (LinearProbingHashFunction.hFunc p) Hfuel Hk)
    as [h' Hh'].
  exists (LinearProbingHashFunction.mk (2 ^ k) h'). split.
  { simpl. unfold LinearProbingHashFunction.UpdateHashSize. by rewrite Hh'. }
  destruct (linear_table_probing
              (mkHashTable (2 ^ k) 0 (LinearProbingHashFunction.mk (2 ^ k) h') [])
              k) as [Hcyc Hcov]; [lia|done..|].
  intros key. split; [intros t; apply (Hcyc key t)|].
  intros j Hj. by apply (Hcov key j).
Qed.

Lemma double_hashing_resizes_well `{HashFunction H1} `{HashFunction H2}
    (fuel0 : nat) :
  (∀ (fuel : nat) k (h : H1), (fuel0 ≤ fuel)%nat → 3 ≤ k ≤ 31 →
     is_Some (UpdateHashSize fuel (2 ^ k) h)) →
  (∀ (fuel : nat) k (h : H2), (fuel0 ≤ fuel)%nat → 3 ≤ k ≤ 31 →
     is_Some (UpdateHashSize fuel (2 ^ k) h)) →
  probing_resizes_well (P := DoubleHashFunction.t H1 H2) fuel0.
Proof.
  intros Hh1 Hh2 fuel k p Hfuel Hk.
  destruct (Hh1 fuel k (DoubleHashFunction.hFunc1 p) Hfuel Hk) as [h1 Hh1'].
  destruct (Hh2 fuel k (DoubleHashFunction.hFunc2 p) Hfuel Hk) as [h2 Hh2'].
  exists (DoubleHashFunction.mk (2 ^ k) h1 h2). split.
  { simpl. unfold DoubleHashFunction.UpdateHashSize.
    by rewrite Hh1', Hh2'. }
  destruct (double_table_probing
              (mkHashTable (2 ^ k) 0 (DoubleHashFunction.mk (2 ^ k) h1 h2) [])
              k) as [Hcyc Hcov]; [lia|done..|].
  intros key. split; [intros t; apply (Hcyc key t)|].
  intros j Hj. by apply (Hcov key j).
Qed.

Lemma linear_division_resizes_well :
  probing_resizes_well (P := LinearDivision) 0.
Proof. apply linear_probing_resizes_well. intros fuel k h _ _. by eexists. Qed.

End ProbingResizes.

Section OpenInvariantWitnesses.
Import OpenAddressing.

Lemma two_collided_well_formed : slots_well_formed two_collided.
Proof.
  split; [exists 3; split; [lia|done]|]. split; [done|].
  destruct (linear_table_probing two_collided 3) as [Hcyc Hcov];
    [lia|done..|].
  split; [done|]. split; [done|].
  intros j key Hj Hocc.
  do 5 (destruct j as [|j]; [injection Hj as <-; by destruct Hocc|]).
  destruct j as [|j].
  { injection Hj as <-. exists 0. split; [done|]. split; [done|].
    intros t' ?. lia. }
  destruct j as [|j].
  { injection Hj as <-. exists 1. split; [done|]. split; [done|].
    intros t' ?. assert (t' = 0) as -> by lia. by split. }
  destruct j as [|j]; [injection Hj as <-; by destruct Hocc|done].
Qed.

Lemma open_insert_keeps_well_formed_witness :
  ∃ ht', insert 20 two_collided 21 = Some ht'
         ∧ slots_well_formed ht' ∧ all_counted ht'
         ∧ length ht'
           = (if load_factor_ge_half two_collided
              then 2 * length two_collided else length two_collided)
         ∧ num_entries ht' ≤ num_entries two_collided + 1
         ∧ ∀ v, occupied v →
             v ∈ hashTable ht' ↔ v = 21 ∨ v ∈ hashTable two_collided.
Proof.
  apply (open_insert_keeps_well_formed 0 20 two_collided 21).
  - exact linear_division_resizes_well.
  - exact two_collided_well_formed.
  - reflexivity.
  - done.
  - simpl. lia.
  - lia.
  - simpl. lia.
Defined.

Lemma open_find_exact_on_well_formed_witness :
  find 8 two_collided 13
  = Some (if decide (13 ∈ hashTable two_collided) then 13 else INVALID_KEY).
Proof.
  apply (open_find_exact_on_well_formed 8 two_collided 13).
  - exact two_collided_well_formed.
  - by split.
  - simpl. lia.
Defined.

Lemma open_remove_keeps_well_formed_witness :
  ∃ ht', remove 8 two_collided 5 = Some ht'
         ∧ slots_well_formed ht' ∧ entries_counted ht'
         ∧ length ht' ≤ length two_collided
         ∧ ∀ v, occupied v →
             v ∈ hashTable ht' ↔ v ≠ 5 ∧ v ∈ hashTable two_collided.
Proof.
  apply (open_remove_keeps_well_formed 0 8 two_collided 5).
  - exact linear_division_resizes_well.
  - exact two_collided_well_formed.
  - reflexivity.
  - by split.
  - lia.
  - simpl. lia.
Defined.

Lemma open_run_test_passes_witness :
  ∃ ht, run_test 100 [5; 13; 21; 29; 37; 45] linear_division
        = Some ([5; 13; 21; 29; 37; 45],
                replicate (6 - 4) INVALID_KEY,
                ht)
        ∧ slots_well_formed ht ∧ entries_counted ht
        ∧ ∀ v, occupied v →
            v ∈ hashTable ht
            ↔ v ∈ [5; 13; 21; 29; 37; 45]
              ∧ (v ∉ take (6 - 4) [5; 13; 21; 29; 37; 45]).
Proof.
  apply (open_run_test_passes 0 100 linear_division [5; 13; 21; 29; 37; 45]).
  - exact linear_division_resizes_well.
  - lia.
  - repeat constructor; done.
  - simpl. lia.
  - simpl. lia.
Defined.

End OpenInvariantWitnesses.

(** ** Chaining: the test driver *)

Section ChainingRunTestFacts.
Import Chaining.
Context {H : Type} `{HashFunction H}.
Implicit Types ht : HashTable H.

Lemma fmap_fixed (f : Z → Z) (l : list Z) :
  (∀ x, x ∈ l → f x = x) → f <$> l = l.
Proof.
  induction l as [|x l IH]; intros Hf; [done|]. simpl.
  rewrite Hf by (by left). f_equal. apply IH. intros y Hy. apply Hf. by right.
Qed.

Lemma fmap_constant (f : Z → Z) (c : Z) (l : list Z) :
  (∀ x, x ∈ l → f x = c) → f <$> l = replicate (List.length l) c.
Proof.
  induction l as [|x l IH]; intros Hf; [done|]. simpl.
  rewrite Hf by (by left). f_equal. apply IH. intros y Hy. apply Hf. by right.
Qed.

(** A run of removes of distinct keys that the table holds. *)
Lemma remove_all_well_formed fuel : ∀ ks ht,
  chains_well_formed ht → resizes_well (S fuel) →
  NoDup ks → (∀ k, k ∈ ks → k ∈ keys ht) →
  ∃ ht', remove_all (S fuel) ks ht = Some ht'
         ∧ chains_well_formed ht' ∧ keys ht ≡ₚ ks ++ keys ht'.
Proof.
  induction ks as [|key ks IH]; intros ht Hwf Hresize Hnodup Hks;
    [by exists ht|].
  apply list.NoDup_cons in Hnodup as [Hkey Hnodup].
  destruct (remove_well_formed fuel ht key)
    as (ht1 & Hrem & Hwf1 & Hkeys1 & _); try done.
  { apply Hks. by left. }
  destruct (IH ht1) as (ht' & Hall & Hwf' & Hkeys'); try done.
  { intros k Hk. assert (k ∈ key :: keys ht1) as Hin.
    { rewrite <- Hkeys1. apply Hks. by right. }
    apply elem_of_cons in Hin as [->|?]; done. }
  exists ht'. cbn [remove_all]. rewrite Hrem. cbn [mbind option_bind].
  split; [done|]. split; [done|]. by rewrite Hkeys1, Hkeys'.
Qed.

End ChainingRunTestFacts.

Section ChainingRunTestTheorems.
Import Chaining.
Context {H : Type} `{HashFunction H}.
Implicit Types ht : HashTable H.

(** X26.  [run_test] of the chaining table reports no error when the
    numbers are distinct.  For at least two and at most [2^30]
    distinct numbers, the first round of [find] returns every number
    and the second round returns INVALID_KEY for every removed number;
    the table left is well formed and holds the last two numbers. *)
Theorem chain_run_test_passes (fuel : nat) (nums : list Z) :
  constructs_well (S (S fuel)) →
  resizes_well (S fuel) → resizes_well (S (S fuel)) →
  NoDup nums →
  2 ≤ Z.of_nat (List.length nums) ≤ 2 ^ 30 →
  ∃ ht, chain_run_test (S (S fuel)) nums
        = Some (nums, replicate (List.length nums - 2) INVALID_KEY, ht)
        ∧ chains_well_formed ht
        ∧ keys ht ≡ₚ drop (List.length nums - 2) nums.
Proof.
  intros (hf & Hnew & Hrange) Hresize Hresize' Hnodup HN.
  unfold chain_run_test, new. rewrite Hnew. cbn [mbind option_bind].
  set (ht0 := mkHashTable MIN_LENGTH 0 hf (replicate (Z.to_nat MIN_LENGTH) [])).
  assert (chains_well_formed ht0) as Hwf0 by (by apply (fresh_well_formed 3)).
  destruct (insert_all_well_formed fuel nums ht0) as (ht1 & -> & Hwf1 & Hkeys1);
    try done; [by left|simpl; lia|].
  cbn [mbind option_bind]. rewrite app_nil_r in Hkeys1.
  rewrite (wrap32_small (Z.of_nat (List.length nums) - 2)) by lia.
  replace (Z.to_nat (Z.of_nat (List.length nums) - 2))
    with (List.length nums - 2)%nat by lia.
  set (n := (List.length nums - 2)%nat).
  rewrite <- (take_drop n nums) in Hnodup, Hkeys1.
  apply list.NoDup_app in Hnodup as (Hnodup & Hdisjoint & _).
  destruct (remove_all_well_formed (S fuel) (take n nums) ht1)
    as (ht2 & -> & Hwf2 & Hkeys2); try done.
  { intros k Hk. rewrite Hkeys1. apply elem_of_app. by left. }
  cbn [mbind option_bind]. exists ht2.
  assert (keys ht2 ≡ₚ drop n nums) as Hleft.
  { apply (Permutation_app_inv_l (take n nums)). by rewrite <- Hkeys2. }
  split; [|by split].
  rewrite (fmap_fixed (find ht1) nums).
  2:{ intros k Hk. apply find_present; [done|].
      by rewrite Hkeys1, take_drop. }
  rewrite (fmap_constant (find ht2) INVALID_KEY (take n nums)).
  2:{ intros k Hk. apply find_missing. rewrite Hleft. by apply Hdisjoint. }
  rewrite length_take, Nat.min_l by (unfold n; lia). done.
Qed.

(** X27.  The chaining table stores a key as often as it is inserted,
    and [remove] erases one occurrence: a key that a well-formed table
    holds twice is still found after [remove]. *)
Theorem chain_removed_duplicate_still_found (fuel : nat) ht (key : Z)
    (rest : list Z) :
  chains_well_formed ht → resizes_well (S fuel) →
  keys ht ≡ₚ key :: key :: rest →
  ∃ ht', remove (S fuel) ht key = Some ht' ∧ find ht' key = key.
Proof.
  intros Hwf Hresize Hkeys.
  destruct (remove_well_formed fuel ht key)
    as (ht' & Hrem & Hwf' & Hkeys' & _); try done.
  { rewrite Hkeys. by left. }
  exists ht'. split; [done|]. apply find_present; [done|].
  rewrite Hkeys in Hkeys'. apply Permutation_cons_inv in Hkeys'.
  rewrite <- Hkeys'. by left.
Qed.

End ChainingRunTestTheorems.

Section ChainingRunTestWitnesses.
Import Chaining.

Lemma five_twice_well_formed : chains_well_formed five_twice.
Proof.
  split; [exists 3; by split|]. split; [reflexivity|].
  split; [intros key; by apply Z.mod_pos_bound|]. split; [|by split].
  intros i chain key Hi Hkey. simpl in Hi.
  do 5 (destruct i as [|i];
        [injection Hi as <-; by apply elem_of_nil in Hkey|]).
  destruct i as [|i].
  { injection Hi as <-.
    apply elem_of_cons in Hkey as [->|Hkey]; [done|].
    by apply list_elem_of_singleton in Hkey as ->. }
  do 2 (destruct i as [|i];
        [injection Hi as <-; by apply elem_of_nil in Hkey|]).
  done.
Qed.

Lemma chain_run_test_passes_witness :
  ∃ ht : HashTable DivisionHashFunction.t,
    chain_run_test 2 [5; 13; 21; 29; 37; 45; 1; 2; 3; 4]
    = Some ([5; 13; 21; 29; 37; 45; 1; 2; 3; 4],
            replicate (10 - 2) INVALID_KEY, ht)
    ∧ chains_well_formed ht
    ∧ keys ht ≡ₚ drop (10 - 2) [5; 13; 21; 29; 37; 45; 1; 2; 3; 4].
Proof.
  apply (chain_run_test_passes 0 [5; 13; 21; 29; 37; 45; 1; 2; 3; 4]).
  - apply division_constructs_well.
  - apply division_resizes_well.
  - apply division_resizes_well.
  - apply (bool_decide_unpack _). reflexivity.
  - simpl. lia.
Defined.

Lemma chain_removed_duplicate_still_found_witness :
  ∃ ht', remove 1 five_twice 5 = Some ht' ∧ find ht' 5 = 5.
Proof.
  apply (chain_removed_duplicate_still_found 0 five_twice 5 []).
  - exact five_twice_well_formed.
  - apply division_resizes_well.
  - reflexivity.
Defined.

End ChainingRunTestWitnesses.
